(** * The OpenRPC specification generator (scripts/generate-specs.js)

    A shallow embedding of the generator script and the properties of its
    pipeline: dereference, allOf merging, clean-up, sorting, writing, and the
    batch driver with its incremental and full modes.

    Modelling conventions.
    - A document is a tree of JavaScript values ([json]).  An object is the list
      of its own properties in enumeration order; an entry list denotes the
      object obtained by assigning its entries from left to right, so a later
      binding of a key shadows an earlier one ([js_get]) and [obj_set] keeps a
      key's position when it re-assigns it.  Numbers are integers, strings are
      sequences of bytes; the property name [__proto__] is outside the model.
    - An exception is a value [Throw msg]; console output is a list of [event]s
      returned next to the result.  Lines that only echo progress, sizes,
      timings or method counts are left out, and so are the [Date.now()]
      readings that feed them.
    - Node's [path] and [fs] modules, the two npm libraries
      ([@apidevtools/json-schema-ref-parser], [json-schema-merge-allof]),
      [String.prototype.localeCompare] and [JSON.stringify] are the fields of
      the record [Env]: every theorem holds for all of them.
    - The engine's call stack bounds the recursion of [mergeAllOfSchemas]: a
      call beyond the bound raises a [RangeError] as it does in the engine.
    - [specFiles.map(async ...)] starts all documents together.  What follows
      a document's [await] (the push to [results], the write, the [catch])
      runs without interruption, so a run is the documents' callbacks in the
      order in which their dereferencing completes: [completion_order], any
      rearrangement of [specFiles].  The console lines of one document are
      kept together.  The input files are read-only during a run.

    The scripts around the generator follow it, each with its own
    conventions: the upload scripts ([Upload]), the watcher that calls
    [generateSpecs] ([Watch]) and the navigation of the test content
    ([TestContent]). *)

From Stdlib Require Import Ascii String DecimalString Permutation Sorted.
From stdpp Require Import gmap strings list.

Set Warnings "-register-all".
Open Scope string_scope.
Open Scope list_scope.

(** ** JavaScript values *)

Inductive json : Type :=
  | JNull
  | JBool (b : bool)
  | JNum (z : Z)
  | JStr (s : string)
  | JArr (items : list json)
  | JObj (entries : list (string * json)).

(** ToBoolean. *)
Definition truthy (v : json) : bool :=
  match v with
  | JNull => false
  | JBool b => b
  | JNum z => negb (z =? 0)%Z
  | JStr s => negb (s =? "")
  | JArr _ | JObj _ => true
  end.

(** ToBoolean of a property read: a missing property reads [undefined]. *)
Definition truthy_prop (o : option json) : bool :=
  match o with
  | Some v => truthy v
  | None => false
  end.

(** ** Objects as ordered property lists *)

(** [o[k]] on an own property. *)
Fixpoint js_get (k : string) (o : list (string * json)) : option json :=
  match o with
  | [] => None
  | (k', v) :: rest =>
      match js_get k rest with
      | Some x => Some x
      | None => if k' =? k then Some v else None
      end
  end.

Definition has_key (k : string) (o : list (string * json)) : bool :=
  existsb (fun kv => fst kv =? k) o.

(** A property name is an array index when it is the canonical decimal form of
    an integer below 2^32 - 1; such properties are enumerated first, in
    ascending order. *)
Definition array_index (k : string) : option N :=
  match NilEmpty.uint_of_string k with
  | Some u =>
      let n := N.of_uint u in
      if (NilEmpty.string_of_uint (N.to_uint n) =? k) && (n <? 4294967295)%N
      then Some n else None
  | None => None
  end.

Definition index_string (n : nat) : string :=
  NilEmpty.string_of_uint (N.to_uint (N.of_nat n)).

Fixpoint insert_index (i : N) (k : string) (v : json) (o : list (string * json))
    : list (string * json) :=
  match o with
  | [] => [(k, v)]
  | (k', v') :: rest =>
      match array_index k' with
      | Some j =>
          if (j <? i)%N then (k', v') :: insert_index i k v rest
          else (k, v) :: (k', v') :: rest
      | None => (k, v) :: (k', v') :: rest
      end
  end.

(** [o[k] = v]. *)
Definition obj_set (k : string) (v : json) (o : list (string * json))
    : list (string * json) :=
  if has_key k o then
    map (fun kv => if fst kv =? k then (fst kv, v) else kv) o
  else
    match array_index k with
    | Some i => insert_index i k v o
    | None => o ++ [(k, v)]
    end.

(** [delete o[k]]. *)
Definition obj_delete (k : string) (o : list (string * json))
    : list (string * json) :=
  filter (fun kv => fst kv <> k) o.

(** The own enumerable properties that [{...v}] copies. *)
Definition indexed {A} (f : A -> json) (l : list A) : list (string * json) :=
  imap (fun i x => (index_string i, f x)) l.

Definition chars (s : string) : list string :=
  map (fun c => String c EmptyString) (String.list_ascii_of_string s).

Definition spread (v : json) : list (string * json) :=
  match v with
  | JObj kvs => kvs
  | JArr l => indexed id l
  | JStr s => indexed JStr (chars s)
  | JNull | JBool _ | JNum _ => []
  end.

(** [{ k0: v0, ...src }]. *)
Definition assign_all (src acc : list (string * json)) : list (string * json) :=
  fold_left (fun o kv => obj_set (fst kv) (snd kv) o) src acc.

(** ** Exceptions and console output *)

Inductive result (A : Type) : Type :=
  | Ok (a : A)
  | Throw (message : string).
Arguments Ok {A} a.
Arguments Throw {A} message.

Inductive event : Type :=
  | Warn_could_not_merge (message : string)
  | Error_line (message : string)
  | Failed_to_process (base : string) (message : string)
  | Shared_component_changed
  | File_not_found (fullPath : string)
  | No_spec_files_found
  | Generation_complete (successful total : nat).

(** A computation that may throw and that writes to the console. *)
Definition M (A : Type) : Type := result A * list event.

Definition ret {A} (a : A) : M A := (Ok a, []).
Definition throw {A} (msg : string) : M A := (Throw msg, []).
Definition bind {A B} (m : M A) (f : A -> M B) : M B :=
  match m with
  | (Ok a, l) => let (r, l') := f a in (r, l ++ l')
  | (Throw e, l) => (Throw e, l)
  end.
Definition lift {A} (r : result A) : M A := (r, []).

Notation "x <- c1 ;; c2" := (bind c1 (fun x => c2))
  (at level 100, c1 at next level, right associativity).

Fixpoint mapM {A B} (f : A -> M B) (l : list A) : M (list B) :=
  match l with
  | [] => ret []
  | x :: rest => y <- f x ;; ys <- mapM f rest ;; ret (y :: ys)
  end.

Fixpoint foldM {A B} (f : B -> A -> M B) (l : list A) (acc : B) : M B :=
  match l with
  | [] => ret acc
  | x :: rest => acc' <- f acc x ;; foldM f rest acc'
  end.

(** [v.k] for [k] one of [allOf], [components], [methods], [name]: reading a
    property of [null] throws, a primitive or an array has none of them. *)
Definition js_prop (v : json) (k : string) : result (option json) :=
  match v with
  | JNull => Throw ("Cannot read properties of null (reading '" +:+ k +:+ "')")
  | JObj kvs => Ok (js_get k kvs)
  | _ => Ok None
  end.

(** ** Composition keys left in a tree *)

(** Some node carries an [allOf] key. *)
Fixpoint carries_allOf_key (v : json) : bool :=
  match v with
  | JArr l => existsb carries_allOf_key l
  | JObj kvs =>
      has_key "allOf" kvs || existsb (fun kv => carries_allOf_key (snd kv)) kvs
  | _ => false
  end.

(** Some node carries a composition: an [allOf] that [if (obj.allOf)] takes. *)
Fixpoint carries_composition (v : json) : bool :=
  match v with
  | JArr l => existsb carries_composition l
  | JObj kvs =>
      truthy_prop (js_get "allOf" kvs)
      || existsb (fun kv => carries_composition (snd kv)) kvs
  | _ => false
  end.

(** ** Order of the methods *)

(** The [name] of a method entry, when it is a string. *)
Definition name_of (m : json) : option string :=
  match m with
  | JObj kvs =>
      match js_get "name" kvs with
      | Some (JStr s) => Some s
      | _ => None
      end
  | _ => None
  end.

Definition named (m : json) : Prop := is_Some (name_of m).

Definition method_name (m : json) : string := default "" (name_of m).

(** A consistent comparator on strings, as [sort] expects one. *)
Definition consistent (cmp : string -> string -> Z) : Prop :=
  (forall a b, (cmp a b < 0)%Z <-> (0 < cmp b a)%Z)
  /\ (forall a b c, (cmp a b <= 0)%Z -> (cmp b c <= 0)%Z -> (cmp a c <= 0)%Z).

(** [a] may stand before [b] under the comparator [cmp]. *)
Definition by_name (cmp : string -> string -> Z) (a b : json) : Prop :=
  (cmp (method_name a) (method_name b) <= 0)%Z.

(** ** Strings *)

Definition startsWith (s pre : string) : bool := String.prefix pre s.

Definition endsWith (s suf : string) : bool :=
  (String.length suf <=? String.length s)%nat &&
  (String.substring (String.length s - String.length suf) (String.length suf) s =? suf).

Fixpoint includes (s sub : string) : bool :=
  String.prefix sub s ||
  match s with
  | EmptyString => false
  | String _ rest => includes rest sub
  end.

Definition string_of_Z (z : Z) : string :=
  NilEmpty.string_of_int (Z.to_int z).

Definition join_with (sep : string) (l : list string) : string :=
  match l with
  | [] => ""
  | x :: rest => fold_left (fun acc y => acc +:+ sep +:+ y) rest x
  end.

(** ToString, as [localeCompare] applies it to its argument. *)
Fixpoint js_to_string (v : json) : string :=
  match v with
  | JNull => "null"
  | JBool true => "true"
  | JBool false => "false"
  | JNum z => string_of_Z z
  | JStr s => s
  | JArr l =>
      join_with ","
        (map (fun x => match x with JNull => "" | _ => js_to_string x end) l)
  | JObj _ => "[object Object]"
  end.

Definition js_to_string_prop (o : option json) : string :=
  match o with
  | Some v => js_to_string v
  | None => "undefined"
  end.

(** ** The host environment *)

Record Env : Type := {
  SPECS_DIR : string;
  OUTPUT_DIR : string;
  path_basename : string -> string;
  path_basename_ext : string -> string -> string;
  path_extname : string -> string;
  path_isAbsolute : string -> bool;
  path_join : string -> string -> string;
  fs_existsSync : string -> bool;
  fs_mkdirSync : string -> result unit;
  fs_readdirSync : string -> result (list string);
  fs_writeFileSync : string -> string -> result unit;
  (** [$RefParser.dereference(filePath, { dereference: { circular: false } })] *)
  RefParser_dereference : string -> result json;
  mergeAllOf : json -> result json;
  localeCompare : string -> string -> Z;
  (** [JSON.stringify(output, null, 2)] *)
  JSON_stringify : json -> string;
  (** the number of nested calls of [mergeAllOfSchemas] the engine's stack
      has room for *)
  stack_depth : nat;
  (** the order in which the documents started together by
      [specFiles.map(async ...)] come to run the rest of their callback: some
      rearrangement of the list *)
  completion_order : list string -> list string;
  completion_order_perm : forall l, Permutation (completion_order l) l
}.

Definition RangeError : string := "Maximum call stack size exceeded".

(** ** mergeAllOfSchemas *)

Section Generator.

Context (E : Env).

Fixpoint mergeAllOfSchemas (depth : nat) (obj : json) : M json :=
  match depth with
  | O => throw RangeError
  | S d =>
      match obj with
      | JNull | JBool _ | JNum _ | JStr _ => ret obj
      | JArr l =>
          items <- mapM (mergeAllOfSchemas d) l ;;
          ret (JArr items)
      | JObj kvs =>
          if truthy_prop (js_get "allOf" kvs) then
            match mergeAllOf E obj with
            | Ok merged =>
                match mergeAllOfSchemas d merged with
                | (Ok r, lg) => (Ok r, lg)
                | (Throw e, lg) => (Ok obj, lg ++ [Warn_could_not_merge e])
                end
            | Throw e => (Ok obj, [Warn_could_not_merge e])
            end
          else
            result <- foldM (fun result kv =>
                               v <- mergeAllOfSchemas d (snd kv) ;;
                               ret (obj_set (fst kv) v result))
                            kvs [] ;;
            ret (JObj result)
      end
  end.

(** ** Sorting the methods *)

(** [a.name.localeCompare(b.name)] *)
Definition compare_names (a b : json) : result Z :=
  match js_prop a "name" with
  | Throw e => Throw e
  | Ok None =>
      Throw "Cannot read properties of undefined (reading 'localeCompare')"
  | Ok (Some JNull) =>
      Throw "Cannot read properties of null (reading 'localeCompare')"
  | Ok (Some receiver) =>
      match js_prop b "name" with
      | Throw e => Throw e
      | Ok arg =>
          match receiver with
          | JStr s => Ok (localeCompare E s (js_to_string_prop arg))
          | _ => Throw "a.name.localeCompare is not a function"
          end
      end
  end.

(** [Array.prototype.sort(comparefn)] is a stable sort.  The model inserts the
    elements one by one, from the left, into the sorted prefix, calling
    [comparefn(new, placed)]; a comparator that throws makes [sort] throw. *)
Fixpoint sort_insert (cmp : json -> json -> result Z) (p : json)
    (sorted : list json) : result (list json) :=
  match sorted with
  | [] => Ok [p]
  | e :: rest =>
      match cmp p e with
      | Throw msg => Throw msg
      | Ok c =>
          if (c <? 0)%Z then Ok (p :: e :: rest)
          else match sort_insert cmp p rest with
               | Ok rest' => Ok (e :: rest')
               | Throw msg => Throw msg
               end
      end
  end.

Fixpoint sort_from (cmp : json -> json -> result Z) (sorted l : list json)
    : result (list json) :=
  match l with
  | [] => Ok sorted
  | p :: rest =>
      match sort_insert cmp p sorted with
      | Ok sorted' => sort_from cmp sorted' rest
      | Throw msg => Throw msg
      end
  end.

Definition array_sort (cmp : json -> json -> result Z) (l : list json)
    : result (list json) :=
  sort_from cmp [] l.

(** ** dereferenceSpec *)

Record DerefResult : Type := { spec : json; fileName : string }.

(** [if (merged.components) delete merged.components] *)
Definition delete_components (merged : json) : result json :=
  match js_prop merged "components" with
  | Throw e => Throw e
  | Ok c =>
      if truthy_prop c then
        match merged with
        | JObj kvs => Ok (JObj (obj_delete "components" kvs))
        | _ => Ok merged
        end
      else Ok merged
  end.

(** [if (merged.methods && Array.isArray(merged.methods)) merged.methods.sort(...)] *)
Definition sort_methods (merged : json) : result json :=
  match js_prop merged "methods" with
  | Throw e => Throw e
  | Ok (Some (JArr methods)) =>
      match array_sort compare_names methods with
      | Throw e => Throw e
      | Ok sorted =>
          match merged with
          | JObj kvs => Ok (JObj (obj_set "methods" (JArr sorted) kvs))
          | _ => Ok merged
          end
      end
  | Ok _ => Ok merged
  end.

Definition dereferenceSpec (filePath : string) : M DerefResult :=
  let fileName := path_basename_ext E filePath (path_extname E filePath) in
  let body :=
    dereferenced <- lift (RefParser_dereference E filePath) ;;
    merged <- mergeAllOfSchemas (stack_depth E) dereferenced ;;
    merged <- lift (delete_components merged) ;;
    lift (sort_methods merged) in
  match body with
  | (Ok merged, lg) => (Ok {| spec := merged; fileName := fileName |}, lg)
  | (Throw e, lg) => (Throw e, lg ++ [Error_line e])
  end.

(** ** writeSpec *)

Definition warning_key : string := "x-generated-warning".
Definition warning_text : string :=
  "⚠️ This file is auto-generated from alchemy/specs/. Do not edit manually.".

(** [{ 'x-generated-warning': ..., ...spec }] *)
Definition output_object (spec : json) : json :=
  JObj (assign_all (spread spec) [(warning_key, JStr warning_text)]).

Definition output_path (fileName : string) : string :=
  path_join E (OUTPUT_DIR E) (fileName +:+ ".json").

(** The output directory is the map of its files, by path.  The size that
    [statSync] reads back only feeds a console line. *)
Definition writeSpec (fileName : string) (spec : json)
    (disk : gmap string string) : result (gmap string string) :=
  let outputPath := output_path fileName in
  let content := JSON_stringify E (output_object spec) in
  match fs_writeFileSync E outputPath content with
  | Ok _ => Ok (<[outputPath := content]> disk)
  | Throw e => Throw e
  end.

End Generator.

(** ** generateSpecs *)

Inductive completion : Type :=
  | Resolved
  | Rejected (message : string).

(** What a run leaves behind: how the promise of [generateSpecs] settled, the
    value each document's promise settled to ([null] is [None]; listed as the
    documents complete), the [results]
    array, the [writeFileSync] calls that succeeded (with the document whose
    callback made them), the output directory and the console. *)
Record Run : Type := {
  settled : completion;
  promises : list (string * option DerefResult);
  results : list DerefResult;
  writes : list (string * (string * string));
  disk : gmap string string;
  console : list event
}.

Section Driver.

Context (E : Env).

Definition ensure_output_dir : result unit :=
  if fs_existsSync E (OUTPUT_DIR E) then Ok tt
  else fs_mkdirSync E (OUTPUT_DIR E).

(** [fileName.startsWith('_') || specificFile.includes('_components')] *)
Definition is_shared_component (specificFile : string) : bool :=
  startsWith (path_basename E specificFile) "_"
  || includes specificFile "_components".

(** The filter of the full build. *)
Definition is_spec_name (file : string) : bool :=
  (endsWith file ".yaml" || endsWith file ".yml") && negb (startsWith file "_").

Definition full_path (specificFile : string) : string :=
  if path_isAbsolute E specificFile then specificFile
  else path_join E (SPECS_DIR E) (path_basename E specificFile).

(** The full build's [specFiles]; [None] is the early [return]. *)
Definition full_build : M (option (list string)) :=
  match fs_readdirSync E (SPECS_DIR E) with
  | Throw e => throw e
  | Ok names =>
      let specFiles :=
        map (path_join E (SPECS_DIR E)) (List.filter is_spec_name names) in
      if (length specFiles =? 0)%nat then (Ok None, [No_spec_files_found])
      else ret (Some specFiles)
  end.

(** The choice of [specFiles]: a falsy argument ([null], [undefined], the empty
    string) means a full build. *)
Definition select_specFiles (specificFile : option string)
    : M (option (list string)) :=
  match specificFile with
  | None => full_build
  | Some p =>
      if p =? "" then full_build
      else if is_shared_component p then
        match full_build with
        | (r, lg) => (r, Shared_component_changed :: lg)
        end
      else if fs_existsSync E (full_path p) then ret (Some [full_path p])
      else (Ok None, [File_not_found (full_path p)])
  end.

(** The body of the [async (file) => { try ... catch ... }] callback. *)
Definition process_file (st : Run) (file : string) : Run :=
  match dereferenceSpec E file with
  | (Ok result, lg) =>
      match writeSpec E (fileName result) (spec result) (disk st) with
      | Ok disk' =>
          {| settled := settled st;
             promises := promises st ++ [(file, Some result)];
             results := results st ++ [result];
             writes := writes st
                       ++ [(file, (output_path E (fileName result),
                                   JSON_stringify E (output_object (spec result))))];
             disk := disk';
             console := console st ++ lg |}
      | Throw e =>
          {| settled := settled st;
             promises := promises st ++ [(file, None)];
             results := results st ++ [result];
             writes := writes st;
             disk := disk st;
             console := console st ++ lg
                        ++ [Failed_to_process (path_basename E file) e] |}
      end
  | (Throw e, lg) =>
      {| settled := settled st;
         promises := promises st ++ [(file, None)];
         results := results st;
         writes := writes st;
         disk := disk st;
         console := console st ++ lg
                    ++ [Failed_to_process (path_basename E file) e] |}
  end.

Definition process_all (specFiles : list string) (st : Run) : Run :=
  fold_left process_file specFiles st.

Definition generateSpecs (specificFile : option string)
    (disk0 : gmap string string) : Run :=
  let start lg :=
    {| settled := Resolved; promises := []; results := []; writes := [];
       disk := disk0; console := lg |} in
  match ensure_output_dir with
  | Throw e =>
      {| settled := Rejected e; promises := []; results := []; writes := [];
         disk := disk0; console := [] |}
  | Ok _ =>
      match select_specFiles specificFile with
      | (Throw e, lg) =>
          {| settled := Rejected e; promises := []; results := [];
             writes := []; disk := disk0; console := lg |}
      | (Ok None, lg) => start lg
      | (Ok (Some specFiles), lg) =>
          let st := process_all (completion_order E specFiles) (start lg) in
          let successful := length (results st) in
          {| settled := Resolved;
             promises := promises st;
             results := results st;
             writes := writes st;
             disk := disk st;
             console := console st
                        ++ [Generation_complete successful (length specFiles)] |}
      end
  end.

(** The command-line entry: [process.exit(1)] when the promise rejects. *)
Definition exit_code (r : Run) : Z :=
  match settled r with
  | Resolved => 0
  | Rejected _ => 1
  end.

Definition main (argv2 : option string) (disk0 : gmap string string) : Z :=
  exit_code (generateSpecs argv2 disk0).

(** ** One document's pipeline, seen from outside *)

(** The [try] block of the callback: the result pushed to [results] and the
    file written, or the exception the [catch] receives. *)
Definition pipeline (file : string)
    : result (DerefResult * (string * string)) :=
  match fst (dereferenceSpec E file) with
  | Ok r =>
      let outputPath := output_path E (fileName r) in
      let content := JSON_stringify E (output_object (spec r)) in
      match fs_writeFileSync E outputPath content with
      | Ok _ => Ok (r, (outputPath, content))
      | Throw e => Throw e
      end
  | Throw e => Throw e
  end.

(** The artifact a document's pipeline writes, when it succeeds. *)
Definition artifact (file : string) : option (string * string) :=
  match pipeline file with
  | Ok (_, a) => Some a
  | Throw _ => None
  end.

(** The value the document's promise settles to. *)
Definition promise (file : string) : option DerefResult :=
  match pipeline file with
  | Ok (r, _) => Some r
  | Throw _ => None
  end.

(** What the document pushes to [results]. *)
Definition pushed (file : string) : option DerefResult :=
  match fst (dereferenceSpec E file) with
  | Ok r => Some r
  | Throw _ => None
  end.

(** The [Failed to process] line of the callback's [catch]. *)
Definition failure_line (file : string) : list event :=
  match pipeline file with
  | Ok _ => []
  | Throw e => [Failed_to_process (path_basename E file) e]
  end.

Definition is_failure_line (ev : event) : bool :=
  match ev with
  | Failed_to_process _ _ => true
  | _ => false
  end.

Definition apply_write (d : gmap string string)
    (w : string * (string * string)) : gmap string string :=
  <[fst (snd w) := snd (snd w)]> d.

(** Where the artifact of a document goes: the output directory, the input's
    base name without its extension, [.json]. *)
Definition artifact_path (file : string) : string :=
  output_path E (path_basename_ext E file (path_extname E file)).

(** A stretch of console output without a [Failed to process] line. *)
Definition quiet (lg : list event) : Prop :=
  List.filter is_failure_line lg = [].

(** The output a run produced for a document. *)
Definition output_for (r : Run) (file : string) : option (string * string) :=
  snd <$> List.find (fun w => fst w =? file) (writes r).

(** The full build is taken: no argument, or a shared component. *)
Definition full_mode (specificFile : option string) : bool :=
  match specificFile with
  | None => true
  | Some p => (p =? "") || is_shared_component p
  end.

End Driver.

(** ** The reference resolver *)

(** Modelled from the spec: the Reference Resolver of section 4.1, which the
    script obtains from the npm library [@apidevtools/json-schema-ref-parser]
    (called with [circular: false]); the library's source is not part of the
    repository.  The model follows the spec's words: a depth-first traversal, a
    Resolution Context made of the in-progress set and the cache, a
    circular-reference error when a location is already being resolved, a
    resolution-failure error for an unreadable document or an invalid path. *)
Module Resolver.

(** A parsed location expression: the target document and the path in it. *)
Record location : Type := { target : string; pointer : list string }.

#[global] Instance location_eq_dec : EqDecision location.
Proof. solve_decision. Defined.

Inductive resolve_error : Type :=
  | Circular_reference (cycle : list location)
  | Resolution_failure (at_location : location).

Inductive outcome (A : Type) : Type :=
  | Done (a : A)
  | Fail (e : resolve_error)
  | Out_of_fuel.
Arguments Done {A} a.
Arguments Fail {A} e.
Arguments Out_of_fuel {A}.

Fixpoint split_at (c : ascii) (s : string) : option (string * string) :=
  match s with
  | EmptyString => None
  | String a rest =>
      if Ascii.eqb a c then Some (EmptyString, rest)
      else match split_at c rest with
           | Some (x, y) => Some (String a x, y)
           | None => None
           end
  end.

Fixpoint split_on (c : ascii) (s : string) : list string :=
  match s with
  | EmptyString => [EmptyString]
  | String a rest =>
      if Ascii.eqb a c then EmptyString :: split_on c rest
      else match split_on c rest with
           | x :: xs => String a x :: xs
           | [] => [String a EmptyString]
           end
  end.

Definition segments (path : string) : list string :=
  List.filter (fun s => negb (s =? "")) (split_on "/"%char path).

(** [<other-file>#<path>], or a path in this document; an empty or absent
    target means the document that holds the reference. *)
Definition parse_location (cur expr : string) : location :=
  match split_at "#"%char expr with
  | Some (t, p) =>
      {| target := if t =? "" then cur else t; pointer := segments p |}
  | None => {| target := cur; pointer := segments expr |}
  end.

(** A Reference Node: a mapping with the single key [$ref]. *)
Definition as_reference (node : json) : option string :=
  match node with
  | JObj [(k, JStr expr)] => if k =? "$ref" then Some expr else None
  | _ => None
  end.

Fixpoint navigate (t : json) (path : list string) : option json :=
  match path with
  | [] => Some t
  | seg :: rest =>
      match t with
      | JObj kvs =>
          match js_get seg kvs with
          | Some v => navigate v rest
          | None => None
          end
      | JArr l =>
          match array_index seg with
          | Some i =>
              match l !! N.to_nat i with
              | Some v => navigate v rest
              | None => None
              end
          | None => None
          end
      | _ => None
      end
  end.

Definition cache : Type := list (location * json).

Fixpoint cache_lookup (L : location) (c : cache) : option json :=
  match c with
  | [] => None
  | (L', r) :: rest => if decide (L' = L) then Some r else cache_lookup L rest
  end.

(** A map over a list that threads the cache and stops at the first failure. *)
Definition mapS {A B : Type} (f : A -> cache -> outcome (B * cache))
    : list A -> cache -> outcome (list B * cache) :=
  fix go (l : list A) (c : cache) : outcome (list B * cache) :=
    match l with
    | [] => Done ([], c)
    | x :: rest =>
        match f x c with
        | Done (y, c1) =>
            match go rest c1 with
            | Done (ys, c2) => Done (y :: ys, c2)
            | Fail e => Fail e
            | Out_of_fuel => Out_of_fuel
            end
        | Fail e => Fail e
        | Out_of_fuel => Out_of_fuel
        end
    end.

Section Resolve.

(** The content-loading capability: a document's raw tree, or not found. *)
Context (load : string -> option json).

Definition lookup_location (L : location) : option json :=
  match load (target L) with
  | Some doc => navigate doc (pointer L)
  | None => None
  end.

(** Modelled from the spec: the traversal of section 4.1 with its Resolution
    Context, the library's part of [dereference].  [fuel] bounds the number of
    nested reference targets being resolved. *)
Fixpoint resolve_node (fuel : nat) (cur : string) (in_progress : list location)
    : json -> cache -> outcome (json * cache) :=
  fix walk (node : json) (c : cache) {struct node} : outcome (json * cache) :=
    match as_reference node with
    | Some expr =>
        let L := parse_location cur expr in
        if decide (L ∈ in_progress) then
          Fail (Circular_reference (L :: in_progress))
        else
          match cache_lookup L c with
          | Some r => Done (r, c)
          | None =>
              match lookup_location L with
              | None => Fail (Resolution_failure L)
              | Some sub =>
                  match fuel with
                  | O => Out_of_fuel
                  | S k =>
                      match resolve_node k (target L) (L :: in_progress) sub c with
                      | Done (r, c') => Done (r, (L, r) :: c')
                      | Fail e => Fail e
                      | Out_of_fuel => Out_of_fuel
                      end
                  end
              end
          end
    | None =>
        match node with
        | JArr l =>
            match mapS walk l c with
            | Done (l', c') => Done (JArr l', c')
            | Fail e => Fail e
            | Out_of_fuel => Out_of_fuel
            end
        | JObj kvs =>
            match mapS (fun kv c0 =>
                          match walk (snd kv) c0 with
                          | Done (v, c1) => Done ((fst kv, v), c1)
                          | Fail e => Fail e
                          | Out_of_fuel => Out_of_fuel
                          end) kvs c with
            | Done (kvs', c') => Done (JObj kvs', c')
            | Fail e => Fail e
            | Out_of_fuel => Out_of_fuel
            end
        | _ => Done (node, c)
        end
    end.

(** Modelled from the spec: the contract [resolve(document)] of section 4.1,
    the library's [dereference]. *)
Definition resolve (fuel : nat) (doc : string) : outcome json :=
  match load doc with
  | None => Fail (Resolution_failure {| target := doc; pointer := [] |})
  | Some root =>
      match resolve_node fuel doc [] root [] with
      | Done (r, _) => Done r
      | Fail e => Fail e
      | Out_of_fuel => Out_of_fuel
      end
  end.

(** The reference locations written in a tree held by document [cur]. *)
Fixpoint refs_of (cur : string) (node : json) : list location :=
  match as_reference node with
  | Some expr => [parse_location cur expr]
  | None =>
      match node with
      | JArr l => flat_map (refs_of cur) l
      | JObj kvs => flat_map (fun kv => refs_of cur (snd kv)) kvs
      | _ => []
      end
  end.

(** [L] points at a subtree that holds a reference to [L']. *)
Definition refers (L L' : location) : Prop :=
  exists sub, lookup_location L = Some sub /\ L' ∈ refs_of (target L) sub.

(** A circular reference chain: [L] resolves back to itself. *)
Definition circular (L : location) : Prop := tc refers L L.

(** The locations the resolution of a tree can come to. *)
Definition reaches (cur : string) (node : json) (L : location) : Prop :=
  exists L0, L0 ∈ refs_of cur node /\ rtc refers L0 L.

(** No circular chain is met from [L] on. *)
Definition cycle_free (L : location) : Prop :=
  forall L', rtc refers L L' -> ~ circular L'.

Definition tree_cycle_free (cur : string) (node : json) : Prop :=
  forall L, L ∈ refs_of cur node -> cycle_free L.

Definition cache_cycle_free (c : cache) : Prop :=
  forall L r, cache_lookup L c = Some r -> cycle_free L.

End Resolve.

Definition show_location (L : location) : string :=
  target L +:+ "#/" +:+ join_with "/" (pointer L).

Definition error_message (e : resolve_error) : string :=
  match e with
  | Circular_reference cycle =>
      "Circular $ref pointer found at "
      +:+ match cycle with L :: _ => show_location L | [] => "" end
  | Resolution_failure L => "Error resolving $ref pointer " +:+ show_location L
  end.

(** The resolver as the script calls it: a failure is an exception. *)
Definition dereference (load : string -> option json) (fuel : nat)
    (filePath : string) : result json :=
  match resolve load fuel filePath with
  | Done r => Ok r
  | Fail e => Throw (error_message e)
  | Out_of_fuel => Throw RangeError
  end.

End Resolver.

(** ** A concrete host, for evaluating the script *)

Module Fixture.

(** Node's POSIX [path], for plain paths: no [.] or [..] segment, no trailing
    or doubled slash. *)
Definition basename (p : string) : string :=
  List.last (Resolver.split_on "/"%char p) "".

Definition extname (p : string) : string :=
  match Resolver.split_on "."%char (basename p) with
  | [] | [_] => ""
  | [first; ext] => if first =? "" then "" else "." +:+ ext
  | parts => "." +:+ List.last parts ""
  end.

Definition basename_ext (p ext : string) : string :=
  let b := basename p in
  if endsWith b ext && negb (b =? ext)
  then String.substring 0 (String.length b - String.length ext) b
  else b.

Definition isAbsolute (p : string) : bool := startsWith p "/".

Definition join (a b : string) : string := a +:+ "/" +:+ b.

(** [JSON.stringify(v, null, 2)], for strings that need no escaping. *)
Definition quote : string := String (ascii_of_nat 34) EmptyString.
Definition newline : string := String (ascii_of_nat 10) EmptyString.

Fixpoint stringify (indent : string) (v : json) : string :=
  let inner := indent +:+ "  " in
  match v with
  | JNull => "null"
  | JBool true => "true"
  | JBool false => "false"
  | JNum z => string_of_Z z
  | JStr s => quote +:+ s +:+ quote
  | JArr [] => "[]"
  | JArr l =>
      "[" +:+ newline +:+ inner
      +:+ join_with ("," +:+ newline +:+ inner) (map (stringify inner) l)
      +:+ newline +:+ indent +:+ "]"
  | JObj [] => "{}"
  | JObj kvs =>
      "{" +:+ newline +:+ inner
      +:+ join_with ("," +:+ newline +:+ inner)
            (map (fun kv => quote +:+ fst kv +:+ quote +:+ ": "
                            +:+ stringify inner (snd kv)) kvs)
      +:+ newline +:+ indent +:+ "}"
  end.

Definition forallb2 {A} (f : A -> A -> bool) : list A -> list A -> bool :=
  fix go l1 l2 :=
    match l1, l2 with
    | [], [] => true
    | x :: r1, y :: r2 => f x y && go r1 r2
    | _, _ => false
    end.

Fixpoint json_eqb (a b : json) : bool :=
  match a, b with
  | JNull, JNull => true
  | JBool x, JBool y => Bool.eqb x y
  | JNum x, JNum y => (x =? y)%Z
  | JStr x, JStr y => x =? y
  | JArr l1, JArr l2 => forallb2 json_eqb l1 l2
  | JObj o1, JObj o2 =>
      forallb2 (fun p q => (fst p =? fst q) && json_eqb (snd p) (snd q)) o1 o2
  | _, _ => false
  end.

(** Modelled from the spec: the per-key merge rules of section 4.2, which the
    script takes from the npm library [json-schema-merge-allof]; the library's
    source is not part of the repository.  The node's own keys and its
    components are merged from left to right: [required] lists and other
    arrays are united in order of first occurrence; [properties] merge key by
    key, a property with several definitions becoming the composition of
    them; a later scalar overrides an earlier one; a [type] that is
    structured on one side ([object], [array]) and different on the other, or
    any other pair of values the rules do not reconcile, is a
    schema-conflict error. *)
Definition union_values (l1 l2 : list json) : list json :=
  fold_left (fun acc x => if existsb (json_eqb x) acc then acc else acc ++ [x])
            l2 l1.

Definition is_scalar (v : json) : bool :=
  match v with
  | JArr _ | JObj _ => false
  | _ => true
  end.

Definition is_structured_type (t : string) : bool :=
  (t =? "object") || (t =? "array").

Definition merge_properties (p0 p : list (string * json))
    : list (string * json) :=
  fold_left (fun acc kv =>
               match js_get (fst kv) acc with
               | None => obj_set (fst kv) (snd kv) acc
               | Some v0 =>
                   obj_set (fst kv) (JObj [("allOf", JArr [v0; snd kv])]) acc
               end) p p0.

Definition schema_conflict (k : string) : string :=
  "Schema conflict: cannot reconcile the values of " +:+ k.

Definition merge_key (acc : result (list (string * json))) (kv : string * json)
    : result (list (string * json)) :=
  match acc with
  | Throw e => Throw e
  | Ok o =>
      let k := fst kv in
      match js_get k o, snd kv with
      | None, v => Ok (obj_set k v o)
      | Some (JArr l1), JArr l2 => Ok (obj_set k (JArr (union_values l1 l2)) o)
      | Some (JObj p0), JObj p1 =>
          if k =? "properties" then Ok (obj_set k (JObj (merge_properties p0 p1)) o)
          else if json_eqb (JObj p0) (JObj p1) then Ok o
          else Throw (schema_conflict k)
      | Some (JStr t0), JStr t1 =>
          if (k =? "type") && negb (t0 =? t1)
             && (is_structured_type t0 || is_structured_type t1)
          then Throw (schema_conflict k)
          else Ok (obj_set k (JStr t1) o)
      | Some v0, v =>
          if is_scalar v0 && is_scalar v then Ok (obj_set k v o)
          else Throw (schema_conflict k)
      end
  end.

Definition merge_component (acc : result (list (string * json))) (c : json)
    : result (list (string * json)) :=
  match c with
  | JObj kvs => fold_left merge_key kvs acc
  | _ => Throw "Schema conflict: a component is not an object"
  end.

Definition merge_allOf (obj : json) : result json :=
  match obj with
  | JObj kvs =>
      match js_get "allOf" kvs with
      | Some (JArr components) =>
          match fold_left merge_component components
                  (Ok (obj_delete "allOf" kvs)) with
          | Ok o => Ok (JObj o)
          | Throw e => Throw e
          end
      | _ => Throw "Schema conflict: allOf is not a list"
      end
  | _ => Ok obj
  end.

(** A model of [localeCompare] under the root collation, for ASCII strings:
    letters are compared without regard to case first; between strings that
    differ in case only the first difference decides, lower case first. *)
Definition is_upper (c : ascii) : bool :=
  let n := nat_of_ascii c in (65 <=? n)%nat && (n <=? 90)%nat.

Definition primary (c : ascii) : nat :=
  let n := nat_of_ascii c in S (if is_upper c then n + 32 else n).

Definition tertiary (c : ascii) : nat := if is_upper c then 1 else 0.

Definition collation_key (s : string) : list nat :=
  let cs := String.list_ascii_of_string s in
  map primary cs ++ [0] ++ map tertiary cs.

Fixpoint compare_keys (k1 k2 : list nat) : comparison :=
  match k1, k2 with
  | [], [] => Eq
  | [], _ :: _ => Lt
  | _ :: _, [] => Gt
  | x :: r1, y :: r2 =>
      match Nat.compare x y with
      | Eq => compare_keys r1 r2
      | c => c
      end
  end.

Definition locale_compare (a b : string) : Z :=
  match compare_keys (collation_key a) (collation_key b) with
  | Lt => (-1)%Z
  | Eq => 0%Z
  | Gt => 1%Z
  end.

(** The ordinary lexicographic order of strings, by character code. *)
Definition lexicographic (a b : string) : Z :=
  match String.compare a b with
  | Lt => (-1)%Z
  | Eq => 0%Z
  | Gt => 1%Z
  end.

(** A host over a fixed set of input files: [files] maps a path to the parsed
    document, [names] lists the specs directory, [unwritable] are the output
    paths at which [writeFileSync] fails. *)
Definition load (files : list (string * json)) (p : string) : option json :=
  snd <$> List.find (fun kv => fst kv =? p) files.

Definition host (files : list (string * json)) (names : list string)
    (unwritable : list string) : Env :=
  {| SPECS_DIR := "specs";
     OUTPUT_DIR := "generated";
     path_basename := basename;
     path_basename_ext := basename_ext;
     path_extname := extname;
     path_isAbsolute := isAbsolute;
     path_join := join;
     fs_existsSync := fun p =>
       (p =? "generated") || existsb (fun kv => fst kv =? p) files;
     fs_mkdirSync := fun _ => Ok tt;
     fs_readdirSync := fun d =>
       if d =? "specs" then Ok names else Throw "ENOENT: no such file or directory";
     fs_writeFileSync := fun p _ =>
       if existsb (String.eqb p) unwritable
       then Throw "EISDIR: illegal operation on a directory"
       else Ok tt;
     RefParser_dereference := Resolver.dereference (load files) 64;
     mergeAllOf := merge_allOf;
     localeCompare := locale_compare;
     JSON_stringify := stringify "";
     stack_depth := 1000;
     completion_order := fun l => l;
     completion_order_perm := fun l => Permutation_refl l |}.

End Fixture.

(** ** Documents used to evaluate the script *)

Module Docs.
Import Fixture.

(** A document that resolves and merges. *)
Definition petstore : json :=
  JObj [("openrpc", JStr "1.2.4");
        ("methods",
         JArr [JObj [("name", JStr "zeta"); ("result", JObj [("$ref", JStr "#/components/schemas/Id")])];
               JObj [("name", JStr "alpha"); ("summary", JStr "first")];
               JObj [("name", JStr "alpha"); ("summary", JStr "second")]]);
        ("components",
         JObj [("schemas", JObj [("Id", JObj [("type", JStr "string")])])])].

(** A composition that merges: an object that requires [id]. *)
Definition mergeable : json :=
  JObj [("methods",
         JArr [JObj [("name", JStr "get");
                     ("result",
                      JObj [("allOf",
                             JArr [JObj [("type", JStr "object")];
                                   JObj [("required", JArr [JStr "id"])]])])]])].

(** A composition of two incompatible types. *)
Definition conflicting : json :=
  JObj [("methods",
         JArr [JObj [("name", JStr "get");
                     ("result",
                      JObj [("allOf",
                             JArr [JObj [("type", JStr "string")];
                                   JObj [("type", JStr "object")]])])]])].

(** A document that already has the marker key. *)
Definition marked : json :=
  JObj [("x-generated-warning", JStr "mine"); ("methods", JArr [])].

(** Method names that differ in case. *)
Definition mixed_case : json :=
  JObj [("methods", JArr [JObj [("name", JStr "Zeta")];
                          JObj [("name", JStr "alpha")]])].

(** A reference to a path that does not exist. *)
Definition dangling : json :=
  JObj [("methods",
         JArr [JObj [("name", JStr "get");
                     ("result", JObj [("$ref", JStr "#/components/missing")])]])].

(** [a] references [b] and [b] references [a]. *)
Definition cyclic : json :=
  JObj [("a", JObj [("$ref", JStr "#/b")]);
        ("b", JObj [("$ref", JStr "#/a")])].

(** Three documents, the second with the dangling reference. *)
Definition batch : Env :=
  host [("specs/one.yaml", petstore); ("specs/two.yaml", dangling);
        ("specs/three.yaml", mergeable)]
       ["one.yaml"; "two.yaml"; "_shared.yaml"; "three.yaml"; "notes.md"] [].

(** The same, with the third artifact's path taken by a directory. *)
Definition batch_unwritable : Env :=
  host [("specs/one.yaml", petstore); ("specs/two.yaml", dangling);
        ("specs/three.yaml", mergeable)]
       ["one.yaml"; "two.yaml"; "_shared.yaml"; "three.yaml"; "notes.md"]
       ["generated/three.json"].

Definition single (name : string) (doc : json) : Env :=
  host [("specs/" +:+ name, doc)] [name] [].

(** A specs directory with no eligible file. *)
Definition no_specs : Env := host [] ["_shared.yaml"; "README.md"] [].


(** A composition key with no value: [allOf:] in YAML is [null]. *)
Definition null_composition : json :=
  JObj [("methods", JArr []);
        ("x-schema", JObj [("allOf", JNull); ("type", JStr "string")])].

Definition conflicting_host : Env := single "c.yaml" conflicting.
Definition null_host : Env := single "n.yaml" null_composition.
Definition mergeable_host : Env := single "m.yaml" mergeable.
Definition marked_host : Env := single "k.yaml" marked.
Definition mixed_case_host : Env := single "x.yaml" mixed_case.
Definition cyclic_host : Env := single "cyc.yaml" cyclic.

(** The locations that resolve in the store of [cyclic_host]. *)
Definition cyclic_locations : list Resolver.location :=
  map (fun p => {| Resolver.target := "specs/cyc.yaml"; Resolver.pointer := p |})
      [[]; ["a"]; ["b"]; ["a"; "$ref"]; ["b"; "$ref"]].

End Docs.

(** ** Shapes of documents *)

(** The number of nested calls a walk of the tree makes. *)
Fixpoint height (v : json) : nat :=
  match v with
  | JArr l => S (foldr Nat.max 0 (map height l))
  | JObj kvs => S (foldr Nat.max 0 (map (fun kv => height (snd kv)) kvs))
  | _ => 1
  end.

(** Keys that an object enumerates in the order of their creation: distinct
    and none of them an array index. *)
Definition ordinary_keys (kvs : list (string * json)) : Prop :=
  NoDup (map fst kvs)
  /\ Forall (fun kv => array_index (fst kv) = None) kvs.

(** A tree with ordinary keys in every object and no composition anywhere. *)
Fixpoint plain (v : json) : Prop :=
  match v with
  | JArr l => foldr (fun x P => plain x /\ P) True l
  | JObj kvs =>
      truthy_prop (js_get "allOf" kvs) = false
      /\ ordinary_keys kvs
      /\ foldr (fun kv P => plain (snd kv) /\ P) True kvs
  | _ => True
  end.

(** ** The upload scripts (scripts/upload-to-redis.mjs, scripts/upload-to-blob.mjs)

    The two scripts differ in the store they write to and in the shape of
    the key; [backend] tells them apart.  A string is the sequence of its
    UTF-8 bytes.  The lines the scripts print are left out; the counters
    and the error list they print are kept. *)
Module Upload.

(** *** The skip patterns *)

(** [.] matches any character but a line terminator: LF, CR, U+2028 and
    U+2029, the last two being three bytes each. *)
Definition LF : string := String (ascii_of_nat 10) EmptyString.
Definition CR : string := String (ascii_of_nat 13) EmptyString.
Definition LS : string :=
  String (ascii_of_nat 226) (String (ascii_of_nat 128)
    (String (ascii_of_nat 168) EmptyString)).
Definition PS : string :=
  String (ascii_of_nat 226) (String (ascii_of_nat 128)
    (String (ascii_of_nat 169) EmptyString)).

Definition at_line_terminator (s : string) : bool :=
  String.prefix LF s || String.prefix CR s
  || String.prefix LS s || String.prefix PS s.

(** [.*] followed by the literal [lit], matched at the start of [s]. *)
Fixpoint dot_star_then (lit s : string) : bool :=
  String.prefix lit s
  || (negb (at_line_terminator s)
      && match s with
         | EmptyString => false
         | String _ rest => dot_star_then lit rest
         end).

(** What follows the literal [lit] at the start of [s]. *)
Fixpoint strip_prefix (lit s : string) : option string :=
  match lit with
  | EmptyString => Some s
  | String c lit' =>
      match s with
      | EmptyString => None
      | String c' s' => if Ascii.eqb c c' then strip_prefix lit' s' else None
      end
  end.

(** [/package.*\.json/] *)
Fixpoint package_json (s : string) : bool :=
  match strip_prefix "package" s with
  | Some rest => dot_star_then ".json" rest
  | None => false
  end
  || match s with
     | EmptyString => false
     | String _ rest => package_json rest
     end.

Definition SKIP_PATTERNS : list (string -> bool) :=
  [ (fun s => includes s "node_modules");
    (fun s => includes s ".git");
    (fun s => includes s ".DS_Store");
    (fun s => s =? ".env");
    (fun s => includes s "scripts");
    package_json;
    (fun s => includes s ".gitignore") ].

Definition shouldSkip (filePath : string) : bool :=
  existsb (fun pattern => pattern filePath) SKIP_PATTERNS.

(** *** The content directory *)

(** What [readdirSync(dir, { withFileTypes: true })] finds: an entry for
    which [isDirectory()] is false, a directory with its own entries, or a
    directory that cannot be listed. *)
Inductive entry : Type :=
  | File (name : string)
  | Directory (name : string) (entries : list entry)
  | Unreadable (name : string) (message : string).

Definition entry_name (e : entry) : string :=
  match e with
  | File n | Directory n _ | Unreadable n _ => n
  end.

(** The [for] loop over the entries of one directory: the first exception
    leaves it. *)
Fixpoint collect (visit : entry -> result (list string)) (entries : list entry)
    : result (list string) :=
  match entries with
  | [] => Ok []
  | e :: rest =>
      match visit e with
      | Throw msg => Throw msg
      | Ok found =>
          match collect visit rest with
          | Throw msg => Throw msg
          | Ok files => Ok (found ++ files)
          end
      end
  end.

Section Walk.

Context (path_join : string -> string -> string)
        (path_relative : string -> string -> string).

(** The body of the loop of [getAllFiles(dir, baseDir)] for one entry. *)
Fixpoint visit (dir baseDir : string) (e : entry) : result (list string) :=
  let fullPath := path_join dir (entry_name e) in
  let relativePath := path_relative baseDir fullPath in
  if shouldSkip relativePath then Ok []
  else
    match e with
    | File _ => Ok [relativePath]
    | Directory _ entries => collect (visit fullPath baseDir) entries
    | Unreadable _ message => Throw message
    end.

(** [getAllFiles(dir, baseDir)], [entries] being what [readdirSync(dir)]
    returns. *)
Definition getAllFiles (dir baseDir : string) (entries : list entry)
    : result (list string) :=
  collect (visit dir baseDir) entries.

(** A relative path one level down. *)
Definition child_path (parent name : string) : string :=
  if parent =? "" then name else parent +:+ "/" +:+ name.

(** The files below an entry, by their path relative to the base. *)
Fixpoint all_files (parent : string) (e : entry) : list string :=
  match e with
  | File n => [child_path parent n]
  | Directory n entries => flat_map (all_files (child_path parent n)) entries
  | Unreadable _ _ => []
  end.

(** A tree in which [path.relative(baseDir, path.join(dir, name))] is the
    relative path of [dir] extended by [name], every directory can be
    listed, and no directory has the relative path [.env]. *)
Fixpoint regular (dir baseDir : string) (e : entry) : Prop :=
  path_relative baseDir (path_join dir (entry_name e))
  = child_path (path_relative baseDir dir) (entry_name e)
  /\ match e with
     | File _ => True
     | Directory n entries =>
         child_path (path_relative baseDir dir) n <> ".env"
         /\ foldr (fun e' P => regular (path_join dir n) baseDir e' /\ P)
              True entries
     | Unreadable _ _ => False
     end.

(** [f] is listed below the entry [e] of the directory [dir]: it is the
    relative path of [e], which is not a directory, or it is listed below
    an entry of [e], which is one; no relative path on the way, that of
    [f] included, matches a skip pattern. *)
Inductive listed (baseDir : string) : string -> entry -> string -> Prop :=
  | listed_file (dir n : string) :
      shouldSkip (path_relative baseDir (path_join dir n)) = false ->
      listed baseDir dir (File n) (path_relative baseDir (path_join dir n))
  | listed_below (dir n : string) (entries : list entry) (e : entry)
        (f : string) :
      shouldSkip (path_relative baseDir (path_join dir n)) = false ->
      In e entries ->
      listed baseDir (path_join dir n) e f ->
      listed baseDir dir (Directory n entries) f.

End Walk.

(** *** Uploading *)

Inductive backend : Type := Redis | Blob.

(** [content:${branch}:${file}] and [content/${branch}/${file}] *)
Definition store_key (b : backend) (branch file : string) : string :=
  match b with
  | Redis => "content:" +:+ branch +:+ ":" +:+ file
  | Blob => "content/" +:+ branch +:+ "/" +:+ file
  end.

(** An environment variable is used when it is set and not empty. *)
Definition is_set (v : option string) : bool :=
  match v with
  | Some s => negb (s =? "")
  | None => false
  end.

Record Host : Type := {
  getenv : string -> option string;
  argv2 : option string;
  CONTENT_DIR : string;
  path_join : string -> string -> string;
  path_relative : string -> string -> string;
  (** [readdirSync(CONTENT_DIR)] *)
  content : result (list entry);
  fs_readFileSync : string -> result string;
  (** [await redis.set(key, content)], [await put(blobPath, content, ...)] *)
  store_put : string -> string -> result unit
}.

Section Script.

Context (H : Host) (b : backend).

(** [process.argv[2] || "main"] *)
Definition branch : string :=
  match argv2 H with
  | Some a => if a =? "" then "main" else a
  | None => "main"
  end.

Definition credentials : bool :=
  match b with
  | Redis => is_set (getenv H "KV_REST_API_URL")
             && is_set (getenv H "KV_REST_API_TOKEN")
  | Blob => is_set (getenv H "BLOB_READ_WRITE_TOKEN")
  end.

(** The object that [uploadFile] resolves to, with the content it stored. *)
Inductive upload_result : Type :=
  | Success (content : string)
  | Failure (error : string).

(** The file is read outside the [try]. *)
Definition uploadFile (localPath key : string) : result upload_result :=
  match fs_readFileSync H localPath with
  | Throw e => Throw e
  | Ok content =>
      match store_put H key content with
      | Ok _ => Ok (Success content)
      | Throw e => Ok (Failure e)
      end
  end.

(** The loop of [main]: the counters, the error list, and the store's
    acknowledged writes. *)
Record Progress : Type := {
  uploaded : nat;
  failed : nat;
  errors : list (string * string);
  stored : list (string * string)
}.

Definition upload_step (st : Progress) (file : string) : result Progress :=
  let localPath := path_join H (CONTENT_DIR H) file in
  let key := store_key b branch file in
  match uploadFile localPath key with
  | Throw e => Throw e
  | Ok (Success content) =>
      Ok {| uploaded := S (uploaded st); failed := failed st;
            errors := errors st; stored := stored st ++ [(key, content)] |}
  | Ok (Failure e) =>
      Ok {| uploaded := uploaded st; failed := S (failed st);
            errors := errors st ++ [(file, e)]; stored := stored st |}
  end.

(** The loop stops at the first exception; what was stored stays stored. *)
Fixpoint upload_all (files : list string) (st : Progress)
    : Progress * option string :=
  match files with
  | [] => (st, None)
  | file :: rest =>
      match upload_step st file with
      | Throw e => (st, Some e)
      | Ok st' => upload_all rest st'
      end
  end.

(** The request of [triggerRevalidation(branch)]: its address, the bearer
    secret and the branch of its body; none when the site is not
    configured.  Whatever comes back is only printed. *)
Definition triggerRevalidation : list (string * string * string) :=
  match getenv H "DOCS_SITE_URL", getenv H "REVALIDATE_SECRET" with
  | Some docsUrl, Some secret =>
      if negb (docsUrl =? "") && negb (secret =? "")
      then [(docsUrl +:+ "/api/revalidate", secret, branch)]
      else []
  | _, _ => []
  end.

(** What a run of the script leaves behind. *)
Record Outcome : Type := {
  exit_status : Z;
  progress : Progress;
  requests : list (string * string * string)
}.

Definition nothing : Progress :=
  {| uploaded := 0; failed := 0; errors := []; stored := [] |}.

(** [main()], with the [catch] of its call: an exception, a missing
    credential or a failed upload end the process with status 1. *)
Definition main : Outcome :=
  if negb credentials then
    {| exit_status := 1; progress := nothing; requests := [] |}
  else
    match content H with
    | Throw _ => {| exit_status := 1; progress := nothing; requests := [] |}
    | Ok entries =>
        match getAllFiles (path_join H) (path_relative H)
                (CONTENT_DIR H) (CONTENT_DIR H) entries with
        | Throw _ =>
            {| exit_status := 1; progress := nothing; requests := [] |}
        | Ok files =>
            match upload_all files nothing with
            | (st, Some _) =>
                {| exit_status := 1; progress := st; requests := [] |}
            | (st, None) =>
                if (0 <? length (errors st))%nat then
                  {| exit_status := 1; progress := st; requests := [] |}
                else
                  {| exit_status := 0; progress := st;
                     requests := triggerRevalidation |}
            end
        end
    end.

End Script.

End Upload.

(** ** The watcher (scripts/watch.js)

    The watcher reacts to three chokidar events, [add], [change] and
    [unlink], in the same way; the callback of its timer regenerates the
    changed specification with [generateSpecs], uploads the changed file and
    asks the site to revalidate.  Time is abstracted to the order of the
    events and of the expiries of the timer; a callback has completed when
    the next one starts. *)
Module Watch.

Inductive response : Type :=
  | Response_ok (message : string)
  | Response_not_ok (error : string)
  | Unreachable (message : string).

Record Watcher : Type := {
  generator : Env;
  getenv : string -> option string;
  (** [execSync("git rev-parse --abbrev-ref HEAD").trim()] *)
  git_branch : result string;
  (** [path.join(process.cwd(), filePath)] *)
  in_cwd : string -> string;
  existsSync : string -> bool;
  readFileSync : string -> result string;
  redis_set : string -> string -> result unit;
  (** [fetch(url, { method: "POST", ... })] and the reading of its body,
      from the address, the bearer secret, [filePath] and [branch] *)
  fetch : string -> string -> string -> string -> response
}.

Inductive watch_event : Type :=
  | Changed (changedPath : string)
  | Spec_file_changed
  | Spec_generation_failed (message : string)
  | Redis_not_initialized
  | File_deleted (filePath : string)
  | Uploading (key : string) (bytes : nat)
  | Redis_updated (key : string)
  | Redis_upload_failed (message : string)
  | Triggering_revalidation
  | Revalidated (message : string)
  | Revalidation_failed (error : string)
  | Dev_server_unreachable (message : string).

(** What one run of the timer's callback does: the run of the generator, if
    any, the writes that Redis acknowledged, the requests sent to the site
    (address, secret, [filePath], [branch]), the console, and the output
    directory of the generator afterwards. *)
Record Tick : Type := {
  generated : option Run;
  redis_writes : list (string * string);
  posts : list (string * string * string * string);
  log : list watch_event;
  output_dir : gmap string string
}.

Section Callback.

Context (W : Watcher).

Definition or_default (v : option string) (d : string) : string :=
  match v with
  | Some s => if s =? "" then d else s
  | None => d
  end.

Definition NEXT_APP_URL : string :=
  or_default (getenv W "DOCS_SITE_URL") "http://localhost:3000".

Definition REVALIDATE_SECRET : string :=
  or_default (getenv W "REVALIDATE_SECRET") "dev-secret".

Definition UPLOAD_TO_REDIS : bool :=
  match getenv W "KV_REST_API_URL" with
  | Some s => negb (s =? "")
  | None => false
  end.

Definition CURRENT_BRANCH : string :=
  match git_branch W with
  | Ok b => b
  | Throw _ => "main"
  end.

(** The client is created when [KV_REST_API_URL] is set, and the watcher
    starts only once the import has resolved. *)
Definition redis : bool := UPLOAD_TO_REDIS.

Definition uploadToRedis (filePath : string)
    : list (string * string) * list watch_event :=
  if negb UPLOAD_TO_REDIS then ([], [])
  else if negb redis then ([], [Redis_not_initialized])
  else
    let fullPath := in_cwd W filePath in
    if negb (existsSync W fullPath) then ([], [File_deleted filePath])
    else
      match readFileSync W fullPath with
      | Throw e => ([], [Redis_upload_failed e])
      | Ok content =>
          let key := "content:" +:+ CURRENT_BRANCH +:+ ":" +:+ filePath in
          match redis_set W key content with
          | Ok _ =>
              ([(key, content)],
               [Uploading key (String.length content); Redis_updated key])
          | Throw e =>
              ([], [Uploading key (String.length content);
                    Redis_upload_failed e])
          end
      end.

Definition isSpecFile (changedPath : string) : bool :=
  includes changedPath "alchemy/specs/"
  && (endsWith changedPath ".yaml" || endsWith changedPath ".yml").

(** The part of the callback after the generator. *)
Definition upload_and_revalidate (changedPath : string)
    (r : option Run) (lg : list watch_event) (d : gmap string string) : Tick :=
  let (writes, lg') := uploadToRedis changedPath in
  let url := NEXT_APP_URL +:+ "/api/revalidate" in
  {| generated := r;
     redis_writes := writes;
     posts := [(url, REVALIDATE_SECRET, changedPath, CURRENT_BRANCH)];
     log := lg ++ lg' ++ [Triggering_revalidation]
            ++ [match fetch W url REVALIDATE_SECRET changedPath CURRENT_BRANCH with
                | Response_ok m => Revalidated m
                | Response_not_ok e => Revalidation_failed e
                | Unreachable m => Dev_server_unreachable m
                end];
     output_dir := d |}.

(** The callback that [setTimeout] runs for [changedPath]. *)
Definition on_timeout (changedPath : string) (disk0 : gmap string string)
    : Tick :=
  if isSpecFile changedPath then
    let r := generateSpecs (generator W) (Some changedPath) disk0 in
    match settled r with
    | Rejected e =>
        {| generated := Some r;
           redis_writes := [];
           posts := [];
           log := [Changed changedPath; Spec_file_changed;
                   Spec_generation_failed e];
           output_dir := disk r |}
    | Resolved =>
        upload_and_revalidate changedPath (Some r)
          [Changed changedPath; Spec_file_changed] (disk r)
    end
  else
    upload_and_revalidate changedPath None [Changed changedPath] disk0.

End Callback.

(** *** The debounce *)

(** A watcher event for a path, or the expiry of the timer: [DEBOUNCE_MS]
    have passed since it was last set. *)
Inductive signal : Type :=
  | Event (path : string)
  | Expiry.

(** [triggerRevalidation(changedPath)]: [clearTimeout] drops the pending
    callback, [setTimeout] installs the one for [changedPath].  The state is
    the path of the pending callback. *)
Definition triggerRevalidation (revalidateTimeout : option string)
    (changedPath : string) : option string :=
  Some changedPath.

(** The paths whose callback runs, in order. *)
Fixpoint fired (signals : list signal) (revalidateTimeout : option string)
    : list string :=
  match signals with
  | [] => []
  | Event p :: rest => fired rest (triggerRevalidation revalidateTimeout p)
  | Expiry :: rest =>
      match revalidateTimeout with
      | Some p => p :: fired rest None
      | None => fired rest None
      end
  end.

(** The callbacks of a session, each starting from the output directory the
    previous one left. *)
Fixpoint callbacks (W : Watcher) (paths : list string)
    (d : gmap string string) : list Tick :=
  match paths with
  | [] => []
  | p :: rest =>
      let t := on_timeout W p d in
      t :: callbacks W rest (output_dir t)
  end.

Definition session (W : Watcher) (signals : list signal)
    (disk0 : gmap string string) : list Tick :=
  callbacks W (fired signals None) disk0.

End Watch.

(** ** The navigation of the test content (scripts/generate-test-content.js) *)
Module TestContent.

(** An element of [pages], as [generateContent] builds it. *)
Record page : Type := { section : string; title : string; path : string }.

Definition page_value (p : page) : json :=
  JObj [("section", JStr (section p)); ("title", JStr (title p));
        ("path", JStr (path p))].

(** The names that every object inherits from [Object.prototype]: read on
    [{}], each of them gives a function, and [__proto__] the prototype. *)
Definition Object_prototype : list string :=
  ["constructor"; "__defineGetter__"; "__defineSetter__"; "hasOwnProperty";
   "__lookupGetter__"; "__lookupSetter__"; "isPrototypeOf";
   "propertyIsEnumerable"; "toString"; "valueOf"; "__proto__";
   "toLocaleString"].

Definition not_a_function : string :=
  "pagesBySection[page.section].push is not a function".

(** The callback of [pages.forEach]. *)
Definition group_page (pagesBySection : list (string * json)) (p : page)
    : result (list (string * json)) :=
  (* if (!pagesBySection[page.section]) pagesBySection[page.section] = [] *)
  let initialised :=
    match js_get (section p) pagesBySection with
    | Some v =>
        if truthy v then pagesBySection
        else obj_set (section p) (JArr []) pagesBySection
    | None =>
        if bool_decide (section p ∈ Object_prototype) then pagesBySection
        else obj_set (section p) (JArr []) pagesBySection
    end in
  (* pagesBySection[page.section].push(page) *)
  match js_get (section p) initialised with
  | Some (JArr sectionPages) =>
      Ok (obj_set (section p) (JArr (sectionPages ++ [page_value p]))
            initialised)
  | _ => Throw not_a_function
  end.

Fixpoint group_pages (pages : list page)
    (pagesBySection : list (string * json)) : result (list (string * json)) :=
  match pages with
  | [] => Ok pagesBySection
  | p :: rest =>
      match group_page pagesBySection p with
      | Ok pagesBySection' => group_pages rest pagesBySection'
      | Throw e => Throw e
      end
  end.

Section Navigation.

(** [String.prototype.toUpperCase] *)
Context (toUpperCase : string -> string).

(** [word.charAt(0).toUpperCase() + word.slice(1)], on a word whose first
    character is one byte long. *)
Definition capitalize (word : string) : string :=
  toUpperCase (String.substring 0 1 word)
  +:+ String.substring 1 (String.length word - 1) word.

Definition sectionTitle (section : string) : string :=
  join_with " " (map capitalize (Resolver.split_on "-"%char section)).

(** A property of a page of the array; the pages have all three. *)
Definition field (k : string) (v : json) : json :=
  match v with
  | JObj kvs => default JNull (js_get k kvs)
  | _ => JNull
  end.

(** [page => ({ page: page.title, path: page.path })] *)
Definition link (v : json) : json :=
  JObj [("page", field "title" v); ("path", field "path" v)].

Definition navigation_entry (kv : string * json) : json :=
  JObj [("section", JStr (sectionTitle (fst kv)));
        ("contents",
         JArr (match snd kv with
               | JArr sectionPages => map link sectionPages
               | _ => []
               end))].

Definition generateDocsYml (pages : list page) : result json :=
  match group_pages pages [] with
  | Throw e => Throw e
  | Ok pagesBySection =>
      Ok (JObj [("title", JStr "Test Documentation");
                ("navigation", JArr (map navigation_entry pagesBySection))])
  end.

(** The entry of the navigation for a section and its pages. *)
Definition section_entry (name : string) (pages : list page) : json :=
  JObj [("section", JStr (sectionTitle name));
        ("contents",
         JArr (map (fun p => JObj [("page", JStr (title p));
                                   ("path", JStr (path p))]) pages))].

End Navigation.

(** The pages of a section, in their order. *)
Definition pages_of (name : string) (pages : list page) : list page :=
  List.filter (fun p => section p =? name) pages.

(** The distinct elements of a list, in the order of their first
    occurrence. *)
Definition first_seen (l : list string) : list string :=
  fold_left (fun acc k => if bool_decide (k ∈ acc) then acc else acc ++ [k])
    l [].

(** The grouping object after the pages [done]: one own property for each
    section met, holding the pages of the section in their order. *)
Definition grouped (o : list (string * json)) (done : list page) : Prop :=
  NoDup (map fst o)
  /\ (forall k, k ∈ map fst o <-> exists p, p ∈ done /\ section p = k)
  /\ (forall k v, (k, v) ∈ o -> v = JArr (map page_value (pages_of k done))).

End TestContent.

(** ** A content directory used to evaluate the upload scripts *)

Module UploadDocs.
Import Upload.

(** [path.relative(base, p)] for a path at or below [base]. *)
Definition relative (base p : string) : string :=
  if p =? base then ""
  else String.substring (S (String.length base))
         (String.length p - S (String.length base)) p.

Definition tree : list entry :=
  [ File "docs.yml";
    File ".env";
    File ".env.example";
    File "package.json";
    Directory ".git" [File "HEAD"];
    Directory "node_modules" [Directory "yaml" [File "index.js"]];
    Directory "scripts" [File "watch.js"];
    Directory "alchemy"
      [ Directory "specs" [File "eth.yaml"];
        Directory "generated" [File "eth.json"] ];
    Directory "guides" [File "manuscripts.mdx"; File "intro.mdx"] ].

(** A host with both stores configured: [unreadable] are the local paths
    that cannot be read, [rejected] the keys that the store refuses. *)
Definition site (unreadable rejected : list string) : Host :=
  {| getenv := fun name =>
       if existsb (String.eqb name)
            ["KV_REST_API_URL"; "KV_REST_API_TOKEN"; "BLOB_READ_WRITE_TOKEN";
             "DOCS_SITE_URL"; "REVALIDATE_SECRET"]
       then Some "configured" else None;
     argv2 := Some "preview";
     CONTENT_DIR := "/repo";
     path_join := Fixture.join;
     path_relative := relative;
     content := Ok tree;
     fs_readFileSync := fun p =>
       if existsb (String.eqb p) unreadable
       then Throw "EACCES: permission denied"
       else Ok ("content of " +:+ p);
     store_put := fun key _ =>
       if existsb (String.eqb key) rejected
       then Throw "fetch failed"
       else Ok tt |}.

End UploadDocs.

(** ** A watcher used to evaluate the callback *)

Module WatchDocs.
Import Watch.

(** A watcher over the batch of [Docs], with Redis enabled and a site that
    answers. *)
Definition watcher : Watcher :=
  {| generator := Docs.batch;
     getenv := fun name =>
       if name =? "KV_REST_API_URL" then Some "https://kv.example" else None;
     git_branch := Ok "preview";
     in_cwd := fun p => Fixture.join "/repo" p;
     existsSync := fun p => p =? "/repo/alchemy/specs/one.yaml";
     readFileSync := fun p => Ok ("content of " +:+ p);
     redis_set := fun _ _ => Ok tt;
     fetch := fun _ _ _ _ => Response_ok "revalidated" |}.

End WatchDocs.

(** ** The same host on another run *)

(** Everything as in [E] but the order in which the documents come to
    complete, which depends on the timing of the reads and varies from one
    run to the next. *)
Definition reordered (E : Env) (order : list string -> list string)
    (order_perm : forall l, Permutation (order l) l) : Env :=
  {| SPECS_DIR := SPECS_DIR E;
     OUTPUT_DIR := OUTPUT_DIR E;
     path_basename := path_basename E;
     path_basename_ext := path_basename_ext E;
     path_extname := path_extname E;
     path_isAbsolute := path_isAbsolute E;
     path_join := path_join E;
     fs_existsSync := fs_existsSync E;
     fs_mkdirSync := fs_mkdirSync E;
     fs_readdirSync := fs_readdirSync E;
     fs_writeFileSync := fs_writeFileSync E;
     RefParser_dereference := RefParser_dereference E;
     mergeAllOf := mergeAllOf E;
     localeCompare := localeCompare E;
     JSON_stringify := JSON_stringify E;
     stack_depth := stack_depth E;
     completion_order := order;
     completion_order_perm := order_perm |}.

(** ** More documents *)

Module MoreDocs.
Import Fixture Docs.

(** A dangling reference, then a cycle: [b] references [c] and [c]
    references [b]. *)
Definition cyclic_dangling : json :=
  JObj [("a", JObj [("$ref", JStr "#/missing")]);
        ("b", JObj [("$ref", JStr "#/c")]);
        ("c", JObj [("$ref", JStr "#/b")])].

Definition cyclic_dangling_host : Env := single "cd.yaml" cyclic_dangling.

(** A [components] with no value: [components:] in YAML is [null]. *)
Definition null_components : json :=
  JObj [("openrpc", JStr "1.2.4"); ("components", JNull);
        ("methods", JArr [])].

Definition null_components_host : Env := single "nc.yaml" null_components.

End MoreDocs.

(* ================================================================== *)
(** * Properties *)

(** Structural induction that reaches the elements of arrays and the values of
    objects. *)
Lemma json_ind' (P : json -> Prop)
    (HNull : P JNull)
    (HBool : forall b, P (JBool b))
    (HNum : forall z, P (JNum z))
    (HStr : forall s, P (JStr s))
    (HArr : forall l, Forall P l -> P (JArr l))
    (HObj : forall kvs, Forall (fun kv => P (snd kv)) kvs -> P (JObj kvs)) :
  forall j, P j.
Proof.
  fix IH 1. intros [ | b | z | s | l | kvs ].
  - exact HNull.
  - apply HBool.
  - apply HNum.
  - apply HStr.
  - apply HArr. induction l as [ | x l IHl ]; constructor; [ apply IH | exact IHl ].
  - apply HObj. induction kvs as [ | [k v] kvs IHk ]; constructor;
      [ apply IH | exact IHk ].
Qed.


(** ** The monad *)

Lemma bind_ok {A B} (m : M A) (f : A -> M B) (b : B) (lg : list event) :
  bind m f = (Ok b, lg) ->
  exists a l1 l2, m = (Ok a, l1) /\ f a = (Ok b, l2) /\ lg = l1 ++ l2.
Proof.
  unfold bind. destruct m as [[a | e] l1]; [ | discriminate ].
  destruct (f a) as [r l2] eqn:Hf. intros [= -> <-]. eauto 6.
Qed.

Lemma bind_throw {A B} (m : M A) (f : A -> M B) (e : string) (lg : list event) :
  bind m f = (Throw e, lg) ->
  m = (Throw e, lg)
  \/ exists a l1 l2, m = (Ok a, l1) /\ f a = (Throw e, l2) /\ lg = l1 ++ l2.
Proof.
  unfold bind. destruct m as [[a | e'] l1].
  - destruct (f a) as [r l2] eqn:Hf. intros [= -> <-]. right. eauto 6.
  - intros [= -> ->]. now left.
Qed.

(** ** The batch driver *)

Section DriverFacts.

Context (E : Env).

Lemma process_file_spec (st : Run) (file : string) :
  process_file E st file =
  {| settled := settled st;
     promises := promises st ++ [(file, promise E file)];
     results := results st ++ option_list (pushed E file);
     writes := writes st ++ option_list (pair file <$> artifact E file);
     disk := match artifact E file with
             | Some a => apply_write (disk st) (file, a)
             | None => disk st
             end;
     console := console st ++ snd (dereferenceSpec E file)
                ++ failure_line E file |}.
Proof.
  unfold process_file, promise, pushed, artifact, failure_line, pipeline, writeSpec.
  destruct (dereferenceSpec E file) as [[r | e] lg]; simpl.
  - destruct (fs_writeFileSync E _ _); simpl; rewrite ?app_nil_r; reflexivity.
  - rewrite ?app_nil_r. reflexivity.
Qed.

Lemma process_all_spec (files : list string) (st : Run) :
  process_all E files st =
  {| settled := settled st;
     promises := promises st ++ map (fun f => (f, promise E f)) files;
     results := results st ++ omap (pushed E) files;
     writes := writes st ++ omap (fun f => pair f <$> artifact E f) files;
     disk := fold_left apply_write
               (omap (fun f => pair f <$> artifact E f) files) (disk st);
     console := console st
                ++ flat_map (fun f => snd (dereferenceSpec E f)
                                      ++ failure_line E f) files |}.
Proof.
  revert st. induction files as [ | f files IH ]; intros st.
  - simpl. rewrite !app_nil_r. now destruct st.
  - unfold process_all in *. simpl fold_left. rewrite IH, process_file_spec.
    simpl. f_equal.
    + now rewrite <- app_assoc.
    + rewrite <- app_assoc. f_equal. now destruct (pushed E f).
    + rewrite <- app_assoc. f_equal. now destruct (artifact E f).
    + now destruct (artifact E f).
    + now rewrite <- !app_assoc.
Qed.

End DriverFacts.

Section ConsoleFacts.

Context (E : Env).

Lemma quiet_app (l1 l2 : list event) : quiet l1 -> quiet l2 -> quiet (l1 ++ l2).
Proof. unfold quiet. intros H1 H2. now rewrite List.filter_app, H1, H2. Qed.

Lemma bind_quiet {A B} (m : M A) (f : A -> M B) :
  quiet (snd m) -> (forall a, quiet (snd (f a))) -> quiet (snd (bind m f)).
Proof.
  intros Hm Hf. unfold bind. destruct m as [[a | e] l1]; simpl in *; [ | exact Hm ].
  specialize (Hf a). destruct (f a) as [r l2]. simpl in *. now apply quiet_app.
Qed.

Lemma mapM_quiet {A B} (f : A -> M B) (l : list A) :
  (forall x, quiet (snd (f x))) -> quiet (snd (mapM f l)).
Proof.
  intros Hf. induction l as [ | x l IH ]; simpl; [ reflexivity | ].
  apply bind_quiet; [ apply Hf | intros y ].
  apply bind_quiet; [ exact IH | intros ys; reflexivity ].
Qed.

Lemma foldM_quiet {A B} (f : B -> A -> M B) (l : list A) (acc : B) :
  (forall b x, quiet (snd (f b x))) -> quiet (snd (foldM f l acc)).
Proof.
  intros Hf. revert acc. induction l as [ | x l IH ]; intros acc; simpl;
    [ reflexivity | ].
  apply bind_quiet; [ apply Hf | intros b; apply IH ].
Qed.

Lemma mergeAllOfSchemas_quiet (depth : nat) (obj : json) :
  quiet (snd (mergeAllOfSchemas E depth obj)).
Proof.
  revert obj. induction depth as [ | d IH ]; intros obj; [ reflexivity | ].
  destruct obj as [ | b | z | s | l | kvs ]; simpl; try reflexivity.
  - apply bind_quiet; [ now apply mapM_quiet | intros; reflexivity ].
  - destruct (truthy_prop (js_get "allOf" kvs)).
    + destruct (mergeAllOf E (JObj kvs)) as [merged | e]; [ | reflexivity ].
      specialize (IH merged).
      destruct (mergeAllOfSchemas E d merged) as [[r | e] lg]; simpl in *;
        [ exact IH | now apply quiet_app ].
    + apply bind_quiet; [ | intros; reflexivity ].
      apply foldM_quiet. intros b x.
      apply bind_quiet; [ apply IH | intros; reflexivity ].
Qed.

Lemma dereferenceSpec_quiet (file : string) :
  quiet (snd (dereferenceSpec E file)).
Proof.
  unfold dereferenceSpec.
  match goal with |- context [ match ?b with _ => _ end ] => assert (Hb : quiet (snd b)) end.
  { apply bind_quiet; [ reflexivity | intros d ].
    apply bind_quiet; [ apply mergeAllOfSchemas_quiet | intros m ].
    apply bind_quiet; [ reflexivity | intros m'; reflexivity ]. }
  match goal with |- context [ match ?b with _ => _ end ] => destruct b as [[m | e] lg] end;
    simpl in *; [ exact Hb | now apply quiet_app ].
Qed.

Lemma select_specFiles_quiet (specificFile : option string) :
  quiet (snd (select_specFiles E specificFile)).
Proof.
  assert (Hfull : quiet (snd (full_build E))).
  { unfold full_build. destruct (fs_readdirSync E _); [ | reflexivity ].
    now destruct (_ =? _)%nat. }
  unfold select_specFiles. destruct specificFile as [p | ]; [ | exact Hfull ].
  destruct (p =? ""); [ exact Hfull | ].
  destruct (is_shared_component E p).
  - now destruct (full_build E).
  - now destruct (fs_existsSync E _).
Qed.

Lemma failure_lines_flat_map (files : list string) :
  List.filter is_failure_line
    (flat_map (fun f => snd (dereferenceSpec E f) ++ failure_line E f) files)
  = flat_map (failure_line E) files.
Proof.
  induction files as [ | f files IH ]; [ reflexivity | ].
  simpl. rewrite !List.filter_app, IH, dereferenceSpec_quiet. simpl. f_equal.
  unfold failure_line. now destruct (pipeline E f).
Qed.

End ConsoleFacts.

(** ** A run over the selected files *)

Lemma generateSpecs_selected (E : Env) (specificFile : option string)
    (disk0 : gmap string string) (specFiles : list string) (lg : list event) :
  ensure_output_dir E = Ok tt ->
  select_specFiles E specificFile = (Ok (Some specFiles), lg) ->
  generateSpecs E specificFile disk0 =
  {| settled := Resolved;
     promises := map (fun f => (f, promise E f)) (completion_order E specFiles);
     results := omap (pushed E) (completion_order E specFiles);
     writes := omap (fun f => pair f <$> artifact E f)
                 (completion_order E specFiles);
     disk := fold_left apply_write
               (omap (fun f => pair f <$> artifact E f)
                  (completion_order E specFiles)) disk0;
     console :=
       (lg ++ flat_map (fun f => snd (dereferenceSpec E f) ++ failure_line E f)
                (completion_order E specFiles))
       ++ [Generation_complete
             (length (omap (pushed E) (completion_order E specFiles)))
             (length specFiles)] |}.
Proof.
  intros Hdir Hsel. unfold generateSpecs. rewrite Hdir, Hsel.
  now rewrite process_all_spec.
Qed.

Lemma completed_iff (E : Env) (specFiles : list string) (f : string) :
  f ∈ completion_order E specFiles <-> f ∈ specFiles.
Proof. now rewrite (completion_order_perm E specFiles). Qed.

Lemma find_artifact (E : Env) (files : list string) (D : string) :
  D ∈ files ->
  snd <$> List.find (fun w => fst w =? D)
            (omap (fun f => pair f <$> artifact E f) files)
  = artifact E D.
Proof.
  intros Hin.
  induction files as [ | f files IH ]; [ inversion Hin | ].
  simpl. destruct (decide (f = D)) as [-> | Hne].
  - destruct (artifact E D) as [a | ] eqn:Ha; simpl.
    + now rewrite String.eqb_refl.
    + clear IH Hin. induction files as [ | g files IH ]; [ reflexivity | ].
      simpl. destruct (artifact E g) as [b | ] eqn:Hb; simpl; [ | exact IH ].
      destruct (g =? D) eqn:Hg; [ | exact IH ].
      apply String.eqb_eq in Hg. congruence.
  - assert (Hin' : D ∈ files) by (apply elem_of_cons in Hin as [-> | Hin]; [ congruence | exact Hin ]).
    destruct (artifact E f) as [a | ]; simpl; [ | now apply IH ].
    apply String.eqb_neq in Hne. rewrite Hne. now apply IH.
Qed.

(** ** Isolation of failures *)

Lemma counted_documents (E : Env) (l : list string) :
  length (omap (pushed E) l)
  = length (List.filter (fun f => bool_decide (is_Some (pushed E f))) l).
Proof.
  induction l as [ | f l IH ]; [ reflexivity | ]. simpl.
  destruct (pushed E f) as [r | ]; simpl; [ now f_equal | exact IH ].
Qed.

Lemma filter_length_Permutation {A} (P : A -> bool) (l1 l2 : list A) :
  Permutation l1 l2 ->
  length (List.filter P l1) = length (List.filter P l2).
Proof.
  induction 1 as [ | x l1 l2 _ IH | x y l | l1 l2 l3 _ IH1 _ IH2 ]; simpl;
    [ reflexivity | | | congruence ].
  - destruct (P x); simpl; congruence.
  - destruct (P x), (P y); reflexivity.
Qed.

Lemma counted_and_failed (E : Env) (file : string) :
  (promise E file = None /\ is_Some (pushed E file)) <->
  exists r e,
    fst (dereferenceSpec E file) = Ok r
    /\ fs_writeFileSync E (output_path E (fileName r))
         (JSON_stringify E (output_object (spec r))) = Throw e.
Proof.
  unfold pushed, promise, pipeline.
  destruct (fst (dereferenceSpec E file)) as [r | e0].
  - destruct (fs_writeFileSync E _ _) as [[] | e] eqn:Hw.
    + split; [ intros [? _]; discriminate | ].
      intros (r' & e & [= <-] & He). congruence.
    + split; [ intros _; eauto | intros _; split; [ reflexivity | eauto ] ].
  - split; [ intros [_ [? ?]]; discriminate
           | intros (? & ? & ? & _); discriminate ].
Qed.

(** C8. In a batch, whatever the order in which the documents complete, each
    document's promise settles to what its own pipeline yields and the output
    produced for it is the artifact of its own pipeline, whatever happens to
    its siblings; the files written are the artifacts of the documents whose
    pipeline succeeded and the output directory is the initial one updated by
    these writes alone; the [Failed to process] lines on the console are
    those of the failed documents and of no other.  The summary that closes
    the console does not mark exactly the failed documents: its count of
    successes is the number of documents pushed to [results], which happens
    before the write, so a document whose file cannot be written fails (its
    promise settles to [null], its failure is printed) and is counted as
    processed. *)
Theorem failures_are_isolated (E : Env) (specificFile : option string)
    (disk0 : gmap string string) (specFiles : list string) (lg : list event) :
  ensure_output_dir E = Ok tt ->
  select_specFiles E specificFile = (Ok (Some specFiles), lg) ->
  settled (generateSpecs E specificFile disk0) = Resolved
  /\ (forall f, f ∈ specFiles ->
        (f, promise E f) ∈ promises (generateSpecs E specificFile disk0)
        /\ output_for (generateSpecs E specificFile disk0) f = artifact E f)
  /\ writes (generateSpecs E specificFile disk0)
     = omap (fun f => pair f <$> artifact E f) (completion_order E specFiles)
  /\ disk (generateSpecs E specificFile disk0)
     = fold_left apply_write (writes (generateSpecs E specificFile disk0)) disk0
  /\ (forall ev,
        ev ∈ List.filter is_failure_line
               (console (generateSpecs E specificFile disk0)) <->
        exists f e, f ∈ specFiles /\ pipeline E f = Throw e
                    /\ ev = Failed_to_process (path_basename E f) e)
  /\ last (console (generateSpecs E specificFile disk0))
     = Some (Generation_complete
               (length (List.filter
                          (fun f => bool_decide (is_Some (pushed E f)))
                          specFiles))
               (length specFiles))
  /\ (forall f, promise E f = None /\ is_Some (pushed E f) <->
        exists r e,
          fst (dereferenceSpec E f) = Ok r
          /\ fs_writeFileSync E (output_path E (fileName r))
               (JSON_stringify E (output_object (spec r))) = Throw e).
Proof.
  intros Hdir Hsel. rewrite (generateSpecs_selected E _ _ _ _ Hdir Hsel).
  cbn [settled promises writes disk console].
  split; [ reflexivity | ].
  split; [ | split; [ reflexivity | split; [ reflexivity | split;
    [ | split; [ | apply counted_and_failed ] ] ] ] ].
  - intros f Hf. apply (proj2 (completed_iff E specFiles f)) in Hf. split.
    + now apply (list_elem_of_fmap_2 (fun f0 => (f0, promise E f0))).
    + unfold output_for. cbn [writes]. now apply find_artifact.
  - intros ev.
    pose proof (select_specFiles_quiet E specificFile) as Hq.
    rewrite Hsel in Hq. simpl in Hq.
    rewrite !List.filter_app, Hq, failure_lines_flat_map. simpl.
    rewrite app_nil_r, list_elem_of_In, in_flat_map. split.
    + intros (f & Hf & Hev). apply list_elem_of_In, completed_iff in Hf.
      unfold failure_line in Hev. destruct (pipeline E f) as [ | e] eqn:Hp;
        [ inversion Hev | ].
      destruct Hev as [<- | []]. now exists f, e.
    + intros (f & e & Hf & Hp & ->). exists f. split.
      * now apply list_elem_of_In, completed_iff.
      * unfold failure_line. rewrite Hp. now left.
  - rewrite last_snoc. do 2 f_equal. rewrite counted_documents.
    apply filter_length_Permutation, completion_order_perm.
Qed.

(** ** Early returns *)

(** C9. A full build that finds no eligible file in the specs directory
    resolves: nothing is attempted, written or reported as failed, the
    console shows the no-spec-files warning (after the shared-component
    notice, if that is how the full build was reached) and nothing else, the
    output directory is left as it was and the process exits with 0. *)
Theorem empty_full_build_succeeds (E : Env) (specificFile : option string)
    (disk0 : gmap string string) (names : list string) :
  ensure_output_dir E = Ok tt ->
  full_mode E specificFile = true ->
  fs_readdirSync E (SPECS_DIR E) = Ok names ->
  List.filter is_spec_name names = [] ->
  generateSpecs E specificFile disk0
  = {| settled := Resolved; promises := []; results := []; writes := [];
       disk := disk0;
       console :=
         match specificFile with
         | Some p => if p =? "" then [] else [Shared_component_changed]
         | None => []
         end ++ [No_spec_files_found] |}
  /\ main E specificFile disk0 = 0%Z.
Proof.
  intros Hdir Hfull Hread Hnone.
  assert (Hb : full_build E = (Ok None, [No_spec_files_found])).
  { unfold full_build. now rewrite Hread, Hnone. }
  assert (Hrun : generateSpecs E specificFile disk0
                 = {| settled := Resolved; promises := []; results := [];
                      writes := []; disk := disk0;
                      console :=
                        match specificFile with
                        | Some p => if p =? "" then [] else [Shared_component_changed]
                        | None => []
                        end ++ [No_spec_files_found] |}).
  { unfold generateSpecs, select_specFiles, full_mode in *. rewrite Hdir.
    destruct specificFile as [p | ]; [ | now rewrite Hb ].
    destruct (p =? ""); [ now rewrite Hb | ].
    simpl in Hfull. now rewrite Hfull, Hb. }
  split; [ exact Hrun | ]. unfold main, exit_code. now rewrite Hrun.
Qed.

(** C10. A changed path that is not a shared component and whose file does
    not exist makes the run return at once: the promise resolves, no document
    is processed, the specs directory is not listed, and the exit code is 0. *)
Theorem missing_file_returns (E : Env) (p : string)
    (disk0 : gmap string string) :
  ensure_output_dir E = Ok tt ->
  p <> "" ->
  is_shared_component E p = false ->
  fs_existsSync E (full_path E p) = false ->
  generateSpecs E (Some p) disk0
  = {| settled := Resolved; promises := []; results := []; writes := [];
       disk := disk0; console := [File_not_found (full_path E p)] |}
  /\ main E (Some p) disk0 = 0%Z.
Proof.
  intros Hdir Hne Hshared Hmissing.
  assert (Hrun : generateSpecs E (Some p) disk0
                 = {| settled := Resolved; promises := []; results := [];
                      writes := []; disk := disk0;
                      console := [File_not_found (full_path E p)] |}).
  { unfold generateSpecs, select_specFiles. rewrite Hdir.
    apply String.eqb_neq in Hne. now rewrite Hne, Hshared, Hmissing. }
  split; [ exact Hrun | ]. unfold main, exit_code. now rewrite Hrun.
Qed.

(** ** The outcome of a run *)

(** The promise rejects only when the output directory cannot be made or the
    specs directory cannot be listed. *)
Lemma generateSpecs_rejects (E : Env) (specificFile : option string)
    (disk0 : gmap string string) (e : string) :
  settled (generateSpecs E specificFile disk0) = Rejected e <->
  ensure_output_dir E = Throw e
  \/ (ensure_output_dir E = Ok tt
      /\ fst (select_specFiles E specificFile) = Throw e).
Proof.
  unfold generateSpecs. destruct (ensure_output_dir E) as [[] | e0].
  - destruct (select_specFiles E specificFile) as [[[files | ] | e1] lg]; simpl;
      split; try discriminate; intros H.
    + destruct H as [H | [_ H]]; discriminate.
    + destruct H as [H | [_ H]]; discriminate.
    + injection H as ->. right. now split.
    + destruct H as [H | [_ H]]; [ discriminate | now injection H as -> ].
  - simpl. split.
    + intros [= ->]. now left.
    + intros [[= ->] | [H _]]; [ reflexivity | discriminate ].
Qed.

(** C2. A run in which a document fails still resolves, so the command exits
    with 0; the document's promise settles to [null], its failure is printed,
    and the final line counts the documents whose dereferencing returned
    against the number attempted. *)
Theorem failed_document_exits_zero (E : Env) (specificFile : option string)
    (disk0 : gmap string string) (specFiles : list string) (lg : list event)
    (file e : string) :
  ensure_output_dir E = Ok tt ->
  select_specFiles E specificFile = (Ok (Some specFiles), lg) ->
  file ∈ specFiles ->
  pipeline E file = Throw e ->
  (file, None) ∈ promises (generateSpecs E specificFile disk0)
  /\ Failed_to_process (path_basename E file) e
     ∈ console (generateSpecs E specificFile disk0)
  /\ Generation_complete
       (length (omap (pushed E) (completion_order E specFiles)))
       (length specFiles)
     ∈ console (generateSpecs E specificFile disk0)
  /\ settled (generateSpecs E specificFile disk0) = Resolved
  /\ main E specificFile disk0 = 0%Z.
Proof.
  intros Hdir Hsel Hin Hfail. apply (proj2 (completed_iff E specFiles file)) in Hin.
  unfold main, exit_code. rewrite (generateSpecs_selected E _ _ _ _ Hdir Hsel).
  simpl. repeat split.
  - apply list_elem_of_fmap. exists file. split; [ | exact Hin ].
    unfold promise. now rewrite Hfail.
  - rewrite !elem_of_app. left. right.
    apply list_elem_of_In, in_flat_map. exists file.
    split; [ now apply list_elem_of_In | ].
    apply in_or_app. right. unfold failure_line. rewrite Hfail. now left.
  - rewrite !elem_of_app. right. set_solver.
Qed.

(** ** Incremental and full builds *)

Section Modes.

Context (E : Env).

Lemma artifact_at (file : string) (a : string * string) :
  artifact E file = Some a ->
  a = (artifact_path E file,
       JSON_stringify E (output_object
                           (match fst (dereferenceSpec E file) with
                            | Ok r => spec r
                            | Throw _ => JNull
                            end))).
Proof.
  unfold artifact, pipeline, artifact_path, dereferenceSpec.
  match goal with |- context [ match ?b with _ => _ end ] =>
    destruct b as [[m | e] lg] end; simpl; [ | discriminate ].
  destruct (fs_writeFileSync E _ _); [ | discriminate ]. now intros [= <-].
Qed.

Lemma fold_apply_write_other (ws : list (string * (string * string)))
    (d : gmap string string) (k : string) :
  (forall w, w ∈ ws -> fst (snd w) <> k) ->
  fold_left apply_write ws d !! k = d !! k.
Proof.
  revert d. induction ws as [ | w ws IH ]; intros d Hws; [ reflexivity | ].
  simpl. rewrite IH by (intros w' Hw'; apply Hws; now right).
  unfold apply_write. apply lookup_insert_ne. apply Hws. now left.
Qed.

Lemma fold_apply_write_same (ws : list (string * (string * string)))
    (d : gmap string string) (k c : string) :
  (forall w, w ∈ ws -> fst (snd w) = k -> snd (snd w) = c) ->
  (exists w, w ∈ ws /\ fst (snd w) = k) ->
  fold_left apply_write ws d !! k = Some c.
Proof.
  revert d. induction ws as [ | w ws IH ] using rev_ind; intros d Hall [w0 [Hin Hk]].
  - inversion Hin.
  - rewrite fold_left_app. simpl. unfold apply_write at 1.
    destruct (decide (fst (snd w) = k)) as [Hw | Hw].
    + rewrite Hw, lookup_insert_eq. f_equal. apply Hall; [ | exact Hw ].
      apply elem_of_app. right. now left.
    + rewrite lookup_insert_ne by exact Hw. apply IH.
      * intros w' Hw'. apply Hall. apply elem_of_app. now left.
      * apply elem_of_app in Hin as [Hin | Hin]; [ eauto | ].
        apply list_elem_of_singleton in Hin. congruence.
Qed.

Lemma full_build_files (names : list string) (f : string) :
  fs_readdirSync E (SPECS_DIR E) = Ok names ->
  f ∈ names -> is_spec_name f = true ->
  full_build E
  = (Ok (Some (map (path_join E (SPECS_DIR E)) (List.filter is_spec_name names))),
     [])
  /\ path_join E (SPECS_DIR E) f
     ∈ map (path_join E (SPECS_DIR E)) (List.filter is_spec_name names).
Proof.
  intros Hread Hin Hspec.
  assert (Hf : f ∈ List.filter is_spec_name names).
  { apply list_elem_of_In, filter_In. split; [ now apply list_elem_of_In | exact Hspec ]. }
  split.
  - unfold full_build. rewrite Hread.
    destruct (List.filter is_spec_name names); [ inversion Hf | reflexivity ].
  - now apply list_elem_of_fmap_2.
Qed.

Lemma generateSpecs_shared (p : string) (disk0 : gmap string string) :
  p <> "" -> is_shared_component E p = true ->
  writes (generateSpecs E (Some p) disk0) = writes (generateSpecs E None disk0)
  /\ disk (generateSpecs E (Some p) disk0) = disk (generateSpecs E None disk0).
Proof.
  intros Hne Hshared. apply String.eqb_neq in Hne.
  unfold generateSpecs, select_specFiles. rewrite Hne, Hshared.
  destruct (ensure_output_dir E); [ | now split ].
  destruct (full_build E) as [[[files | ] | e] lg]; try (now split).
  rewrite !process_all_spec. now split.
Qed.

(** C3. For a leaf specification [f] of the specs directory and a changed path
    [p] that names it, the incremental run writes for it exactly what the full
    run writes for it, path and bytes, whatever the order in which the
    documents of the full run complete; and when no other eligible file
    shares its output path, the output directory holds the same file at that
    path after either run. *)
Theorem incremental_matches_full (disk0 : gmap string string)
    (names : list string) (f p : string) :
  fs_readdirSync E (SPECS_DIR E) = Ok names ->
  f ∈ names ->
  is_spec_name f = true ->
  p <> "" ->
  full_path E p = path_join E (SPECS_DIR E) f ->
  fs_existsSync E (full_path E p) = true ->
  output_for (generateSpecs E (Some p) disk0) (path_join E (SPECS_DIR E) f)
  = output_for (generateSpecs E None disk0) (path_join E (SPECS_DIR E) f)
  /\ ((forall g, g ∈ names -> is_spec_name g = true ->
         artifact_path E (path_join E (SPECS_DIR E) g)
         = artifact_path E (path_join E (SPECS_DIR E) f) ->
         path_join E (SPECS_DIR E) g = path_join E (SPECS_DIR E) f) ->
      disk (generateSpecs E (Some p) disk0)
        !! artifact_path E (path_join E (SPECS_DIR E) f)
      = disk (generateSpecs E None disk0)
        !! artifact_path E (path_join E (SPECS_DIR E) f)).
Proof.
  intros Hread Hin Hspec Hne Hpath Hexists.
  destruct (is_shared_component E p) eqn:Hshared.
  { destruct (generateSpecs_shared p disk0 Hne Hshared) as [Hw Hd].
    unfold output_for. rewrite Hw, Hd. now split. }
  destruct (full_build_files names f Hread Hin Hspec) as [Hfull HD].
  set (D := path_join E (SPECS_DIR E) f) in *.
  set (files := map (path_join E (SPECS_DIR E)) (List.filter is_spec_name names)) in *.
  destruct (ensure_output_dir E) as [[] | e] eqn:Hdir.
  2:{ unfold generateSpecs. rewrite Hdir. now split. }
  assert (Hinc : select_specFiles E (Some p) = (Ok (Some [D]), [])).
  { unfold select_specFiles. apply String.eqb_neq in Hne.
    rewrite Hne, Hshared, Hexists, Hpath. reflexivity. }
  rewrite (generateSpecs_selected E (Some p) disk0 [D] [] Hdir Hinc).
  rewrite (generateSpecs_selected E None disk0 files [] Hdir Hfull).
  assert (Hone : completion_order E [D] = [D])
    by (apply Permutation_singleton_r, completion_order_perm).
  rewrite Hone. apply (proj2 (completed_iff E files D)) in HD.
  set (done := completion_order E files) in *.
  split.
  - unfold output_for. cbn [writes].
    rewrite (find_artifact E [D] D) by set_solver.
    now rewrite (find_artifact E done D HD).
  - intros Huniq. cbn [disk].
    assert (Hown : forall w, w ∈ omap (fun f0 => pair f0 <$> artifact E f0) done ->
                   fst (snd w) = artifact_path E D -> artifact E D = Some (snd w)).
    { intros w Hw Hk. apply list_elem_of_omap in Hw as (g' & Hg' & Hart).
      destruct (artifact E g') as [a | ] eqn:Ha; [ | discriminate ].
      injection Hart as <-. simpl in *.
      apply completed_iff, list_elem_of_fmap in Hg' as (g & -> & Hg).
      apply list_elem_of_In, filter_In in Hg as [Hg Hgs].
      apply list_elem_of_In in Hg.
      pose proof (artifact_at _ _ Ha) as Hat.
      assert (Hsame : path_join E (SPECS_DIR E) g = D).
      { apply (Huniq g Hg Hgs). rewrite Hat in Hk. exact Hk. }
      now rewrite <- Hsame. }
    assert (Hsingle : omap (fun f0 => pair f0 <$> artifact E f0) [D]
                      = option_list (pair D <$> artifact E D))
      by (simpl; now destruct (artifact E D)).
    rewrite Hsingle. clear Hsingle.
    destruct (artifact E D) as [[op c] | ] eqn:HaD.
    + pose proof (artifact_at _ _ HaD) as Hat. injection Hat as Hop Hc.
      simpl. unfold apply_write at 1. simpl. rewrite Hop, lookup_insert_eq. symmetry.
      apply fold_apply_write_same.
      * intros w Hw Hk. specialize (Hown w Hw Hk).
        injection Hown as Hsw. now rewrite <- Hsw.
      * exists (D, (op, c)). split; [ | simpl; congruence ].
        apply list_elem_of_omap. exists D. split; [ exact HD | now rewrite HaD ].
    + simpl. symmetry. apply fold_apply_write_other.
      intros w Hw Hk. specialize (Hown w Hw Hk). discriminate.
Qed.

End Modes.

(** ** Property lists *)

Lemma js_get_None (k : string) (o : list (string * json)) :
  js_get k o = None <-> has_key k o = false.
Proof.
  induction o as [ | [a x] o IH ]; simpl; [ tauto | ].
  destruct (js_get k o).
  - split; [ discriminate | ]. intros H. apply orb_false_iff in H as [_ H].
    apply IH in H. discriminate.
  - destruct (a =? k); simpl; [ split; discriminate | tauto ].
Qed.

Lemma js_get_app (k : string) (o1 o2 : list (string * json)) :
  js_get k (o1 ++ o2)
  = match js_get k o2 with Some x => Some x | None => js_get k o1 end.
Proof.
  induction o1 as [ | [a x] o1 IH ]; simpl.
  - now destruct (js_get k o2).
  - rewrite IH. now destruct (js_get k o2).
Qed.

Lemma js_get_replace (k k' : string) (v : json) (o : list (string * json)) :
  js_get k' (map (fun kv => if fst kv =? k then (fst kv, v) else kv) o)
  = if k =? k' then (if has_key k o then Some v else None) else js_get k' o.
Proof.
  induction o as [ | [a x] o IH ]; simpl.
  - now destruct (k =? k').
  - rewrite IH. destruct (k =? k') eqn:Hk.
    + apply String.eqb_eq in Hk. subst k'.
      destruct (has_key k o).
      * rewrite orb_true_r. now destruct (a =? k).
      * rewrite orb_false_r. destruct (a =? k) eqn:Ha; simpl; now rewrite Ha.
    + destruct (a =? k) eqn:Ha; simpl; [ | reflexivity ].
      apply String.eqb_eq in Ha. subst a. rewrite Hk.
      now destruct (js_get k' o).
Qed.

Lemma js_get_insert_index (i : N) (k k' : string) (v : json)
    (o : list (string * json)) :
  has_key k o = false ->
  js_get k' (insert_index i k v o)
  = if k =? k' then Some v else js_get k' o.
Proof.
  assert (Hcons : forall o', has_key k o' = false ->
            js_get k' ((k, v) :: o') = if k =? k' then Some v else js_get k' o').
  { intros o' Ho'. simpl. destruct (k =? k') eqn:Hk.
    - apply String.eqb_eq in Hk. subst k'. apply js_get_None in Ho'. now rewrite Ho'.
    - now destruct (js_get k' o'). }
  induction o as [ | [a x] o IH ]; intros Hkey.
  - simpl. now destruct (k =? k').
  - simpl insert_index. destruct (array_index a) as [j | ]; [ | now apply Hcons ].
    destruct (j <? i)%N; [ | now apply Hcons ].
    simpl in Hkey. apply orb_false_iff in Hkey as [Ha Hkey].
    simpl. rewrite (IH Hkey). destruct (k =? k') eqn:Hk; [ | reflexivity ].
    reflexivity.
Qed.

Lemma js_get_obj_set (k k' : string) (v : json) (o : list (string * json)) :
  js_get k' (obj_set k v o) = if k =? k' then Some v else js_get k' o.
Proof.
  unfold obj_set. destruct (has_key k o) eqn:Hkey.
  - rewrite js_get_replace. now rewrite Hkey.
  - destruct (array_index k) as [i | ].
    + now apply js_get_insert_index.
    + rewrite js_get_app. simpl. destruct (k =? k'); [ reflexivity | ].
      reflexivity.
Qed.

Lemma js_get_assign_all (k : string) (src acc : list (string * json)) :
  js_get k (assign_all src acc)
  = match js_get k src with Some v => Some v | None => js_get k acc end.
Proof.
  unfold assign_all. revert acc.
  induction src as [ | [a x] src IH ]; intros acc; simpl; [ reflexivity | ].
  rewrite IH, js_get_obj_set. simpl.
  destruct (js_get k src); [ reflexivity | ]. now destruct (a =? k).
Qed.

(** Writing a property adds no value but the one written. *)
Lemma obj_set_values (k : string) (v : json) (o : list (string * json))
    (kv : string * json) :
  kv ∈ obj_set k v o -> snd kv = v \/ kv ∈ o.
Proof.
  unfold obj_set. destruct (has_key k o).
  - intros H. apply list_elem_of_fmap in H as ([a x] & -> & Hin). simpl.
    destruct (a =? k); [ now left | now right ].
  - destruct (array_index k) as [i | ].
    + induction o as [ | [a x] o IH ]; simpl.
      * intros H. apply list_elem_of_singleton in H. subst. now left.
      * destruct (array_index a) as [j | ].
        -- destruct (j <? i)%N.
           ++ intros H. apply elem_of_cons in H as [-> | H]; [ right; now left | ].
              destruct (IH H) as [? | ?]; [ now left | right; now right ].
           ++ intros H. apply elem_of_cons in H as [-> | H]; [ now left | now right ].
        -- intros H. apply elem_of_cons in H as [-> | H]; [ now left | now right ].
    + intros H. apply elem_of_app in H as [H | H]; [ now right | ].
      apply list_elem_of_singleton in H. subst. now left.
Qed.

Lemma assign_all_values (src acc : list (string * json)) (kv : string * json) :
  kv ∈ assign_all src acc ->
  kv ∈ acc \/ exists kv', kv' ∈ src /\ snd kv = snd kv'.
Proof.
  unfold assign_all. revert acc.
  induction src as [ | [a x] src IH ]; intros acc; simpl; [ now left | ].
  intros H. destruct (IH _ H) as [H' | (kv' & Hin & Heq)].
  - apply obj_set_values in H' as [H' | H']; [ | now left ].
    right. exists (a, x). split; [ now left | exact H' ].
  - right. exists kv'. split; [ now right | exact Heq ].
Qed.

(** ** The generated-file marker *)

(** C5. [writeSpec] has no collision check: it throws only what
    [writeFileSync] throws.  In the object it writes, every key of the
    document keeps the document's value, the marker key included: the warning
    text is the value of the marker key only when the document has no such
    key. *)
Theorem marker_is_shadowed_by_document (E : Env) (name : string) (doc : json)
    (disk0 : gmap string string) :
  (forall e, writeSpec E name doc disk0 = Throw e <->
             fs_writeFileSync E (output_path E name)
               (JSON_stringify E (output_object doc)) = Throw e)
  /\ exists out, output_object doc = JObj out
     /\ (forall k v, js_get k (spread doc) = Some v -> js_get k out = Some v)
     /\ (js_get warning_key (spread doc) = None ->
         js_get warning_key out = Some (JStr warning_text))
     /\ (forall k, k <> warning_key -> js_get k out = js_get k (spread doc)).
Proof.
  split.
  - intros e. unfold writeSpec.
    destruct (fs_writeFileSync E _ _); split; congruence.
  - eexists. split; [ reflexivity | ]. repeat split.
    + intros k v Hk. now rewrite js_get_assign_all, Hk.
    + intros Hk. rewrite js_get_assign_all, Hk. reflexivity.
    + intros k Hk. rewrite js_get_assign_all.
      destruct (js_get k (spread doc)); [ reflexivity | ].
      apply String.eqb_neq in Hk. rewrite String.eqb_sym in Hk.
      unfold js_get. now rewrite Hk.
Qed.

(** ** Composition *)

Section Composition.

Context (E : Env).

Lemma mapM_throw {A B} (f : A -> M B) (l : list A) (e : string) :
  fst (mapM f l) = Throw e -> exists x, x ∈ l /\ fst (f x) = Throw e.
Proof.
  induction l as [ | x l IH ]; simpl; [ discriminate | ].
  destruct (f x) as [[y | e'] l1] eqn:Hx; simpl.
  - destruct (mapM f l) as [[ys | e'] l2]; simpl in *; [ discriminate | ].
    intros H. destruct (IH H) as (x' & Hin & Hx'). exists x'. split; [ now right | exact Hx' ].
  - intros [= ->]. exists x. split; [ now left | now rewrite Hx ].
Qed.

Lemma foldM_throw {A B} (f : B -> A -> M B) (l : list A) (acc : B) (e : string) :
  fst (foldM f l acc) = Throw e -> exists b x, x ∈ l /\ fst (f b x) = Throw e.
Proof.
  revert acc. induction l as [ | x l IH ]; intros acc; simpl; [ discriminate | ].
  destruct (f acc x) as [[b | e'] l1] eqn:Hx; simpl.
  - specialize (IH b). destruct (foldM f l b) as [r l2]. simpl in *.
    intros H. destruct (IH H) as (b' & x' & Hin & Hx').
    exists b', x'. split; [ now right | exact Hx' ].
  - intros [= ->]. exists acc, x. split; [ now left | now rewrite Hx ].
Qed.

(** The composition pass raises nothing but the engine's stack overflow. *)
Lemma mergeAllOfSchemas_throws (depth : nat) (obj : json) (e : string) :
  fst (mergeAllOfSchemas E depth obj) = Throw e -> e = RangeError.
Proof.
  revert obj. induction depth as [ | d IH ]; intros obj; simpl.
  - now intros [= <-].
  - destruct obj as [ | b | z | s | l | kvs ]; simpl; try discriminate.
    + destruct (mapM (mergeAllOfSchemas E d) l) as [[ys | e'] lg] eqn:Hm; simpl;
        [ discriminate | ].
      intros [= ->]. assert (H : fst (mapM (mergeAllOfSchemas E d) l) = Throw e)
        by now rewrite Hm.
      apply mapM_throw in H as (x & _ & Hx). exact (IH _ Hx).
    + destruct (truthy_prop (js_get "allOf" kvs)).
      * destruct (mergeAllOf E (JObj kvs)); [ | discriminate ].
        now destruct (mergeAllOfSchemas E d a) as [[r | e'] lg].
      * match goal with |- context [ foldM ?f kvs [] ] =>
          destruct (foldM f kvs []) as [[res | e'] lg] eqn:Hf end; simpl;
          [ discriminate | ].
        intros [= ->].
        match type of Hf with foldM ?f _ _ = _ =>
          assert (H : fst (foldM f kvs []) = Throw e) by now rewrite Hf end.
        apply foldM_throw in H as (b & x & _ & Hx).
        destruct (mergeAllOfSchemas E d (snd x)) as [[v | e'] l1] eqn:Hv;
          simpl in Hx; [ discriminate | ].
        injection Hx as ->. apply (IH (snd x)). now rewrite Hv.
Qed.

(** C1. A composition that the merge library rejects does not fail anything:
    the error is caught, a warning is printed and the node is returned as it
    was, composition list in place; the composition pass as a whole raises
    nothing but a stack overflow; and a document's pipeline fails only when
    dereferencing throws, the stack overflows, the clean-up or the sort
    throws, or the file cannot be written: never on account of a schema
    conflict. *)
Theorem merge_conflict_is_tolerated :
  (forall d kvs msg,
      truthy_prop (js_get "allOf" kvs) = true ->
      mergeAllOf E (JObj kvs) = Throw msg ->
      mergeAllOfSchemas E (S d) (JObj kvs)
      = (Ok (JObj kvs), [Warn_could_not_merge msg]))
  /\ (forall depth obj e,
         fst (mergeAllOfSchemas E depth obj) = Throw e -> e = RangeError)
  /\ (forall file e,
         pipeline E file = Throw e ->
         RefParser_dereference E file = Throw e
         \/ e = RangeError
         \/ exists doc merged lg,
              RefParser_dereference E file = Ok doc
              /\ mergeAllOfSchemas E (stack_depth E) doc = (Ok merged, lg)
              /\ (delete_components merged = Throw e
                  \/ (exists cleaned, delete_components merged = Ok cleaned
                                      /\ sort_methods E cleaned = Throw e)
                  \/ (exists r, fst (dereferenceSpec E file) = Ok r
                                /\ fs_writeFileSync E (output_path E (fileName r))
                                     (JSON_stringify E (output_object (spec r)))
                                   = Throw e))).
Proof.
  split; [ | split ].
  - intros d kvs msg Hall Hthrow. simpl. now rewrite Hall, Hthrow.
  - apply mergeAllOfSchemas_throws.
  - intros file e. unfold pipeline.
    destruct (fst (dereferenceSpec E file)) as [r | e0] eqn:Hr.
    + destruct (fs_writeFileSync E _ _) as [ | e1] eqn:Hw; [ discriminate | ].
      intros [= ->]. unfold dereferenceSpec in Hr.
      destruct (RefParser_dereference E file) as [doc | e2] eqn:Hd;
        [ | discriminate ].
      unfold lift, bind in Hr.
      destruct (mergeAllOfSchemas E (stack_depth E) doc) as [[m | e3] lg] eqn:Hm;
        [ | discriminate ].
      right. right. exists doc, m, lg.
      split; [ first [ reflexivity | assumption ] | ].
      split; [ first [ reflexivity | assumption ] | ].
      right. right. exists r. split; [ reflexivity | exact Hw ].
    + intros [= ->]. unfold dereferenceSpec in Hr.
      destruct (RefParser_dereference E file) as [doc | e2] eqn:Hd.
      * unfold lift, bind in Hr.
        destruct (mergeAllOfSchemas E (stack_depth E) doc) as [[m | e3] lg] eqn:Hm.
        -- right. right. exists doc, m, lg.
           split; [ first [ reflexivity | assumption ] | ].
           split; [ first [ reflexivity | assumption ] | ].
           destruct (delete_components m) as [c | e4] eqn:Hc.
           ++ right. left. exists c. split; [ reflexivity | ].
              destruct (sort_methods E c); simpl in Hr; congruence.
           ++ left. simpl in Hr. congruence.
        -- right. left. simpl in Hr. injection Hr as <-.
           apply (mergeAllOfSchemas_throws (stack_depth E) doc). now rewrite Hm.
      * left. simpl in Hr. congruence.
Qed.

End Composition.

(** ** What composition leaves in the tree *)

Lemma carries_composition_obj (kvs : list (string * json)) :
  carries_composition (JObj kvs) = false <->
  truthy_prop (js_get "allOf" kvs) = false
  /\ forall kv, kv ∈ kvs -> carries_composition (snd kv) = false.
Proof.
  simpl. rewrite orb_false_iff. apply and_iff_compat_l.
  split.
  - intros H kv Hin. apply list_elem_of_In in Hin.
    destruct (carries_composition (snd kv)) eqn:Hc; [ | reflexivity ].
    assert (Hex : existsb (fun kv0 => carries_composition (snd kv0)) kvs = true)
      by (apply existsb_exists; eauto).
    congruence.
  - intros H. destruct (existsb _ kvs) eqn:Hex; [ | reflexivity ].
    apply existsb_exists in Hex as (kv & Hin & Hc).
    apply list_elem_of_In in Hin. rewrite (H kv Hin) in Hc. discriminate.
Qed.

Lemma carries_composition_arr (l : list json) :
  carries_composition (JArr l) = false <->
  forall x, x ∈ l -> carries_composition x = false.
Proof.
  simpl. split.
  - intros H x Hin. apply list_elem_of_In in Hin.
    destruct (carries_composition x) eqn:Hc; [ | reflexivity ].
    assert (Hex : existsb carries_composition l = true)
      by (apply existsb_exists; eauto).
    congruence.
  - intros H. destruct (existsb _ l) eqn:Hex; [ | reflexivity ].
    apply existsb_exists in Hex as (x & Hin & Hc).
    apply list_elem_of_In in Hin. rewrite (H x Hin) in Hc. discriminate.
Qed.

Lemma js_get_elem_of (k : string) (v : json) (o : list (string * json)) :
  js_get k o = Some v -> (k, v) ∈ o.
Proof.
  induction o as [ | [a x] o IH ]; simpl; [ discriminate | ].
  destruct (js_get k o) as [y | ].
  - intros [= ->]. right. now apply IH.
  - destruct (a =? k) eqn:Ha; [ | discriminate ].
    apply String.eqb_eq in Ha. intros [= ->]. subst. now left.
Qed.

Lemma js_get_delete (k k' : string) (o : list (string * json)) :
  k <> k' -> js_get k' (obj_delete k o) = js_get k' o.
Proof.
  intros Hne. unfold obj_delete.
  induction o as [ | [a x] o IH ]; [ reflexivity | ].
  rewrite filter_cons. simpl. destruct (decide (a <> k)) as [Ha | Ha]; simpl.
  - now rewrite IH.
  - rewrite IH. apply dec_stable in Ha. subst a.
    apply String.eqb_neq in Hne. rewrite Hne. now destruct (js_get k' o).
Qed.

Lemma index_string_not_allOf (i : nat) : index_string i <> "allOf".
Proof.
  unfold index_string. intros H.
  pose proof (NilEmpty.usu (N.to_uint (N.of_nat i))) as Hu.
  rewrite H in Hu. discriminate.
Qed.

Lemma indexed_elem_of {A} (f : A -> json) (l : list A) (kv : string * json) :
  kv ∈ indexed f l -> exists i x, kv = (index_string i, f x) /\ x ∈ l.
Proof.
  unfold indexed. intros H. apply elem_of_lookup_imap in H as (i & x & -> & Hx).
  exists i, x. split; [ reflexivity | ]. apply list_elem_of_lookup. eauto.
Qed.

Section Flattening.

Context (E : Env).

Lemma mapM_ok_nil {A B} (f : A -> M B) (l : list A) (ys : list B) :
  mapM f l = (Ok ys, []) -> Forall2 (fun x y => f x = (Ok y, [])) l ys.
Proof.
  revert ys. induction l as [ | x l IH ]; intros ys; simpl.
  - intros [= <-]. constructor.
  - intros H. apply bind_ok in H as (y & l1 & l2 & Hx & H & Hlg).
    apply bind_ok in H as (ys' & l3 & l4 & Hl & H & Hlg').
    injection H as <- <-. rewrite app_nil_r in Hlg'. subst l2.
    symmetry in Hlg. apply app_eq_nil in Hlg as [-> ->].
    constructor; [ exact Hx | now apply IH ].
Qed.

Lemma falsy_passes (d : nat) (v out : json) (lg : list event) :
  truthy v = false -> mergeAllOfSchemas E d v = (Ok out, lg) -> out = v.
Proof.
  destruct d as [ | d ]; [ discriminate | ].
  destruct v; simpl; try discriminate; now intros _ [= <-].
Qed.

(** The loop [for (const [key, value] of Object.entries(obj))]. *)
Lemma rebuild_ok_nil (d : nat) (kvs acc res : list (string * json)) :
  foldM (fun result kv =>
           v <- mergeAllOfSchemas E d (snd kv) ;;
           ret (obj_set (fst kv) v result)) kvs acc = (Ok res, []) ->
  (forall kv, kv ∈ res ->
     kv ∈ acc
     \/ exists kv0, kv0 ∈ kvs
                    /\ mergeAllOfSchemas E d (snd kv0) = (Ok (snd kv), []))
  /\ (forall k,
        match js_get k kvs with
        | Some v0 => exists v, mergeAllOfSchemas E d v0 = (Ok v, [])
                               /\ js_get k res = Some v
        | None => js_get k res = js_get k acc
        end).
Proof.
  revert acc. induction kvs as [ | [a x] kvs IH ]; intros acc; simpl.
  - intros [= <-]. split; [ now left | reflexivity ].
  - intros H. apply bind_ok in H as (acc' & l1 & l2 & Hstep & Hrest & Hlg).
    symmetry in Hlg. apply app_eq_nil in Hlg as [-> ->].
    apply bind_ok in Hstep as (v & l3 & l4 & Hv & Hret & Hlg).
    injection Hret as <- <-. rewrite app_nil_r in Hlg. subst l3.
    destruct (IH _ Hrest) as [Hvals Hget]. split.
    + intros kv Hin. destruct (Hvals kv Hin) as [Hacc | (kv0 & Hin0 & Hkv0)].
      * apply obj_set_values in Hacc as [Hacc | Hacc]; [ | now left ].
        right. exists (a, x). split; [ now left | ]. simpl. now rewrite Hacc.
      * right. exists kv0. split; [ now right | exact Hkv0 ].
    + intros k. specialize (Hget k). destruct (js_get k kvs) as [v0 | ];
        [ exact Hget | ].
      rewrite js_get_obj_set in Hget. destruct (a =? k); [ | exact Hget ].
      exists v. split; [ exact Hv | exact Hget ].
Qed.

Lemma mergeAllOfSchemas_flat (d : nat) (obj out : json) :
  mergeAllOfSchemas E d obj = (Ok out, []) -> carries_composition out = false.
Proof.
  revert obj out. induction d as [ | d IH ]; intros obj out; [ discriminate | ].
  destruct obj as [ | b | z | s | l | kvs ]; simpl;
    try (now intros [= <-]).
  - intros H. apply bind_ok in H as (items & l1 & l2 & Hitems & Hret & Hlg).
    injection Hret as <- <-. rewrite app_nil_r in Hlg. subst l1.
    apply mapM_ok_nil in Hitems. apply carries_composition_arr.
    intros y Hy. apply list_elem_of_lookup in Hy as [i Hy].
    destruct (Forall2_lookup_r _ _ _ _ _ Hitems Hy) as (x & _ & Hx).
    exact (IH _ _ Hx).
  - destruct (truthy_prop (js_get "allOf" kvs)) eqn:Hall.
    + destruct (mergeAllOf E (JObj kvs)) as [merged | e]; [ | discriminate ].
      destruct (mergeAllOfSchemas E d merged) as [[r | e] lg] eqn:Hm.
      * intros [= <- ->]. exact (IH _ _ Hm).
      * intros [= _ Hlg]. now apply app_eq_nil in Hlg as [_ Hlg].
    + intros H. apply bind_ok in H as (res & l1 & l2 & Hres & Hret & Hlg).
      injection Hret as <- <-. rewrite app_nil_r in Hlg. subst l1.
      apply rebuild_ok_nil in Hres as [Hvals Hget].
      apply carries_composition_obj. split.
      * specialize (Hget "allOf"). destruct (js_get "allOf" kvs) as [v0 | ].
        -- destruct Hget as (v & Hv & ->). simpl in *.
           now rewrite (falsy_passes _ _ _ _ Hall Hv).
        -- now rewrite Hget.
      * intros kv Hin. destruct (Hvals kv Hin) as [Hacc | (kv0 & _ & Hkv0)];
          [ inversion Hacc | exact (IH _ _ Hkv0) ].
Qed.

End Flattening.

(** ** The sort rearranges *)

Lemma sort_insert_perm (cmp : json -> json -> result Z) (p : json)
    (l l' : list json) :
  sort_insert cmp p l = Ok l' -> Permutation (p :: l) l'.
Proof.
  revert l'. induction l as [ | x l IH ]; intros l'; simpl.
  - now intros [= <-].
  - destruct (cmp p x) as [c | e]; [ | discriminate ].
    destruct (c <? 0)%Z; [ now intros [= <-] | ].
    destruct (sort_insert cmp p l) as [rest | e]; [ | discriminate ].
    intros [= <-]. rewrite perm_swap. constructor. now apply IH.
Qed.

Lemma sort_from_perm (cmp : json -> json -> result Z) (acc l l' : list json) :
  sort_from cmp acc l = Ok l' -> Permutation (acc ++ l) l'.
Proof.
  revert acc. induction l as [ | p l IH ]; intros acc; simpl.
  - intros [= <-]. now rewrite app_nil_r.
  - destruct (sort_insert cmp p acc) as [acc' | e] eqn:Hins; [ | discriminate ].
    intros H. apply IH in H. rewrite <- H.
    apply sort_insert_perm in Hins. rewrite <- Hins.
    symmetry. apply (Permutation_middle acc l p).
Qed.

Lemma array_sort_perm (cmp : json -> json -> result Z) (l l' : list json) :
  array_sort cmp l = Ok l' -> Permutation l l'.
Proof. apply (sort_from_perm cmp []). Qed.

Section FlatOutput.

Context (E : Env).

Lemma delete_components_flat (m m' : json) :
  delete_components m = Ok m' ->
  carries_composition m = false -> carries_composition m' = false.
Proof.
  unfold delete_components. destruct (js_prop m "components") as [c | e];
    [ | discriminate ].
  destruct (truthy_prop c); [ | now intros [= <-] ].
  destruct m as [ | b | z | s | l | kvs ]; try (now intros [= <-]).
  intros [= <-] H. apply carries_composition_obj in H as [Hall Hvals].
  apply carries_composition_obj. split.
  - now rewrite js_get_delete.
  - intros kv Hin. apply Hvals. unfold obj_delete in Hin.
    now apply list_elem_of_filter in Hin as [_ Hin].
Qed.

Lemma sort_methods_flat (m m' : json) :
  sort_methods E m = Ok m' ->
  carries_composition m = false -> carries_composition m' = false.
Proof.
  unfold sort_methods. destruct (js_prop m "methods") as [[v | ] | e] eqn:Hp;
    try discriminate; [ | now intros [= <-] ].
  destruct v as [ | b | z | s | methods | o ]; try (now intros [= <-]).
  destruct (array_sort (compare_names E) methods) as [sorted | e] eqn:Hs;
    [ | discriminate ].
  destruct m as [ | b | z | s | l | kvs ]; try (now intros [= <-]).
  simpl in Hp. injection Hp as Hp.
  intros [= <-] H. apply carries_composition_obj in H as [Hall Hvals].
  apply carries_composition_obj. split.
  - now rewrite js_get_obj_set.
  - intros kv Hin. apply obj_set_values in Hin as [Hin | Hin];
      [ | now apply Hvals ].
    rewrite Hin. apply carries_composition_arr. intros x Hx.
    apply js_get_elem_of in Hp. specialize (Hvals _ Hp). simpl snd in Hvals.
    rewrite carries_composition_arr in Hvals. apply Hvals.
    apply array_sort_perm in Hs. now rewrite Hs.
Qed.

Lemma output_object_flat (doc : json) :
  carries_composition doc = false ->
  carries_composition (output_object doc) = false.
Proof.
  intros H. unfold output_object. apply carries_composition_obj. split.
  - rewrite js_get_assign_all.
    destruct (js_get "allOf" (spread doc)) as [v | ] eqn:Hv; [ | reflexivity ].
    destruct doc as [ | b | z | s | l | kvs ]; simpl in Hv; try discriminate.
    + apply js_get_elem_of, indexed_elem_of in Hv as (i & x & [= Hi _] & _).
      symmetry in Hi. now apply index_string_not_allOf in Hi.
    + apply js_get_elem_of, indexed_elem_of in Hv as (i & x & [= Hi _] & _).
      symmetry in Hi. now apply index_string_not_allOf in Hi.
    + apply carries_composition_obj in H as [Hall _]. now rewrite Hv in Hall.
  - intros kv Hin. apply assign_all_values in Hin as [Hin | (kv' & Hin & ->)].
    + apply list_elem_of_singleton in Hin. now subst kv.
    + destruct doc as [ | b | z | s | l | kvs ]; simpl in Hin;
        try (now inversion Hin).
      * apply indexed_elem_of in Hin as (i & x & -> & _). reflexivity.
      * apply indexed_elem_of in Hin as (i & x & -> & Hx). simpl.
        rewrite carries_composition_arr in H. now apply H.
      * apply carries_composition_obj in H as [_ Hvals]. now apply Hvals.
Qed.

(** C4. When a document is generated and its composition pass printed no
    warning, no node of the object that is written carries a composition: an
    [allOf] key can remain only with a value that [if (obj.allOf)] does not
    take. *)
Theorem output_without_warning_is_flat (file : string) (r : DerefResult) :
  dereferenceSpec E file = (Ok r, []) ->
  carries_composition (output_object (spec r)) = false.
Proof.
  unfold dereferenceSpec.
  match goal with |- context [ match ?b with _ => _ end ] =>
    destruct b as [[m | e] lg] eqn:Hbody end; [ | discriminate ].
  intros [= <- ->]. simpl.
  apply bind_ok in Hbody as (doc & l1 & l2 & _ & Hbody & Hlg).
  symmetry in Hlg. apply app_eq_nil in Hlg as [-> ->].
  apply bind_ok in Hbody as (merged & l1 & l2 & Hmerged & Hbody & Hlg).
  symmetry in Hlg. apply app_eq_nil in Hlg as [-> ->].
  apply bind_ok in Hbody as (cleaned & l1 & l2 & Hcleaned & Hsorted & Hlg).
  injection Hcleaned as Hcleaned _. injection Hsorted as Hsorted _.
  apply output_object_flat.
  apply (sort_methods_flat _ _ Hsorted).
  apply (delete_components_flat _ _ Hcleaned).
  exact (mergeAllOfSchemas_flat E _ _ _ Hmerged).
Qed.

End FlatOutput.

(** ** The sort is a stable sort by name *)

Lemma filter_none {A} (P : A -> Prop) `{forall x, Decision (P x)} (l : list A) :
  (forall x, x ∈ l -> ~ P x) -> filter P l = [].
Proof.
  induction l as [ | x l IH ]; intros Hl; [ reflexivity | ].
  rewrite filter_cons_False by (apply Hl; now left).
  apply IH. intros y Hy. apply Hl. now right.
Qed.

Section SortByName.

Context (E : Env).
Hypothesis Hcmp : consistent (localeCompare E).

Lemma cmp_refl (a : string) : localeCompare E a a = 0%Z.
Proof. destruct Hcmp as [Hflip _]. specialize (Hflip a a). lia. Qed.

Lemma cmp_flip_nonneg (a b : string) :
  (0 <= localeCompare E a b)%Z -> (localeCompare E b a <= 0)%Z.
Proof. destruct Hcmp as [Hflip _]. specialize (Hflip a b). lia. Qed.

Lemma by_name_trans (a b c : json) :
  by_name (localeCompare E) a b -> by_name (localeCompare E) b c ->
  by_name (localeCompare E) a c.
Proof. destruct Hcmp as [_ Htrans]. apply Htrans. Qed.

Lemma compare_names_named (a b : json) :
  named a -> named b ->
  compare_names E a b = Ok (localeCompare E (method_name a) (method_name b)).
Proof.
  unfold named, method_name, name_of, compare_names.
  destruct a as [ | | | | | ka ]; try (now intros [? [=]]).
  destruct b as [ | | | | | kb ]; try (now intros _ [? [=]]).
  simpl. destruct (js_get "name" ka) as [[ | | | s | | ] | ];
    try (now intros [? [=]]).
  destruct (js_get "name" kb) as [[ | | | t | | ] | ];
    try (now intros _ [? [=]]).
Qed.

Lemma sort_insert_named (p : json) (l : list json) :
  named p -> Forall named l ->
  exists l', sort_insert (compare_names E) p l = Ok l'.
Proof.
  intros Hp Hl. induction Hl as [ | x l Hx Hl IH ]; simpl; [ eauto | ].
  rewrite (compare_names_named p x Hp Hx).
  destruct (_ <? 0)%Z; [ eauto | ]. destruct IH as [l' ->]. eauto.
Qed.

Lemma sort_insert_sorted (p : json) (l l' : list json) :
  named p -> Forall named l ->
  StronglySorted (by_name (localeCompare E)) l ->
  sort_insert (compare_names E) p l = Ok l' ->
  StronglySorted (by_name (localeCompare E)) l'.
Proof.
  intros Hp Hl Hs. revert l'.
  induction Hs as [ | x l Hs IH Hx ]; intros l'; simpl.
  - intros [= <-]. repeat constructor.
  - apply Forall_cons in Hl as [Hnx Hl].
    rewrite (compare_names_named p x Hp Hnx).
    destruct (_ <? 0)%Z eqn:Hc.
    + intros [= <-]. apply Z.ltb_lt in Hc.
      assert (Hpx : by_name (localeCompare E) p x) by (unfold by_name; lia).
      constructor; [ now constructor | ]. constructor; [ exact Hpx | ].
      eapply Forall_impl; [ exact Hx | ]. intros y Hy. exact (by_name_trans _ _ _ Hpx Hy).
    + destruct (sort_insert (compare_names E) p l) as [rest | e] eqn:Hins;
        [ | discriminate ].
      intros [= <-]. apply Z.ltb_ge in Hc.
      constructor; [ now apply IH | ].
      apply sort_insert_perm in Hins. rewrite <- Hins.
      constructor; [ now apply cmp_flip_nonneg | exact Hx ].
Qed.

Lemma sort_insert_stable (p : json) (l l' : list json) (s : string) :
  named p -> Forall named l -> StronglySorted (by_name (localeCompare E)) l ->
  sort_insert (compare_names E) p l = Ok l' ->
  filter (fun m => name_of m = Some s) l'
  = filter (fun m => name_of m = Some s) l
    ++ filter (fun m => name_of m = Some s) [p].
Proof.
  intros Hp Hl Hs. revert l'.
  induction Hs as [ | x l Hs IH Hx ]; intros l'; simpl sort_insert.
  - now intros [= <-].
  - apply Forall_cons in Hl as [Hnx Hl].
    rewrite (compare_names_named p x Hp Hnx).
    destruct (_ <? 0)%Z eqn:Hc.
    + intros [= <-]. apply Z.ltb_lt in Hc.
      rewrite (filter_cons _ p). destruct (decide (name_of p = Some s)) as [Hps | Hps].
      * assert (Hnone : filter (fun m => name_of m = Some s) (x :: l) = []).
        { apply filter_none. intros y Hy Hys.
          assert (Hxy : (localeCompare E (method_name x) s <= 0)%Z).
          { apply elem_of_cons in Hy as [-> | Hy].
            - unfold method_name. rewrite Hys. simpl. rewrite cmp_refl. lia.
            - rewrite Forall_forall in Hx. specialize (Hx y Hy).
              unfold by_name in Hx. unfold method_name in Hx at 2.
              now rewrite Hys in Hx. }
          unfold method_name in Hc at 1. rewrite Hps in Hc. simpl in Hc.
          destruct Hcmp as [Hflip _]. apply Hflip in Hc. lia. }
        rewrite Hnone. simpl. rewrite filter_cons, decide_True by exact Hps.
        reflexivity.
      * rewrite (filter_cons_False _ p []) by exact Hps.
        now rewrite filter_nil, app_nil_r.
    + destruct (sort_insert (compare_names E) p l) as [rest | e] eqn:Hins;
        [ | discriminate ].
      intros [= <-]. rewrite (filter_cons _ x), (IH Hl rest eq_refl).
      rewrite (filter_cons _ x l). now destruct (decide (name_of x = Some s)).
Qed.

Lemma sort_from_spec (acc l : list json) :
  Forall named acc -> Forall named l -> StronglySorted (by_name (localeCompare E)) acc ->
  exists l', sort_from (compare_names E) acc l = Ok l'
    /\ StronglySorted (by_name (localeCompare E)) l'
    /\ forall s, filter (fun m => name_of m = Some s) l'
                 = filter (fun m => name_of m = Some s) acc
                   ++ filter (fun m => name_of m = Some s) l.
Proof.
  intros Hacc Hl. revert acc Hacc.
  induction Hl as [ | p l Hp Hl IH ]; intros acc Hacc Hs; simpl.
  - exists acc. repeat split; [ exact Hs | ]. intros s. now rewrite app_nil_r.
  - destruct (sort_insert_named p acc Hp Hacc) as [acc' Hins]. rewrite Hins.
    assert (Hacc' : Forall named acc').
    { apply sort_insert_perm in Hins. rewrite <- Hins. now constructor. }
    destruct (IH acc' Hacc' (sort_insert_sorted _ _ _ Hp Hacc Hs Hins))
      as (l' & Hl' & Hsorted & Hstable).
    exists l'. repeat split; [ exact Hl' | exact Hsorted | ].
    intros s. rewrite Hstable, (sort_insert_stable _ _ _ s Hp Hacc Hs Hins).
    rewrite <- app_assoc. f_equal.
    rewrite (filter_cons _ p []), (filter_cons _ p l), filter_nil.
    now destruct (decide (name_of p = Some s)).
Qed.

End SortByName.

(** C6. When every entry of the top-level [methods] array is an object with a
    string [name] and [localeCompare] is a consistent comparator, the array is
    replaced, in place, by a rearrangement of itself that is in
    [localeCompare] order of the names and in which the entries of any one
    name stand in their original order. *)
Theorem methods_sorted_by_localeCompare (E : Env) (kvs : list (string * json))
    (methods : list json) :
  consistent (localeCompare E) ->
  js_get "methods" kvs = Some (JArr methods) ->
  Forall named methods ->
  exists sorted,
    sort_methods E (JObj kvs) = Ok (JObj (obj_set "methods" (JArr sorted) kvs))
    /\ Permutation methods sorted
    /\ StronglySorted (by_name (localeCompare E)) sorted
    /\ forall s, filter (fun m => name_of m = Some s) sorted
                 = filter (fun m => name_of m = Some s) methods.
Proof.
  intros Hcmp Hget Hnamed.
  destruct (sort_from_spec E Hcmp [] methods) as (sorted & Hsort & Hsorted & Hstable);
    [ constructor | exact Hnamed | constructor | ].
  exists sorted. repeat split.
  - unfold sort_methods. simpl. rewrite Hget. unfold array_sort. now rewrite Hsort.
  - now apply (array_sort_perm (compare_names E)).
  - exact Hsorted.
  - intros s. now rewrite Hstable.
Qed.

(** ** The resolver and circular references *)

Module ResolverFacts.
Import Resolver.

Section Facts.

Context (load : string -> option json).

Lemma resolve_node_eq (fuel : nat) (cur : string) (in_progress : list location)
    (node : json) (c : cache) :
  resolve_node load fuel cur in_progress node c =
  match as_reference node with
  | Some expr =>
      let L := parse_location cur expr in
      if decide (L ∈ in_progress) then
        Fail (Circular_reference (L :: in_progress))
      else
        match cache_lookup L c with
        | Some r => Done (r, c)
        | None =>
            match lookup_location load L with
            | None => Fail (Resolution_failure L)
            | Some sub =>
                match fuel with
                | O => Out_of_fuel
                | S k =>
                    match resolve_node load k (target L) (L :: in_progress) sub c with
                    | Done (r, c') => Done (r, (L, r) :: c')
                    | Fail e => Fail e
                    | Out_of_fuel => Out_of_fuel
                    end
                end
            end
        end
  | None =>
      match node with
      | JArr l =>
          match mapS (resolve_node load fuel cur in_progress) l c with
          | Done (l', c') => Done (JArr l', c')
          | Fail e => Fail e
          | Out_of_fuel => Out_of_fuel
          end
      | JObj kvs =>
          match mapS (fun kv c0 =>
                        match resolve_node load fuel cur in_progress (snd kv) c0 with
                        | Done (v, c1) => Done ((fst kv, v), c1)
                        | Fail e => Fail e
                        | Out_of_fuel => Out_of_fuel
                        end) kvs c with
          | Done (kvs', c') => Done (JObj kvs', c')
          | Fail e => Fail e
          | Out_of_fuel => Out_of_fuel
          end
      | _ => Done (node, c)
      end
  end.
Proof. destruct fuel, node; reflexivity. Qed.

Lemma refs_of_eq (cur : string) (node : json) :
  refs_of cur node =
  match as_reference node with
  | Some expr => [parse_location cur expr]
  | None =>
      match node with
      | JArr l => flat_map (refs_of cur) l
      | JObj kvs => flat_map (fun kv => refs_of cur (snd kv)) kvs
      | _ => []
      end
  end.
Proof. destruct node; reflexivity. Qed.

Lemma refs_of_item (cur : string) (l : list json) (x : json) (L : location) :
  x ∈ l -> L ∈ refs_of cur x -> L ∈ refs_of cur (JArr l).
Proof.
  intros Hx HL. rewrite refs_of_eq. simpl.
  apply list_elem_of_In, in_flat_map. exists x.
  split; now apply list_elem_of_In.
Qed.

Lemma refs_of_value (cur : string) (kvs : list (string * json))
    (kv : string * json) (L : location) :
  as_reference (JObj kvs) = None ->
  kv ∈ kvs -> L ∈ refs_of cur (snd kv) -> L ∈ refs_of cur (JObj kvs).
Proof.
  intros Href Hkv HL. rewrite refs_of_eq, Href.
  apply list_elem_of_In, in_flat_map. exists kv.
  split; now apply list_elem_of_In.
Qed.

Lemma mapS_done {A B} (f : A -> cache -> outcome (B * cache))
    (Inv : cache -> Prop) (P : A -> Prop) (l : list A) (c c' : cache)
    (ys : list B) :
  Forall (fun x => forall c0 y c1,
            Inv c0 -> f x c0 = Done (y, c1) -> P x /\ Inv c1) l ->
  Inv c -> mapS f l c = Done (ys, c') -> Forall P l /\ Inv c'.
Proof.
  intros Hl. revert c ys. induction Hl as [ | x l Hx Hl IH ]; intros c ys Hc; simpl.
  - intros [= <- <-]. split; [ constructor | exact Hc ].
  - destruct (f x c) as [[y c1] | e | ] eqn:Hfx; try discriminate.
    destruct (mapS f l c1) as [[ys' c2] | e | ] eqn:Hrest; try discriminate.
    intros [= <- <-]. destruct (Hx _ _ _ Hc Hfx) as [HP Hc1].
    destruct (IH _ _ Hc1 Hrest) as [HPl Hc2]. split; [ now constructor | exact Hc2 ].
Qed.

Lemma mapS_fail {A B} (f : A -> cache -> outcome (B * cache)) (l : list A)
    (c : cache) (e : resolve_error) :
  mapS f l c = Fail e -> exists x c0, x ∈ l /\ f x c0 = Fail e.
Proof.
  revert c. induction l as [ | x l IH ]; intros c; simpl; [ discriminate | ].
  destruct (f x c) as [[y c1] | e' | ] eqn:Hfx; try discriminate.
  - destruct (mapS f l c1) as [[ys' c2] | e' | ] eqn:Hrest; try discriminate.
    intros [= ->]. destruct (IH _ Hrest) as (x' & c0 & Hin & Hx').
    exists x', c0. split; [ now right | exact Hx' ].
  - intros [= ->]. exists x, c. split; [ now left | exact Hfx ].
Qed.

Lemma mapS_out_of_fuel {A B} (f : A -> cache -> outcome (B * cache))
    (l : list A) (c : cache) :
  mapS f l c = Out_of_fuel -> exists x c0, x ∈ l /\ f x c0 = Out_of_fuel.
Proof.
  revert c. induction l as [ | x l IH ]; intros c; simpl; [ discriminate | ].
  destruct (f x c) as [[y c1] | e' | ] eqn:Hfx; try discriminate.
  - destruct (mapS f l c1) as [[ys' c2] | e' | ] eqn:Hrest; try discriminate.
    intros _. destruct (IH _ Hrest) as (x' & c0 & Hin & Hx').
    exists x', c0. split; [ now right | exact Hx' ].
  - intros _. exists x, c. split; [ now left | exact Hfx ].
Qed.

(** A location whose subtree resolved leads to no circular chain. *)
Lemma jump_cycle_free (L : location) (sub : json) :
  lookup_location load L = Some sub ->
  tree_cycle_free load (target L) sub -> cycle_free load L.
Proof.
  intros Hsub Htree L' Hrtc Hcirc.
  assert (Hstep : forall L1, refers load L L1 -> cycle_free load L1).
  { intros L1 (sub' & Hsub' & Hin). rewrite Hsub in Hsub'. injection Hsub' as <-.
    now apply Htree. }
  apply rtc_inv in Hrtc as [<- | (L1 & HL1 & Hrtc)].
  - unfold circular in Hcirc. inversion Hcirc as [? ? HL1 | ? L1 ? HL1 Htc]; subst.
    + exact (Hstep _ HL1 L (rtc_refl _ _) Hcirc).
    + exact (Hstep _ HL1 L (tc_rtc _ _ Htc) Hcirc).
  - exact (Hstep _ HL1 L' Hrtc Hcirc).
Qed.

(** The resolver returns a tree only when no circular chain can be met. *)
Lemma resolve_done_cycle_free (fuel : nat) :
  forall cur in_progress node c r c',
    cache_cycle_free load c ->
    resolve_node load fuel cur in_progress node c = Done (r, c') ->
    tree_cycle_free load cur node /\ cache_cycle_free load c'.
Proof.
  induction fuel as [fuel IHfuel] using lt_wf_ind.
  intros cur in_progress node. induction node as [ | b | z | s | l IHl | kvs IHkvs ] using json_ind';
    intros c r c' Hc; rewrite resolve_node_eq.
  1-4: (simpl; intros [= <- <-]; split; [ intros L HL; inversion HL | exact Hc ]).
  - simpl. destruct (mapS _ l c) as [[l' c1] | e | ] eqn:Hmap; try discriminate.
    intros [= <- <-].
    destruct (mapS_done _ (cache_cycle_free load) (tree_cycle_free load cur)
                l c c1 l' IHl Hc Hmap) as [Hall Hc1].
    split; [ | exact Hc1 ]. intros L HL. rewrite refs_of_eq in HL. simpl in HL.
    apply list_elem_of_In, in_flat_map in HL as (x & Hx & HL).
    rewrite Forall_forall in Hall. apply (Hall x); now apply list_elem_of_In.
  - destruct (as_reference (JObj kvs)) as [expr | ] eqn:Href.
    + cbv zeta. destruct (decide (_ ∈ in_progress)); [ discriminate | ].
      destruct (cache_lookup _ c) as [r0 | ] eqn:Hcache.
      * intros [= <- <-]. split; [ | exact Hc ].
        intros L HL. rewrite refs_of_eq, Href in HL.
        apply list_elem_of_singleton in HL. subst L. exact (Hc _ _ Hcache).
      * destruct (lookup_location load _) as [sub | ] eqn:Hsub; [ | discriminate ].
        destruct fuel as [ | k ]; [ discriminate | ].
        destruct (resolve_node load k _ _ sub c) as [[r1 c1] | e | ] eqn:Hrec;
          try discriminate.
        intros [= <- <-].
        destruct (IHfuel k (Nat.lt_succ_diag_r k) _ _ _ _ _ _ Hc Hrec) as [Htree Hc1].
        pose proof (jump_cycle_free _ _ Hsub Htree) as Hfree.
        split.
        -- intros L HL. rewrite refs_of_eq, Href in HL.
           apply list_elem_of_singleton in HL. now subst L.
        -- intros L r Hl. simpl in Hl.
           destruct (decide (_ = L)) as [<- | ]; [ exact Hfree | exact (Hc1 _ _ Hl) ].
    + destruct (mapS _ kvs c) as [[kvs' c1] | e | ] eqn:Hmap; try discriminate.
      intros [= <- <-].
      assert (Hstep : Forall (fun kv => forall c0 y c2,
                cache_cycle_free load c0 ->
                match resolve_node load fuel cur in_progress (snd kv) c0 with
                | Done (v, c3) => Done ((fst kv, v), c3)
                | Fail e => Fail e
                | Out_of_fuel => Out_of_fuel
                end = Done (y, c2) ->
                tree_cycle_free load cur (snd kv) /\ cache_cycle_free load c2) kvs).
      { eapply Forall_impl; [ exact IHkvs | ]. intros kv IH c0 y c2 Hc0.
        destruct (resolve_node load fuel cur in_progress (snd kv) c0)
          as [[v c3] | e | ] eqn:Hv; try discriminate.
        intros [= <- <-]. exact (IH _ _ _ Hc0 Hv). }
      destruct (mapS_done _ (cache_cycle_free load)
                  (fun kv => tree_cycle_free load cur (snd kv))
                  kvs c c1 kvs' Hstep Hc Hmap) as [Hall Hc1].
      split; [ | exact Hc1 ]. intros L HL. rewrite refs_of_eq, Href in HL.
      apply list_elem_of_In, in_flat_map in HL as (kv & Hkv & HL).
      rewrite Forall_forall in Hall. apply (Hall kv); now apply list_elem_of_In.
Qed.

(** A resolution failure names a location that was reached and that does
    not resolve. *)
Lemma resolve_failure_reached (fuel : nat) :
  forall cur in_progress node c L,
    resolve_node load fuel cur in_progress node c = Fail (Resolution_failure L) ->
    reaches load cur node L /\ lookup_location load L = None.
Proof.
  induction fuel as [fuel IHfuel] using lt_wf_ind.
  intros cur in_progress node. induction node as [ | b | z | s | l IHl | kvs IHkvs ] using json_ind';
    intros c L; rewrite resolve_node_eq; try discriminate.
  - simpl. destruct (mapS _ l c) as [[l' c1] | e | ] eqn:Hmap; try discriminate.
    intros [= ->]. apply mapS_fail in Hmap as (x & c0 & Hx & Hfail).
    rewrite Forall_forall in IHl.
    destruct (IHl x Hx _ _ Hfail) as [(L0 & HL0 & Hrtc) Hnone].
    split; [ | exact Hnone ]. exists L0. split; [ | exact Hrtc ].
    now apply (refs_of_item cur l x).
  - destruct (as_reference (JObj kvs)) as [expr | ] eqn:Href.
    + cbv zeta. destruct (decide (_ ∈ in_progress)); [ discriminate | ].
      destruct (cache_lookup _ c) as [r0 | ]; [ discriminate | ].
      destruct (lookup_location load _) as [sub | ] eqn:Hsub.
      * destruct fuel as [ | k ]; [ discriminate | ].
        destruct (resolve_node load k _ _ sub c) as [[r1 c1] | e | ] eqn:Hrec;
          try discriminate.
        intros [= ->].
        destruct (IHfuel k (Nat.lt_succ_diag_r k) _ _ _ _ _ Hrec)
          as [(L0 & HL0 & Hrtc) Hnone].
        split; [ | exact Hnone ].
        exists (parse_location cur expr). split.
        -- rewrite refs_of_eq, Href. now left.
        -- apply rtc_l with L0; [ | exact Hrtc ]. exists sub. now split.
      * intros [= <-]. split; [ | exact Hsub ].
        exists (parse_location cur expr). split; [ | apply rtc_refl ].
        rewrite refs_of_eq, Href. now left.
    + destruct (mapS _ kvs c) as [[kvs' c1] | e | ] eqn:Hmap; try discriminate.
      intros [= ->]. apply mapS_fail in Hmap as (kv & c0 & Hkv & Hfail).
      destruct (resolve_node load fuel cur in_progress (snd kv) c0)
        as [[v c3] | e | ] eqn:Hv; try discriminate.
      injection Hfail as ->. rewrite Forall_forall in IHkvs.
      destruct (IHkvs kv Hkv _ _ Hv)
        as [(L0 & HL0 & Hrtc) Hnone].
      split; [ | exact Hnone ]. exists L0. split; [ | exact Hrtc ].
      now apply (refs_of_value cur kvs kv).
Qed.

(** With finitely many resolvable locations, listed by [U], the in-progress
    set cannot grow beyond them: resolution ends. *)
Lemma resolve_has_fuel (U : list location) :
  (forall L, is_Some (lookup_location load L) -> L ∈ U) ->
  forall fuel cur in_progress node c,
    NoDup in_progress ->
    (forall L, L ∈ in_progress -> L ∈ U) ->
    length U < fuel + length in_progress ->
    resolve_node load fuel cur in_progress node c <> Out_of_fuel.
Proof.
  intros HU fuel. induction fuel as [fuel IHfuel] using lt_wf_ind.
  intros cur in_progress node. induction node as [ | b | z | s | l IHl | kvs IHkvs ] using json_ind';
    intros c Hnodup Hsub Hlen; rewrite resolve_node_eq; try discriminate.
  - simpl. destruct (mapS _ l c) as [[l' c1] | e | ] eqn:Hmap; try discriminate.
    apply mapS_out_of_fuel in Hmap as (x & c0 & Hx & Hout).
    rewrite Forall_forall in IHl.
    now destruct (IHl x Hx c0 Hnodup Hsub Hlen).
  - destruct (as_reference (JObj kvs)) as [expr | ] eqn:Href.
    + cbv zeta. destruct (decide (_ ∈ in_progress)) as [ | Hnew ]; [ discriminate | ].
      destruct (cache_lookup _ c) as [r0 | ]; [ discriminate | ].
      destruct (lookup_location load _) as [sub | ] eqn:Hlook; [ | discriminate ].
      set (L := parse_location cur expr) in *.
      assert (HLU : L ∈ U) by (apply HU; exists sub; exact Hlook).
      assert (Hnodup' : NoDup (L :: in_progress)) by now constructor.
      assert (Hsub' : forall L', L' ∈ L :: in_progress -> L' ∈ U).
      { intros L' HL'. apply elem_of_cons in HL' as [-> | HL']; auto. }
      assert (Hbound : length (L :: in_progress) <= length U).
      { apply NoDup_incl_length; [ now apply NoDup_ListNoDup | ].
        intros L' HL'. apply list_elem_of_In, Hsub', list_elem_of_In, HL'. }
      simpl in Hbound. destruct fuel as [ | k ]; [ simpl in Hlen; lia | ].
      assert (Hrec : resolve_node load k (target L) (L :: in_progress) sub c
                     <> Out_of_fuel).
      { apply IHfuel; [ lia | exact Hnodup' | exact Hsub' | simpl; lia ]. }
      now destruct (resolve_node load k _ _ sub c) as [[r1 c1] | e | ].
    + destruct (mapS _ kvs c) as [[kvs' c1] | e | ] eqn:Hmap; try discriminate.
      apply mapS_out_of_fuel in Hmap as (kv & c0 & Hkv & Hout).
      rewrite Forall_forall in IHkvs.
      specialize (IHkvs kv Hkv c0 Hnodup Hsub Hlen).
      now destruct (resolve_node load fuel cur in_progress (snd kv) c0)
        as [[v c3] | e | ].
Qed.

(** What the resolver does with a document in which a circular chain can be
    met. *)
Lemma resolve_circular (U : list location) (fuel : nat) (doc : string)
    (root : json) (L : location) :
  (forall L, is_Some (lookup_location load L) -> L ∈ U) ->
  load doc = Some root ->
  reaches load doc root L ->
  circular load L ->
  length U < fuel ->
  exists e, resolve load fuel doc = Fail e
    /\ ((forall L', reaches load doc root L' -> is_Some (lookup_location load L')) ->
        exists cycle, e = Circular_reference cycle).
Proof.
  intros HU Hroot (L0 & HL0 & Hrtc) Hcirc Hfuel. unfold resolve. rewrite Hroot.
  destruct (resolve_node load fuel doc [] root []) as [[r c] | e | ] eqn:Hres.
  - exfalso.
    destruct (resolve_done_cycle_free fuel doc [] root [] r c) as [Htree _];
      [ intros ? ? [=] | exact Hres | ].
    exact (Htree L0 HL0 L Hrtc Hcirc).
  - exists e. split; [ reflexivity | ]. intros Hall.
    destruct e as [cycle | L']; [ eauto | ].
    apply resolve_failure_reached in Hres as [Hreach Hnone].
    apply Hall in Hreach. rewrite Hnone in Hreach. now destruct Hreach.
  - exfalso. revert Hres. apply (resolve_has_fuel U HU).
    + constructor.
    + intros ? H. inversion H.
    + simpl. lia.
Qed.

End Facts.

End ResolverFacts.

(** ** A failed document leaves no artifact *)

Lemma dereference_throw_pipeline (E : Env) (file e : string) :
  RefParser_dereference E file = Throw e -> pipeline E file = Throw e.
Proof.
  intros H. unfold pipeline, dereferenceSpec. now rewrite H.
Qed.

Lemma writes_are_artifacts (E : Env) (specificFile : option string)
    (disk0 : gmap string string) (w : string * (string * string)) :
  w ∈ writes (generateSpecs E specificFile disk0) ->
  artifact E (fst w) = Some (snd w).
Proof.
  unfold generateSpecs. destruct (ensure_output_dir E); [ | now inversion 1 ].
  destruct (select_specFiles E specificFile) as [[[files | ] | e] lg];
    try (now inversion 1).
  rewrite process_all_spec. simpl. intros H.
  apply list_elem_of_omap in H as (f & _ & Hf).
  destruct (artifact E f) as [art | ] eqn:Hart; [ | discriminate ].
  injection Hf as <-. exact Hart.
Qed.

Lemma no_artifact_no_output (E : Env) (specificFile : option string)
    (disk0 : gmap string string) (file : string) :
  artifact E file = None ->
  output_for (generateSpecs E specificFile disk0) file = None.
Proof.
  intros Hnone. unfold output_for.
  destruct (List.find _ _) as [w | ] eqn:Hfind; [ | reflexivity ].
  apply find_some in Hfind as [Hin Hw]. apply String.eqb_eq in Hw.
  apply list_elem_of_In, writes_are_artifacts in Hin. congruence.
Qed.

(** C7. Take the resolver of the spec as the dereferencing step, over a store
    with finitely many resolvable locations and with enough fuel for them.  A
    document from which a circular reference chain can be met is never
    returned resolved: resolution fails.  The error is the circular-reference
    error whenever every reference met resolves to something; otherwise it
    may be the resolution-failure error of a dangling reference that the
    traversal meets, and it then names such a reference.  The pipeline of
    the document throws that error, and no run writes an artifact for it. *)
Theorem circular_reference_fails (E : Env) (load : string -> option json)
    (U : list Resolver.location) (fuel : nat) (doc : string) (root : json)
    (L : Resolver.location) :
  RefParser_dereference E doc = Resolver.dereference load fuel doc ->
  (forall L', is_Some (Resolver.lookup_location load L') -> L' ∈ U) ->
  load doc = Some root ->
  Resolver.reaches load doc root L ->
  Resolver.circular load L ->
  length U < fuel ->
  (exists e,
      Resolver.resolve load fuel doc = Resolver.Fail e
      /\ ((forall L', Resolver.reaches load doc root L' ->
                      is_Some (Resolver.lookup_location load L')) ->
          exists cycle, e = Resolver.Circular_reference cycle)
      /\ (forall L', e = Resolver.Resolution_failure L' ->
            Resolver.reaches load doc root L'
            /\ Resolver.lookup_location load L' = None)
      /\ pipeline E doc = Throw (Resolver.error_message e))
  /\ artifact E doc = None
  /\ forall specificFile disk0,
       output_for (generateSpecs E specificFile disk0) doc = None.
Proof.
  intros Hderef HU Hroot Hreach Hcirc Hfuel.
  destruct (ResolverFacts.resolve_circular load U fuel doc root L
              HU Hroot Hreach Hcirc Hfuel) as (e & Hres & Hkind).
  assert (Hpipe : pipeline E doc = Throw (Resolver.error_message e)).
  { apply dereference_throw_pipeline. rewrite Hderef.
    unfold Resolver.dereference. now rewrite Hres. }
  assert (Hart : artifact E doc = None) by (unfold artifact; now rewrite Hpipe).
  assert (Hdangling : forall L', e = Resolver.Resolution_failure L' ->
            Resolver.reaches load doc root L'
            /\ Resolver.lookup_location load L' = None).
  { intros L' ->. unfold Resolver.resolve in Hres. rewrite Hroot in Hres.
    destruct (Resolver.resolve_node load fuel doc [] root []) as [[r c] | e | ]
      eqn:Hnode; try discriminate.
    injection Hres as ->.
    exact (ResolverFacts.resolve_failure_reached load fuel _ _ _ _ _ Hnode). }
  split; [ exists e; split; [ exact Hres | split; [ exact Hkind | split;
    [ exact Hdangling | exact Hpipe ] ] ] | ].
  split; [ exact Hart | ].
  intros specificFile disk0. now apply no_artifact_no_output.
Qed.

(** ** The script on concrete documents *)

Module Runs.
Import Fixture Docs.

(** The spec's laws of composition, on the fixture's merge: the required
    lists are united, a later scalar type overrides an earlier one, and a
    property defined twice is merged by the second walk. *)
Example composition_set_union :
  merge_allOf
    (JObj [("allOf", JArr [JObj [("required", JArr [JStr "a"; JStr "b"])];
                           JObj [("required", JArr [JStr "b"; JStr "c"])]])])
  = Ok (JObj [("required", JArr [JStr "a"; JStr "b"; JStr "c"])]).
Proof. reflexivity. Qed.

Example composition_override :
  merge_allOf
    (JObj [("allOf", JArr [JObj [("type", JStr "integer")];
                           JObj [("type", JStr "string")]])])
  = Ok (JObj [("type", JStr "string")]).
Proof. reflexivity. Qed.

Example composition_of_properties :
  mergeAllOfSchemas mergeable_host 8
    (JObj [("allOf",
            JArr [JObj [("properties",
                         JObj [("id", JObj [("type", JStr "integer")])])];
                  JObj [("properties",
                         JObj [("id", JObj [("minimum", JNum 1)])])]])])
  = (Ok (JObj [("properties",
                JObj [("id", JObj [("type", JStr "integer");
                                   ("minimum", JNum 1)])])]), []).
Proof. reflexivity. Qed.

(** A document whose file cannot be written is reported as failed and yet
    counted as processed: it was pushed to [results] before the write. *)
Example unwritable_document_is_counted :
  console (generateSpecs batch_unwritable None ∅)
  = [Error_line "Error resolving $ref pointer specs/two.yaml#/components/missing";
     Failed_to_process "two.yaml"
       "Error resolving $ref pointer specs/two.yaml#/components/missing";
     Failed_to_process "three.yaml" "EISDIR: illegal operation on a directory";
     Generation_complete 2 3]
  /\ map fst (writes (generateSpecs batch_unwritable None ∅)) = ["specs/one.yaml"].
Proof. split; reflexivity. Qed.

(** C1, as the spec states it, fails: the document with the conflicting
    composition is generated, composition in place, with a warning only. *)
Lemma conflicting_document_is_generated :
  mergeAllOf conflicting_host
    (JObj [("allOf", JArr [JObj [("type", JStr "string")];
                           JObj [("type", JStr "object")]])])
  = Throw "Schema conflict: cannot reconcile the values of type"
  /\ promises (generateSpecs conflicting_host None ∅)
     = [("specs/c.yaml", Some {| spec := conflicting; fileName := "c" |})]
  /\ fst <$> output_for (generateSpecs conflicting_host None ∅) "specs/c.yaml"
     = Some "generated/c.json"
  /\ console (generateSpecs conflicting_host None ∅)
     = [Warn_could_not_merge "Schema conflict: cannot reconcile the values of type";
        Generation_complete 1 1]
  /\ main conflicting_host None ∅ = 0%Z.
Proof. vm_compute. repeat split; reflexivity. Qed.

(** C4, as the spec states it, fails: generated documents whose output
    carries an [allOf] key, one after a merge conflict and one, with no
    warning at all, because the key's value is [null]. *)
Lemma generated_output_keeps_allOf :
  (promise conflicting_host "specs/c.yaml"
   = Some {| spec := conflicting; fileName := "c" |}
   /\ carries_allOf_key (output_object conflicting) = true)
  /\ (dereferenceSpec null_host "specs/n.yaml"
      = (Ok {| spec := null_composition; fileName := "n" |}, [])
      /\ is_Some (artifact null_host "specs/n.yaml")
      /\ carries_allOf_key (output_object null_composition) = true).
Proof. vm_compute. repeat split; try reflexivity. eexists. reflexivity. Qed.

(** C5, as the spec states it, fails: a document that has the marker key is
    written without error, and its own value stands under the key. *)
Lemma marker_collision_is_written :
  js_get warning_key (spread marked) = Some (JStr "mine")
  /\ promise marked_host "specs/k.yaml"
     = Some {| spec := marked; fileName := "k" |}
  /\ writeSpec marked_host "k" marked ∅
     = Ok {[ "generated/k.json" := stringify "" marked ]}
  /\ output_object marked = marked.
Proof. vm_compute. repeat split; reflexivity. Qed.

(** C6, as the spec states it, fails: [Zeta] comes before [alpha] in the
    ordinary lexicographic order, and the script puts it after. *)
Lemma methods_not_in_lexicographic_order :
  sort_methods mixed_case_host mixed_case
  = Ok (JObj [("methods", JArr [JObj [("name", JStr "alpha")];
                                JObj [("name", JStr "Zeta")]])])
  /\ lexicographic "Zeta" "alpha" = (-1)%Z
  /\ ~ StronglySorted (by_name lexicographic)
         [JObj [("name", JStr "alpha")]; JObj [("name", JStr "Zeta")]].
Proof.
  split; [ reflexivity | ]. split; [ reflexivity | ].
  intros H. inversion H as [ | ? ? _ Hall ]; subst.
  inversion Hall as [ | ? ? Hle _ ]; subst.
  vm_compute in Hle. now apply Hle.
Qed.

(** The fixture's [localeCompare] is a consistent comparator. *)
Lemma compare_keys_antisym (k1 k2 : list nat) :
  compare_keys k2 k1 = CompOpp (compare_keys k1 k2).
Proof.
  revert k2. induction k1 as [ | x k1 IH ]; intros [ | y k2 ]; simpl;
    try reflexivity.
  rewrite (Nat.compare_antisym x y).
  destruct (x ?= y)%nat; simpl; [ apply IH | reflexivity | reflexivity ].
Qed.

Lemma compare_keys_trans (k1 k2 k3 : list nat) :
  compare_keys k1 k2 <> Gt -> compare_keys k2 k3 <> Gt ->
  compare_keys k1 k3 <> Gt.
Proof.
  revert k2 k3. induction k1 as [ | x k1 IH ]; intros [ | y k2 ] [ | z k3 ];
    simpl; try congruence.
  destruct (Nat.compare_spec x y), (Nat.compare_spec y z),
    (Nat.compare_spec x z); try congruence; try lia; subst.
  apply IH.
Qed.

Lemma locale_compare_consistent : consistent locale_compare.
Proof.
  unfold consistent, locale_compare. split.
  - intros a b. rewrite (compare_keys_antisym (collation_key a) (collation_key b)).
    destruct (compare_keys (collation_key a) (collation_key b)); simpl; lia.
  - intros a b c Hab Hbc.
    pose proof (compare_keys_trans (collation_key a) (collation_key b) (collation_key c)) as H.
    destruct (compare_keys (collation_key a) (collation_key b));
      destruct (compare_keys (collation_key b) (collation_key c));
      destruct (compare_keys (collation_key a) (collation_key c));
      try lia; exfalso; apply H; congruence.
Qed.

(** The batch of three documents of which the second has an unresolvable
    reference and the third cannot be written: the first is written, the
    other two are reported as failed, and the summary counts two documents
    out of three as processed. *)
Lemma failures_are_isolated_witness :
  (artifact batch_unwritable "specs/two.yaml" = None
   /\ artifact batch_unwritable "specs/three.yaml" = None
   /\ is_Some (artifact batch_unwritable "specs/one.yaml"))
  /\ output_for (generateSpecs batch_unwritable None ∅) "specs/one.yaml"
     = artifact batch_unwritable "specs/one.yaml"
  /\ map fst (promises (generateSpecs batch_unwritable None ∅))
     = ["specs/one.yaml"; "specs/two.yaml"; "specs/three.yaml"]
  /\ List.filter is_failure_line
       (console (generateSpecs batch_unwritable None ∅))
     = [Failed_to_process "two.yaml"
          "Error resolving $ref pointer specs/two.yaml#/components/missing";
        Failed_to_process "three.yaml"
          "EISDIR: illegal operation on a directory"]
  /\ last (console (generateSpecs batch_unwritable None ∅))
     = Some (Generation_complete 2 3).
Proof.
  split; [ vm_compute; repeat split; eexists; reflexivity | ].
  destruct (failures_are_isolated batch_unwritable None ∅
              ["specs/one.yaml"; "specs/two.yaml"; "specs/three.yaml"] []
              eq_refl eq_refl) as (_ & Hdocs & _ & _ & _ & Hlast & _).
  split; [ apply Hdocs, list_elem_of_In; simpl; tauto | ].
  split; [ reflexivity | ]. split; [ reflexivity | exact Hlast ].
Defined.

Lemma failed_document_exits_zero_witness :
  (pipeline batch "specs/two.yaml"
   = Throw "Error resolving $ref pointer specs/two.yaml#/components/missing")
  /\ main batch None ∅ = 0%Z.
Proof.
  split; [ reflexivity | ].
  apply (failed_document_exits_zero batch None ∅
           ["specs/one.yaml"; "specs/two.yaml"; "specs/three.yaml"] []
           "specs/two.yaml"
           "Error resolving $ref pointer specs/two.yaml#/components/missing");
    [ reflexivity | reflexivity | | reflexivity ].
  apply list_elem_of_In. simpl. tauto.
Defined.

Lemma incremental_matches_full_witness :
  output_for (generateSpecs batch (Some "alchemy/specs/one.yaml") ∅)
    "specs/one.yaml"
  = output_for (generateSpecs batch None ∅) "specs/one.yaml".
Proof.
  apply (incremental_matches_full batch ∅
           ["one.yaml"; "two.yaml"; "_shared.yaml"; "three.yaml"; "notes.md"]
           "one.yaml" "alchemy/specs/one.yaml");
    [ reflexivity | apply list_elem_of_In; simpl; tauto | reflexivity
    | discriminate | reflexivity | reflexivity ].
Defined.

Lemma empty_full_build_succeeds_witness :
  generateSpecs no_specs None ∅
  = {| settled := Resolved; promises := []; results := []; writes := [];
       disk := ∅; console := [No_spec_files_found] |}
  /\ main no_specs None ∅ = 0%Z.
Proof.
  apply (empty_full_build_succeeds no_specs None ∅
           ["_shared.yaml"; "README.md"]); reflexivity.
Defined.

Lemma missing_file_returns_witness :
  generateSpecs batch (Some "alchemy/specs/nope.yaml") ∅
  = {| settled := Resolved; promises := []; results := []; writes := [];
       disk := ∅; console := [File_not_found "specs/nope.yaml"] |}
  /\ main batch (Some "alchemy/specs/nope.yaml") ∅ = 0%Z.
Proof.
  apply (missing_file_returns batch "alchemy/specs/nope.yaml" ∅);
    [ reflexivity | discriminate | reflexivity | reflexivity ].
Defined.

Lemma output_without_warning_is_flat_witness :
  dereferenceSpec mergeable_host "specs/m.yaml"
  = (Ok {| spec :=
             JObj [("methods",
                    JArr [JObj [("name", JStr "get");
                                ("result",
                                 JObj [("type", JStr "object");
                                       ("required", JArr [JStr "id"])])]])];
           fileName := "m" |}, [])
  /\ carries_composition
       (output_object
          (JObj [("methods",
                  JArr [JObj [("name", JStr "get");
                              ("result",
                               JObj [("type", JStr "object");
                                     ("required", JArr [JStr "id"])])]])]))
     = false.
Proof.
  split; [ reflexivity | ].
  apply (output_without_warning_is_flat mergeable_host "specs/m.yaml"
           {| spec := _; fileName := "m" |}).
  reflexivity.
Defined.

(** The spec's example: [zeta, alpha, alpha] sorts to [alpha, alpha, zeta],
    the two [alpha] entries in their original order. *)
Lemma methods_sorted_by_localeCompare_witness :
  exists sorted,
    sort_methods batch petstore
    = Ok (JObj (obj_set "methods" (JArr sorted)
                  [("openrpc", JStr "1.2.4");
                   ("methods",
                    JArr [JObj [("name", JStr "zeta");
                                ("result", JObj [("$ref", JStr "#/components/schemas/Id")])];
                          JObj [("name", JStr "alpha"); ("summary", JStr "first")];
                          JObj [("name", JStr "alpha"); ("summary", JStr "second")]]);
                   ("components",
                    JObj [("schemas", JObj [("Id", JObj [("type", JStr "string")])])])]))
    /\ filter (fun m => name_of m = Some "alpha") sorted
       = [JObj [("name", JStr "alpha"); ("summary", JStr "first")];
          JObj [("name", JStr "alpha"); ("summary", JStr "second")]].
Proof.
  destruct (methods_sorted_by_localeCompare batch
              [("openrpc", JStr "1.2.4");
               ("methods",
                JArr [JObj [("name", JStr "zeta");
                            ("result", JObj [("$ref", JStr "#/components/schemas/Id")])];
                      JObj [("name", JStr "alpha"); ("summary", JStr "first")];
                      JObj [("name", JStr "alpha"); ("summary", JStr "second")]]);
               ("components",
                JObj [("schemas", JObj [("Id", JObj [("type", JStr "string")])])])]
              [JObj [("name", JStr "zeta");
                     ("result", JObj [("$ref", JStr "#/components/schemas/Id")])];
               JObj [("name", JStr "alpha"); ("summary", JStr "first")];
               JObj [("name", JStr "alpha"); ("summary", JStr "second")]]
              locale_compare_consistent eq_refl)
    as (sorted & Hsort & _ & _ & Hstable).
  - repeat constructor; eexists; reflexivity.
  - exists sorted. split; [ exact Hsort | ]. rewrite Hstable. reflexivity.
Defined.

(** The spec's example of a cycle: [a] references [b] and [b] references
    [a]. *)
Lemma cyclic_locations_complete (L : Resolver.location) :
  is_Some (Resolver.lookup_location (load [("specs/cyc.yaml", cyclic)]) L) ->
  L ∈ cyclic_locations.
Proof.
  destruct L as [t p]. intros [v Hv].
  unfold Resolver.lookup_location, load, cyclic in Hv.
  cbn [List.find fst snd Resolver.target Resolver.pointer] in Hv.
  destruct (String.eqb_spec "specs/cyc.yaml" t) as [<- | ];
    [ | discriminate ].
  cbn [fmap option_fmap option_map snd] in Hv. apply list_elem_of_In.
  destruct p as [ | s1 p ]; [ simpl; tauto | ].
  cbn [Resolver.navigate js_get] in Hv.
  destruct (String.eqb_spec "b" s1) as [<- | ];
    [ | destruct (String.eqb_spec "a" s1) as [<- | ]; [ | discriminate ] ].
  - destruct p as [ | s2 p ]; [ simpl; tauto | ].
    cbn [Resolver.navigate js_get] in Hv.
    destruct (String.eqb_spec "$ref" s2) as [<- | ]; [ | discriminate ].
    destruct p as [ | s3 p ]; [ simpl; tauto | discriminate ].
  - destruct p as [ | s2 p ]; [ simpl; tauto | ].
    cbn [Resolver.navigate js_get] in Hv.
    destruct (String.eqb_spec "$ref" s2) as [<- | ]; [ | discriminate ].
    destruct p as [ | s3 p ]; [ simpl; tauto | discriminate ].
Qed.

Lemma circular_reference_fails_witness :
  Resolver.resolve (load [("specs/cyc.yaml", cyclic)]) 64 "specs/cyc.yaml"
  = Resolver.Fail
      (Resolver.Circular_reference
         [ {| Resolver.target := "specs/cyc.yaml"; Resolver.pointer := ["b"] |};
           {| Resolver.target := "specs/cyc.yaml"; Resolver.pointer := ["a"] |};
           {| Resolver.target := "specs/cyc.yaml"; Resolver.pointer := ["b"] |} ])
  /\ artifact cyclic_host "specs/cyc.yaml" = None
  /\ output_for (generateSpecs cyclic_host None ∅) "specs/cyc.yaml" = None.
Proof.
  split; [ reflexivity | ].
  destruct (circular_reference_fails cyclic_host
              (load [("specs/cyc.yaml", cyclic)]) cyclic_locations 64
              "specs/cyc.yaml" cyclic
              {| Resolver.target := "specs/cyc.yaml"; Resolver.pointer := ["b"] |})
    as (_ & Hart & Hout).
  - reflexivity.
  - exact cyclic_locations_complete.
  - reflexivity.
  - eexists. split; [ apply list_elem_of_In; simpl; left; reflexivity | apply rtc_refl ].
  - apply tc_l with {| Resolver.target := "specs/cyc.yaml"; Resolver.pointer := ["a"] |}.
    + eexists. split; [ reflexivity | ]. apply list_elem_of_In. simpl. now left.
    + apply tc_once. eexists. split; [ reflexivity | ].
      apply list_elem_of_In. simpl. now left.
  - simpl. lia.
  - split; [ exact Hart | apply Hout ].
Defined.

(** C7, as the spec states it, fails: in this document [b] and [c] reference
    each other, but the traversal meets the dangling reference of [a] first
    and resolution fails with the resolution-failure error; the cycle is
    never reported.  No artifact is written. *)
Lemma cycle_behind_dangling_reference :
  Resolver.reaches (load [("specs/cd.yaml", MoreDocs.cyclic_dangling)])
    "specs/cd.yaml" MoreDocs.cyclic_dangling
    {| Resolver.target := "specs/cd.yaml"; Resolver.pointer := ["c"] |}
  /\ Resolver.circular (load [("specs/cd.yaml", MoreDocs.cyclic_dangling)])
       {| Resolver.target := "specs/cd.yaml"; Resolver.pointer := ["c"] |}
  /\ Resolver.resolve (load [("specs/cd.yaml", MoreDocs.cyclic_dangling)]) 64
       "specs/cd.yaml"
     = Resolver.Fail
         (Resolver.Resolution_failure
            {| Resolver.target := "specs/cd.yaml";
               Resolver.pointer := ["missing"] |})
  /\ pipeline MoreDocs.cyclic_dangling_host "specs/cd.yaml"
     = Throw "Error resolving $ref pointer specs/cd.yaml#/missing"
  /\ artifact MoreDocs.cyclic_dangling_host "specs/cd.yaml" = None.
Proof.
  split; [ | split; [ | split; [ reflexivity | split; reflexivity ] ] ].
  - eexists. split; [ apply list_elem_of_In; simpl; right; left; reflexivity
                    | apply rtc_refl ].
  - apply tc_l with {| Resolver.target := "specs/cd.yaml";
                       Resolver.pointer := ["b"] |}.
    + eexists. split; [ reflexivity | ]. apply list_elem_of_In. simpl. now left.
    + apply tc_once. eexists. split; [ reflexivity | ].
      apply list_elem_of_In. simpl. now left.
Qed.

End Runs.

(** * Further properties of the generator *)

(** ** The output directory after a run *)

Section OutputDirectory.

Context (E : Env).

Lemma fold_apply_write_agree (ws : list (string * (string * string)))
    (d1 d2 : gmap string string) :
  (forall k, d1 !! k = d2 !! k \/ exists w, w ∈ ws /\ fst (snd w) = k) ->
  fold_left apply_write ws d1 = fold_left apply_write ws d2.
Proof.
  revert d1 d2. induction ws as [ | w ws IH ]; intros d1 d2 H.
  - simpl. apply map_eq. intros k. destruct (H k) as [Hk | (w & Hw & _)];
      [ exact Hk | inversion Hw ].
  - simpl. apply IH. intros k. unfold apply_write.
    destruct (decide (fst (snd w) = k)) as [<- | Hne].
    + left. now rewrite !lookup_insert_eq.
    + rewrite !lookup_insert_ne by exact Hne.
      destruct (H k) as [Hk | (w' & Hw' & Hk')]; [ now left | right ].
      apply elem_of_cons in Hw' as [-> | Hw']; [ contradiction | eauto ].
Qed.

Lemma fold_apply_write_twice (ws : list (string * (string * string)))
    (d : gmap string string) :
  fold_left apply_write ws (fold_left apply_write ws d)
  = fold_left apply_write ws d.
Proof.
  apply fold_apply_write_agree. intros k.
  destruct (decide (Exists (fun w => fst (snd w) = k) ws)) as [Hex | Hno].
  - right. apply Exists_exists in Hex. exact Hex.
  - left. apply fold_apply_write_other. intros w Hw Hk. apply Hno.
    apply Exists_exists. eauto.
Qed.

Lemma generateSpecs_disk (specificFile : option string)
    (disk0 : gmap string string) :
  disk (generateSpecs E specificFile disk0)
  = fold_left apply_write (writes (generateSpecs E specificFile disk0)) disk0.
Proof.
  unfold generateSpecs. destruct (ensure_output_dir E); [ | reflexivity ].
  destruct (select_specFiles E specificFile) as [[[files | ] | e] lg];
    try reflexivity.
  now rewrite process_all_spec.
Qed.

Lemma generateSpecs_writes (specificFile : option string)
    (disk0 : gmap string string) (w : string * (string * string)) :
  w ∈ writes (generateSpecs E specificFile disk0) ->
  artifact E (fst w) = Some (snd w).
Proof.
  unfold generateSpecs. destruct (ensure_output_dir E); [ | intros H; inversion H ].
  destruct (select_specFiles E specificFile) as [[[files | ] | e] lg];
    try (intros H; now inversion H).
  rewrite process_all_spec. cbn [writes app].
  intros H. apply list_elem_of_omap in H as (f & _ & Hf).
  destruct (artifact E f) as [a0 | ] eqn:Ha0; [ | discriminate ].
  simpl in Hf. injection Hf as <-. simpl. exact Ha0.
Qed.

(** X1. A run changes the output directory only at artifact paths: every
    file it writes is the artifact of the document whose callback wrote it,
    at the path made of the output directory, the input's base name without
    its extension and [.json]; a path at which the run wrote nothing holds
    after the run what it held before, so the artifact of a document that
    fails, or that is no longer in the specs directory, is neither removed
    nor touched. *)
Theorem run_only_writes_artifacts (specificFile : option string)
    (disk0 : gmap string string) :
  (forall w, w ∈ writes (generateSpecs E specificFile disk0) ->
     artifact E (fst w) = Some (snd w)
     /\ fst (snd w) = artifact_path E (fst w))
  /\ (forall k,
        (forall w, w ∈ writes (generateSpecs E specificFile disk0) ->
           fst (snd w) <> k) ->
        disk (generateSpecs E specificFile disk0) !! k = disk0 !! k)
  /\ (forall k, is_Some (disk0 !! k) ->
        is_Some (disk (generateSpecs E specificFile disk0) !! k)).
Proof.
  split; [ | split ].
  - intros w Hw. pose proof (generateSpecs_writes _ _ _ Hw) as Ha.
    split; [ exact Ha | ]. apply artifact_at in Ha.
    destruct (snd w). now injection Ha as -> _.
  - intros k Hk. rewrite generateSpecs_disk. now apply fold_apply_write_other.
  - intros k Hk. rewrite generateSpecs_disk.
    generalize (writes (generateSpecs E specificFile disk0)). intros ws.
    revert disk0 Hk. induction ws as [ | w ws IH ]; intros d Hk; [ exact Hk | ].
    simpl. apply IH. unfold apply_write.
    destruct (decide (fst (snd w) = k)) as [<- | Hne].
    + rewrite lookup_insert_eq. eauto.
    + now rewrite lookup_insert_ne.
Qed.

End OutputDirectory.

(** ** The choice of the documents *)

Section Selection.

Context (E : Env).

Lemma select_full_mode (specificFile : option string) :
  full_mode E specificFile = true ->
  fst (select_specFiles E specificFile) = fst (full_build E).
Proof.
  unfold full_mode, select_specFiles. destruct specificFile as [p | ];
    [ | reflexivity ].
  destruct (p =? ""); [ reflexivity | ]. simpl. intros ->.
  now destruct (full_build E).
Qed.

Lemma select_incremental (specificFile : option string) :
  full_mode E specificFile = false ->
  exists r lg, select_specFiles E specificFile = (Ok r, lg).
Proof.
  unfold full_mode, select_specFiles. destruct specificFile as [p | ];
    [ | discriminate ].
  destruct (p =? ""); [ discriminate | ]. simpl. intros ->.
  destruct (fs_existsSync E _); eauto.
Qed.

Lemma full_build_throws (e : string) :
  fst (full_build E) = Throw e <-> fs_readdirSync E (SPECS_DIR E) = Throw e.
Proof.
  unfold full_build. destruct (fs_readdirSync E _) as [names | e0].
  - destruct (_ =? _)%nat; simpl; split; discriminate.
  - simpl. split; congruence.
Qed.

(** X3. The command exits with 1 exactly when the output directory is
    missing and cannot be created, or when a full build (no argument, an
    empty one, or a shared component) cannot list the specs directory.  In
    that case no document is attempted and nothing is written.  No failure
    of a document, and no file named on the command line, makes it exit
    with 1. *)
Theorem exit_code_one (argv2 : option string) (disk0 : gmap string string) :
  (main E argv2 disk0 = 1%Z <->
     (exists e, ensure_output_dir E = Throw e)
     \/ (ensure_output_dir E = Ok tt /\ full_mode E argv2 = true
         /\ exists e, fs_readdirSync E (SPECS_DIR E) = Throw e))
  /\ (main E argv2 disk0 = 1%Z ->
        promises (generateSpecs E argv2 disk0) = []
        /\ writes (generateSpecs E argv2 disk0) = []
        /\ disk (generateSpecs E argv2 disk0) = disk0).
Proof.
  unfold main, exit_code, generateSpecs.
  destruct (ensure_output_dir E) as [[] | e0] eqn:Hdir.
  - destruct (full_mode E argv2) eqn:Hmode.
    + pose proof (select_full_mode _ Hmode) as Hsel.
      destruct (select_specFiles E argv2) as [[[files | ] | e] lg]; simpl in *.
      * split; [ split; [ discriminate | ] | discriminate ].
        intros [[e He] | (_ & _ & e & He)]; [ discriminate | ].
        apply full_build_throws in He. congruence.
      * split; [ split; [ discriminate | ] | discriminate ].
        intros [[e He] | (_ & _ & e & He)]; [ discriminate | ].
        apply full_build_throws in He. congruence.
      * split; [ | now intros _ ]. split; [ intros _; right | reflexivity ].
        split; [ reflexivity | split; [ reflexivity | ] ].
        exists e. now apply full_build_throws.
    + destruct (select_incremental _ Hmode) as (r & lg & ->).
      destruct r as [files | ]; simpl.
      * split; [ split; [ discriminate | ] | discriminate ].
        intros [[e He] | (_ & Hf & _)]; discriminate.
      * split; [ split; [ discriminate | ] | discriminate ].
        intros [[e He] | (_ & Hf & _)]; discriminate.
  - simpl. split; [ | now intros _ ]. split; [ intros _; left; eauto | reflexivity ].
Qed.

(** X4. A change to a shared component is a full build: for a path whose
    base name starts with an underscore, or that contains [_components]
    anywhere (a directory name included), the run is the run without
    argument, with one more line at the head of the console. *)
Theorem shared_component_runs_full_build (p : string)
    (disk0 : gmap string string) :
  p <> "" -> is_shared_component E p = true ->
  ensure_output_dir E = Ok tt ->
  generateSpecs E (Some p) disk0
  = {| settled := settled (generateSpecs E None disk0);
       promises := promises (generateSpecs E None disk0);
       results := results (generateSpecs E None disk0);
       writes := writes (generateSpecs E None disk0);
       disk := disk (generateSpecs E None disk0);
       console := Shared_component_changed
                  :: console (generateSpecs E None disk0) |}.
Proof.
  intros Hne Hshared Hdir. apply String.eqb_neq in Hne.
  unfold generateSpecs, select_specFiles. rewrite Hne, Hshared, Hdir.
  destruct (full_build E) as [[[files | ] | e] lg]; try reflexivity.
  rewrite !process_all_spec. reflexivity.
Qed.

(** X5. A full build attempts exactly the entries of the specs directory
    whose name ends in [.yaml] or [.yml] and does not start with an
    underscore: each of them once per listing, under the specs directory,
    and nothing else. *)
Theorem full_build_attempts_eligible (disk0 : gmap string string)
    (names : list string) :
  ensure_output_dir E = Ok tt ->
  fs_readdirSync E (SPECS_DIR E) = Ok names ->
  Permutation (map fst (promises (generateSpecs E None disk0)))
    (map (path_join E (SPECS_DIR E)) (List.filter is_spec_name names))
  /\ (forall f,
        f ∈ map fst (promises (generateSpecs E None disk0)) <->
        exists name, name ∈ names /\ f = path_join E (SPECS_DIR E) name
          /\ (endsWith name ".yaml" = true \/ endsWith name ".yml" = true)
          /\ startsWith name "_" = false).
Proof.
  intros Hdir Hread.
  assert (Hperm : Permutation (map fst (promises (generateSpecs E None disk0)))
            (map (path_join E (SPECS_DIR E)) (List.filter is_spec_name names))).
  { unfold generateSpecs, select_specFiles, full_build. rewrite Hdir, Hread.
    destruct (List.filter is_spec_name names) as [ | n l ] eqn:Hl;
      [ reflexivity | ].
    cbn [map length Nat.eqb ret]. rewrite process_all_spec. cbn [promises app].
    rewrite map_map. cbn [fst]. rewrite map_id.
    apply completion_order_perm. }
  split; [ exact Hperm | ].
  intros f. rewrite Hperm. rewrite list_elem_of_fmap. split.
  - intros (name & -> & Hin). apply list_elem_of_In, filter_In in Hin as [Hin Hspec].
    exists name. split; [ now apply list_elem_of_In | split; [ reflexivity | ] ].
    unfold is_spec_name in Hspec. apply andb_prop in Hspec as [H1 H2].
    apply orb_prop in H1. apply negb_true_iff in H2. now split.
  - intros (name & Hin & -> & Hext & Hund). exists name. split; [ reflexivity | ].
    apply list_elem_of_In, filter_In. split; [ now apply list_elem_of_In | ].
    unfold is_spec_name. rewrite Hund.
    destruct Hext as [-> | ->]; [ reflexivity | now rewrite orb_true_r ].
Qed.

End Selection.

(** ** Documents without composition *)

Lemma has_key_elem_of (k : string) (o : list (string * json)) :
  k ∉ map fst o -> has_key k o = false.
Proof.
  induction o as [ | [a x] o IH ]; [ reflexivity | ]. simpl. intros H.
  apply not_elem_of_cons in H as [Hne Hin].
  rewrite (IH Hin), orb_false_r. apply String.eqb_neq. congruence.
Qed.

Lemma obj_set_fresh (k : string) (v : json) (o : list (string * json)) :
  k ∉ map fst o -> array_index k = None -> obj_set k v o = o ++ [(k, v)].
Proof.
  intros Hk Hi. unfold obj_set. now rewrite (has_key_elem_of _ _ Hk), Hi.
Qed.

(** Assigning entries with ordinary keys, none of them present, appends them. *)
Lemma assign_all_fresh (src acc : list (string * json)) :
  NoDup (map fst acc ++ map fst src) ->
  Forall (fun kv => array_index (fst kv) = None) src ->
  assign_all src acc = acc ++ src.
Proof.
  unfold assign_all. revert acc.
  induction src as [ | [k v] src IH ]; intros acc Hnd Hord.
  - now rewrite app_nil_r.
  - simpl. inversion Hord as [ | ? ? Hk Hrest ]; subst. simpl in Hk.
    apply NoDup_app in Hnd as Hnd'. destruct Hnd' as (_ & Hdisj & _).
    rewrite obj_set_fresh; [ | | exact Hk ].
    + rewrite IH; [ now rewrite <- app_assoc | | exact Hrest ].
      rewrite map_app. simpl. rewrite <- app_assoc. exact Hnd.
    + intros Hin. apply (Hdisj _ Hin). simpl. now left.
Qed.

Lemma plain_items (l : list json) :
  foldr (fun x P => plain x /\ P) True l <-> Forall plain l.
Proof.
  induction l as [ | x l IH ]; simpl.
  - split; [ constructor | trivial ].
  - rewrite Forall_cons. now rewrite IH.
Qed.

Lemma plain_entries (kvs : list (string * json)) :
  foldr (fun kv P => plain (snd kv) /\ P) True kvs
  <-> Forall (fun kv => plain (snd kv)) kvs.
Proof.
  induction kvs as [ | x l IH ]; simpl.
  - split; [ constructor | trivial ].
  - rewrite Forall_cons. now rewrite IH.
Qed.

Lemma max_bound {A} (f : A -> nat) (l : list A) (d : nat) :
  foldr Nat.max 0 (map f l) <= d <-> Forall (fun x => f x <= d) l.
Proof.
  induction l as [ | x l IH ]; simpl.
  - split; [ constructor | lia ].
  - rewrite Forall_cons, <- IH. lia.
Qed.

Lemma max_reached {A} (f : A -> nat) (l : list A) (d : nat) :
  d < foldr Nat.max 0 (map f l) -> exists x, x ∈ l /\ d < f x.
Proof.
  induction l as [ | x l IH ]; simpl; [ lia | ]. intros H.
  destruct (decide (d < f x)) as [Hx | Hx].
  - exists x. split; [ now left | exact Hx ].
  - destruct IH as (y & Hy & Hd); [ lia | ]. exists y. split; [ now right | exact Hd ].
Qed.

Lemma mapM_id {A} (f : A -> M A) (l : list A) :
  Forall (fun x => f x = (Ok x, [])) l -> mapM f l = (Ok l, []).
Proof.
  induction 1 as [ | x l Hx _ IH ]; [ reflexivity | ].
  simpl. rewrite Hx. simpl. now rewrite IH.
Qed.

Lemma mapM_reaches_throw {A B} (f : A -> M B) (l : list A) (x : A) (e : string) :
  x ∈ l -> fst (f x) = Throw e -> exists e', fst (mapM f l) = Throw e'.
Proof.
  intros Hin Hx. induction l as [ | y l IH ]; [ inversion Hin | ].
  simpl. destruct (f y) as [[b | e0] l1] eqn:Hy; simpl; [ | eauto ].
  apply elem_of_cons in Hin as [<- | Hin].
  - rewrite Hy in Hx. discriminate.
  - destruct (IH Hin) as (e' & He').
    destruct (mapM f l) as [[ys | e1] l2]; simpl in *; [ discriminate | eauto ].
Qed.

Lemma foldM_reaches_throw {A B} (f : B -> A -> M B) (l : list A) (acc : B)
    (x : A) (e : string) :
  x ∈ l -> (forall b, fst (f b x) = Throw e) ->
  exists e', fst (foldM f l acc) = Throw e'.
Proof.
  intros Hin Hx. revert acc. induction l as [ | y l IH ]; intros acc;
    [ inversion Hin | ].
  simpl. destruct (f acc y) as [[b | e0] l1] eqn:Hy; simpl; [ | eauto ].
  apply elem_of_cons in Hin as [<- | Hin].
  - specialize (Hx acc). rewrite Hy in Hx. discriminate.
  - destruct (IH Hin b) as (e' & He').
    destruct (foldM f l b) as [[ys | e1] l2]; simpl in *; [ discriminate | eauto ].
Qed.

Section Identity.

Context (E : Env).

Lemma rebuild_id (d : nat) (kvs acc : list (string * json)) :
  Forall (fun kv => mergeAllOfSchemas E d (snd kv) = (Ok (snd kv), [])) kvs ->
  NoDup (map fst acc ++ map fst kvs) ->
  Forall (fun kv => array_index (fst kv) = None) kvs ->
  foldM (fun result kv =>
           v <- mergeAllOfSchemas E d (snd kv) ;;
           ret (obj_set (fst kv) v result)) kvs acc
  = (Ok (acc ++ kvs), []).
Proof.
  intros Hid. revert acc. induction Hid as [ | [k v] kvs Hv _ IH ];
    intros acc Hnd Hord.
  - simpl. now rewrite app_nil_r.
  - simpl in *. rewrite Hv. simpl.
    inversion Hord as [ | ? ? Hk Hrest ]; subst. simpl in Hk.
    apply NoDup_app in Hnd as Hnd'. destruct Hnd' as (_ & Hdisj & _).
    rewrite obj_set_fresh; [ | | exact Hk ].
    + rewrite IH; [ now rewrite <- app_assoc | | exact Hrest ].
      rewrite map_app. simpl. rewrite <- app_assoc. exact Hnd.
    + intros Hin. apply (Hdisj _ Hin). now left.
Qed.

(** X6. On a tree without composition whose objects have ordinary keys, the
    composition pass is the identity and prints nothing, provided the
    engine's stack has room for the height of the tree; on any tree without
    composition that is higher than the stack, it raises a stack overflow,
    which fails the document.  The merge library is not consulted. *)
Theorem composition_free_is_unchanged (depth : nat) (v : json) :
  (plain v -> height v <= depth ->
     mergeAllOfSchemas E depth v = (Ok v, []))
  /\ (carries_composition v = false -> depth < height v ->
        fst (mergeAllOfSchemas E depth v) = Throw RangeError).
Proof.
  split.
  - revert v. induction depth as [ | d IH ]; intros v Hp Hh.
    + destruct v; simpl in Hh; lia.
    + destruct v as [ | b | z | s | l | kvs ]; try reflexivity.
      * simpl in Hp, Hh. apply plain_items in Hp.
        assert (Hb : Forall (fun x => height x <= d) l) by (apply max_bound; lia).
        cbn [mergeAllOfSchemas]. rewrite mapM_id; [ reflexivity | ].
        apply Forall_forall. intros x Hx.
        apply IH; [ exact (proj1 (Forall_forall _ _) Hp x Hx)
                  | exact (proj1 (Forall_forall _ _) Hb x Hx) ].
      * simpl in Hp, Hh. destruct Hp as (Hall & [Hnd Hord] & Hp).
        apply plain_entries in Hp.
        assert (Hb : Forall (fun kv => height (snd kv) <= d) kvs)
          by (apply (max_bound (fun kv => height (snd kv))); lia).
        cbn [mergeAllOfSchemas]. rewrite Hall.
        rewrite rebuild_id; [ reflexivity | | exact Hnd | exact Hord ].
        apply Forall_forall. intros x Hx.
        apply IH; [ exact (proj1 (Forall_forall _ _) Hp x Hx)
                  | exact (proj1 (Forall_forall _ _) Hb x Hx) ].
  - revert v. induction depth as [ | d IH ]; intros v Hc Hh; [ reflexivity | ].
    destruct v as [ | b | z | s | l | kvs ]; try (simpl in Hh; lia).
    + simpl in Hh. destruct (max_reached height l d) as (x & Hx & Hd); [ lia | ].
      pose proof (proj1 (carries_composition_arr l) Hc) as Hc'.
      destruct (mapM_reaches_throw (mergeAllOfSchemas E d) l x RangeError Hx)
        as (e' & He').
      { apply IH; [ exact (Hc' x Hx) | exact Hd ]. }
      cbn [mergeAllOfSchemas].
      assert (e' = RangeError) as ->.
      { apply mapM_throw in He' as (y & _ & Hy).
        exact (mergeAllOfSchemas_throws E _ _ _ Hy). }
      destruct (mapM (mergeAllOfSchemas E d) l) as [[ys | e1] lg];
        simpl in *; congruence.
    + simpl in Hh.
      destruct (max_reached (fun kv => height (snd kv)) kvs d) as (x & Hx & Hd);
        [ lia | ].
      destruct (proj1 (carries_composition_obj kvs) Hc) as [Hall Hvals].
      cbn [mergeAllOfSchemas]. rewrite Hall.
      match goal with |- context [ foldM ?f kvs [] ] =>
        destruct (foldM_reaches_throw f kvs [] x RangeError Hx) as (e' & He') end.
      { intros b. pose proof (IH (snd x) (Hvals x Hx) Hd) as Hthrow.
        destruct (mergeAllOfSchemas E d (snd x)) as [[v | e] l1];
          simpl in *; [ discriminate | congruence ]. }
      match type of He' with fst (foldM ?f _ _) = _ =>
        destruct (foldM f kvs []) as [[res | e1] lg] eqn:Hf end;
        simpl in He'; [ discriminate | ].
      injection He' as ->. simpl.
      match type of Hf with foldM ?f _ _ = _ =>
        assert (H : fst (foldM f kvs []) = Throw e') by now rewrite Hf end.
      apply foldM_throw in H as (b & y & _ & Hy).
      destruct (mergeAllOfSchemas E d (snd y)) as [[v | e2] l1] eqn:Hv;
        simpl in Hy; [ discriminate | ].
      injection Hy as ->. f_equal.
      apply (mergeAllOfSchemas_throws E d (snd y)). now rewrite Hv.
Qed.

End Identity.

(** ** The written object *)

(** X7. For a specification whose keys are ordinary (distinct, none of them
    an array index) and do not include the marker's, the written object is
    the marker followed by the specification's own entries, in their order
    and with their values. *)
Theorem marker_heads_the_output (kvs : list (string * json)) :
  ordinary_keys kvs ->
  warning_key ∉ map fst kvs ->
  output_object (JObj kvs) = JObj ((warning_key, JStr warning_text) :: kvs).
Proof.
  intros [Hnd Hord] Hfresh. unfold output_object. cbn [spread].
  rewrite assign_all_fresh; [ reflexivity | | exact Hord ].
  simpl. apply NoDup_cons. split; [ exact Hfresh | exact Hnd ].
Qed.

(** ** The clean-up *)

Section CleanUp.

Context (E : Env).

Lemma js_get_deleted (k : string) (o : list (string * json)) :
  js_get k (obj_delete k o) = None.
Proof.
  unfold obj_delete. induction o as [ | [a x] o IH ]; [ reflexivity | ].
  rewrite filter_cons. simpl. destruct (decide (a <> k)) as [Ha | Ha]; simpl.
  - rewrite IH. apply String.eqb_neq in Ha. now rewrite Ha.
  - exact IH.
Qed.

Lemma delete_components_spec (m m' : json) :
  delete_components m = Ok m' ->
  (exists c, js_prop m' "components" = Ok c /\ truthy_prop c = false)
  /\ (forall k, k <> "components" -> js_prop m' k = js_prop m k).
Proof.
  unfold delete_components.
  destruct (js_prop m "components") as [c | e] eqn:Hc; [ | discriminate ].
  destruct (truthy_prop c) eqn:Ht.
  - destruct m as [ | b | z | s | l | kvs ]; intros [= <-];
      try (simpl in Hc; injection Hc as <-; discriminate);
      try discriminate.
    split.
    + exists None. cbn [js_prop]. now rewrite js_get_deleted.
    + intros k Hk. cbn [js_prop]. f_equal. apply js_get_delete. congruence.
  - intros [= <-]. split; [ exists c; now split | reflexivity ].
Qed.

Lemma sort_methods_spec (m m' : json) :
  sort_methods E m = Ok m' ->
  forall k, k <> "methods" -> js_prop m' k = js_prop m k.
Proof.
  unfold sort_methods.
  destruct (js_prop m "methods") as [[v | ] | e]; try discriminate;
    [ | now intros [= <-] ].
  destruct v as [ | b | z | s | methods | o ]; try (now intros [= <-]).
  destruct (array_sort (compare_names E) methods) as [sorted | e];
    [ | discriminate ].
  destruct m as [ | b | z | s | l | kvs ]; intros [= <-] k Hk; try reflexivity.
  simpl. f_equal. rewrite js_get_obj_set.
  destruct (String.eqb_spec "methods" k); [ congruence | reflexivity ].
Qed.

(** X8. [dereferenceSpec] deletes [components] from what the composition
    pass returned exactly when its value is truthy: the specification it
    returns then has no such property.  A falsy one ([null], [0], [false],
    the empty string) is kept as it is: the sort is applied to the tree the
    composition pass returned, untouched.  In both cases the other
    top-level properties, [methods] apart, are those the composition pass
    returned. *)
Theorem generated_spec_drops_components (file : string) (r : DerefResult) :
  fst (dereferenceSpec E file) = Ok r ->
  exists doc merged lg c,
    RefParser_dereference E file = Ok doc
    /\ mergeAllOfSchemas E (stack_depth E) doc = (Ok merged, lg)
    /\ js_prop merged "components" = Ok c
    /\ js_prop (spec r) "components"
       = Ok (if truthy_prop c then None else c)
    /\ (truthy_prop c = false -> sort_methods E merged = Ok (spec r))
    /\ (truthy_prop c = true ->
        exists kvs, merged = JObj kvs
          /\ sort_methods E (JObj (obj_delete "components" kvs))
             = Ok (spec r))
    /\ (forall k, k <> "components" -> k <> "methods" ->
          js_prop (spec r) k = js_prop merged k).
Proof.
  unfold dereferenceSpec, lift.
  destruct (RefParser_dereference E file) as [doc | e]; [ | discriminate ].
  cbn [bind].
  destruct (mergeAllOfSchemas E (stack_depth E) doc) as [[merged | e] lg] eqn:Hm;
    [ | discriminate ].
  cbn [bind].
  destruct (delete_components merged) as [m1 | e] eqn:Hd; [ | discriminate ].
  cbn [bind].
  destruct (sort_methods E m1) as [m2 | e] eqn:Hs; [ | discriminate ].
  simpl. intros [= <-]. cbn [spec].
  pose proof (delete_components_spec _ _ Hd) as [_ Hkeep].
  pose proof (sort_methods_spec _ _ Hs) as Hkeep'.
  unfold delete_components in Hd.
  destruct (js_prop merged "components") as [c | e] eqn:Hc; [ | discriminate ].
  exists doc, merged, lg, c.
  split; [ reflexivity | split; [ exact Hm | split; [ exact Hc | ] ] ].
  rewrite Hkeep' by discriminate.
  destruct (truthy_prop c) eqn:Ht.
  - destruct merged as [ | b | z | s | l | kvs ];
      try (simpl in Hc; injection Hc as <-; discriminate);
      try discriminate.
    injection Hd as <-.
    split; [ cbn [js_prop]; now rewrite js_get_deleted | ].
    split; [ discriminate | ].
    split; [ intros _; exists kvs; now split | ].
    intros k Hk1 Hk2. rewrite Hkeep' by exact Hk2. now apply Hkeep.
  - injection Hd as <-.
    split; [ exact Hc | ]. split; [ intros _; exact Hs | ].
    split; [ discriminate | ].
    intros k Hk1 Hk2. now apply Hkeep'.
Qed.

End CleanUp.

(** ** Entries the comparator cannot read *)

Section NullMethod.

Context (E : Env).

Lemma compare_with_null (p : json) : exists e, compare_names E p JNull = Throw e.
Proof.
  unfold compare_names. destruct (js_prop p "name") as [[v | ] | e]; eauto.
  destruct v; simpl; eauto.
Qed.

Lemma compare_null (x : json) : exists e, compare_names E JNull x = Throw e.
Proof. unfold compare_names. simpl. eauto. Qed.

Lemma sort_from_null (acc l : list json) :
  acc <> [] -> JNull ∈ l ->
  exists e, sort_from (compare_names E) acc l = Throw e.
Proof.
  revert acc. induction l as [ | p l IH ]; intros acc Hacc Hin; [ inversion Hin | ].
  simpl. destruct (sort_insert (compare_names E) p acc) as [acc' | e] eqn:Hins;
    [ | eauto ].
  apply elem_of_cons in Hin as [<- | Hin].
  - destruct acc as [ | x acc ]; [ congruence | ]. cbn [sort_insert] in Hins.
    destruct (compare_null x) as (e & He). rewrite He in Hins. discriminate.
  - apply IH; [ | exact Hin ]. intros ->.
    apply sort_insert_perm, Permutation_nil_r in Hins. discriminate.
Qed.

(** X9. A [null] among two or more entries of [methods] makes the sort throw,
    whatever the other entries and wherever it stands: the comparator reads
    [name] on it.  A [methods] array with a single entry is never compared,
    so it passes, whatever the entry. *)
Theorem null_method_fails_the_sort (kvs : list (string * json))
    (methods : list json) :
  js_get "methods" kvs = Some (JArr methods) ->
  (JNull ∈ methods -> 2 <= length methods ->
     exists e, sort_methods E (JObj kvs) = Throw e)
  /\ (length methods = 1 ->
        sort_methods E (JObj kvs)
        = Ok (JObj (obj_set "methods" (JArr methods) kvs))).
Proof.
  intros Hget. unfold sort_methods. simpl. rewrite Hget. split.
  - intros Hin Hlen. destruct methods as [ | x [ | y rest ] ]; simpl in Hlen; try lia.
    unfold array_sort.
    change (sort_from (compare_names E) [] (x :: y :: rest))
      with (sort_from (compare_names E) [x] (y :: rest)).
    assert (H : exists e, sort_from (compare_names E) [x] (y :: rest) = Throw e).
    { apply elem_of_cons in Hin as [<- | Hin].
      - cbn [sort_from sort_insert]. destruct (compare_with_null y) as (e & ->). eauto.
      - apply sort_from_null; [ discriminate | exact Hin ]. }
    destruct H as (e & ->). eauto.
  - intros Hlen. destruct methods as [ | x [ | y rest ] ]; try discriminate.
    reflexivity.
Qed.

End NullMethod.

(** ** The order of completion and the count of successes *)

Section Completion.

Context (E : Env).

Lemma fold_apply_write_perm (l1 l2 : list (string * (string * string)))
    (d : gmap string string) :
  Permutation l1 l2 ->
  NoDup (map (fun w => fst (snd w)) l1) ->
  fold_left apply_write l1 d = fold_left apply_write l2 d.
Proof.
  intros Hperm Hnd. apply map_eq. intros k.
  destruct (decide (Exists (fun w => fst (snd w) = k) l1)) as [Hex | Hno].
  - apply Exists_exists in Hex as (w & Hw & Hk).
    assert (Huniq : forall w', w' ∈ l1 -> fst (snd w') = k ->
                      snd (snd w') = snd (snd w)).
    { intros w' Hw' Hk'. clear Hperm.
      induction l1 as [ | x l1 IH ]; [ inversion Hw | ].
      simpl in Hnd. apply NoDup_cons in Hnd as [Hx Hnd].
      apply elem_of_cons in Hw as [-> | Hw], Hw' as [-> | Hw'].
      - reflexivity.
      - exfalso. apply Hx. apply list_elem_of_fmap. exists w'. split; [ congruence | exact Hw' ].
      - exfalso. apply Hx. apply list_elem_of_fmap. exists w. split; [ congruence | exact Hw ].
      - now apply IH. }
    rewrite (fold_apply_write_same l1 d k (snd (snd w))); [ | exact Huniq | eauto ].
    rewrite (fold_apply_write_same l2 d k (snd (snd w))); [ reflexivity | | ].
    + intros w' Hw'. apply Huniq. now rewrite Hperm.
    + exists w. split; [ now rewrite <- Hperm | exact Hk ].
  - rewrite !fold_apply_write_other; [ reflexivity | | ].
    + intros w Hw Hk. apply Hno. apply Exists_exists. exists w.
      split; [ now rewrite Hperm | exact Hk ].
    + intros w Hw Hk. apply Hno. apply Exists_exists. eauto.
Qed.

Lemma omap_perm {A B} (f : A -> option B) (l1 l2 : list A) :
  Permutation l1 l2 -> Permutation (omap f l1) (omap f l2).
Proof.
  induction 1 as [ | x l1 l2 _ IH | x y l | l1 l2 l3 _ IH1 _ IH2 ]; simpl.
  - constructor.
  - destruct (f x); [ now constructor | exact IH ].
  - destruct (f x), (f y); try reflexivity. apply perm_swap.
  - now rewrite IH1.
Qed.

Lemma artifact_paths_NoDup (files : list string) :
  NoDup (map (artifact_path E) files) ->
  NoDup (map (fun w : string * (string * string) => fst (snd w))
           (omap (fun f => pair f <$> artifact E f) files)).
Proof.
  induction files as [ | f files IH ]; simpl; [ constructor | ].
  intros Hnd. apply NoDup_cons in Hnd as [Hf Hnd].
  destruct (artifact E f) as [a | ] eqn:Ha; simpl; [ | now apply IH ].
  apply NoDup_cons. split; [ | now apply IH ].
  intros Hin. apply Hf. apply list_elem_of_fmap in Hin as (w & Hw & Hin).
  apply list_elem_of_omap in Hin as (g & Hg & Hart).
  destruct (artifact E g) as [a' | ] eqn:Ha'; [ | discriminate ].
  simpl in Hart. injection Hart as <-. simpl in Hw.
  apply artifact_at in Ha, Ha'. subst a a'. simpl in Hw.
  apply list_elem_of_fmap. exists g. split; [ exact Hw | exact Hg ].
Qed.

(** X20. When no two of the selected documents have the same artifact path,
    the output directory after the run does not depend on the order in
    which the documents complete: it is the one that processing them one
    after the other, in the order of the selection, leaves. *)
Theorem completion_order_is_irrelevant (specificFile : option string)
    (disk0 : gmap string string) (specFiles : list string)
    (lg : list event) :
  ensure_output_dir E = Ok tt ->
  select_specFiles E specificFile = (Ok (Some specFiles), lg) ->
  NoDup (map (artifact_path E) specFiles) ->
  disk (generateSpecs E specificFile disk0)
  = fold_left apply_write
      (omap (fun f => pair f <$> artifact E f) specFiles) disk0.
Proof.
  intros Hdir Hsel Hnd. rewrite (generateSpecs_selected E _ _ _ _ Hdir Hsel).
  cbn [disk]. symmetry. apply fold_apply_write_perm.
  - apply omap_perm. symmetry. apply completion_order_perm.
  - now apply artifact_paths_NoDup.
Qed.

Lemma pushed_not_written (file : string) :
  (is_Some (pushed E file) /\ promise E file = None) <->
  exists r e,
    fst (dereferenceSpec E file) = Ok r
    /\ fs_writeFileSync E (output_path E (fileName r))
         (JSON_stringify E (output_object (spec r))) = Throw e.
Proof.
  unfold pushed, promise, pipeline.
  destruct (fst (dereferenceSpec E file)) as [r | e0].
  - destruct (fs_writeFileSync E _ _) as [[] | e] eqn:Hw.
    + split; [ intros [_ ?]; discriminate | ].
      intros (r' & e & [= <-] & He). congruence.
    + split; [ intros _; eauto | intros _; split; [ eauto | reflexivity ] ].
  - split; [ intros [[? ?] _]; discriminate | intros (? & ? & ? & _); discriminate ].
Qed.

(** X21. The count of successes that closes the console counts the
    documents whose dereferencing returned, so it includes every document
    whose file could not be written, although the promise of such a
    document settles to [null] and its failure is printed. *)
Theorem summary_counts_unwritten_documents (specificFile : option string)
    (disk0 : gmap string string) (specFiles : list string)
    (lg : list event) :
  ensure_output_dir E = Ok tt ->
  select_specFiles E specificFile = (Ok (Some specFiles), lg) ->
  last (console (generateSpecs E specificFile disk0))
  = Some (Generation_complete
            (length (List.filter (fun f => bool_decide (is_Some (pushed E f)))
                       specFiles))
            (length specFiles))
  /\ length (writes (generateSpecs E specificFile disk0))
     + length (List.filter
                 (fun f => bool_decide (is_Some (pushed E f))
                           && bool_decide (promise E f = None)) specFiles)
     = length (List.filter (fun f => bool_decide (is_Some (pushed E f)))
                 specFiles)
  /\ (forall f, is_Some (pushed E f) /\ promise E f = None <->
        exists r e,
          fst (dereferenceSpec E f) = Ok r
          /\ fs_writeFileSync E (output_path E (fileName r))
               (JSON_stringify E (output_object (spec r))) = Throw e).
Proof.
  intros Hdir Hsel. rewrite (generateSpecs_selected E _ _ _ _ Hdir Hsel).
  cbn [console writes].
  assert (Hcount : forall l,
            length (omap (pushed E) l)
            = length (List.filter (fun f => bool_decide (is_Some (pushed E f))) l)).
  { induction l as [ | f l IH ]; [ reflexivity | ]. simpl.
    destruct (pushed E f) as [r | ]; simpl; [ now f_equal | exact IH ]. }
  assert (Hperm : forall (P : string -> bool) l1 l2, Permutation l1 l2 ->
            length (List.filter P l1) = length (List.filter P l2)).
  { intros P l1 l2 Hp. induction Hp as [ | x l1 l2 _ IH | x y l | l1 l2 l3 _ IH1 _ IH2 ];
      simpl; [ reflexivity | | | congruence ].
    - destruct (P x); simpl; congruence.
    - destruct (P x), (P y); reflexivity. }
  split; [ | split; [ | apply pushed_not_written ] ].
  - rewrite last_snoc. do 2 f_equal. rewrite Hcount.
    apply Hperm, completion_order_perm.
  - rewrite <- (Hperm _ _ _ (completion_order_perm E specFiles)).
    rewrite <- (Hperm (fun f => bool_decide (is_Some (pushed E f)))
                  _ _ (completion_order_perm E specFiles)).
    generalize (completion_order E specFiles). intros l.
    induction l as [ | f l IH ]; [ reflexivity | ]. cbn [omap list_omap List.filter].
    assert (Hf : match artifact E f with
                 | Some _ => is_Some (pushed E f) /\ is_Some (promise E f)
                 | None => promise E f = None
                 end).
    { unfold artifact, pushed, promise, pipeline.
      destruct (fst (dereferenceSpec E f)) as [r | e0]; [ | reflexivity ].
      destruct (fs_writeFileSync E _ _) as [[] | e]; [ | reflexivity ].
      split; eauto. }
    destruct (artifact E f) as [a | ].
    + destruct Hf as [Hp [r Hr]].
      rewrite (bool_decide_true _ Hp). cbn [andb fmap option_fmap option_map].
      rewrite bool_decide_false by (rewrite Hr; discriminate).
      cbn [length]. lia.
    + rewrite (bool_decide_true _ Hf), andb_true_r. cbn [fmap option_fmap option_map].
      destruct (bool_decide (is_Some (pushed E f))); cbn [length]; lia.
Qed.

End Completion.

(** ** Repeated runs *)

Section RepeatedRuns.

Context (E : Env).

Lemma writes_keys_perm (l1 l2 : list (string * (string * string))) :
  Permutation l1 l2 ->
  NoDup (map (fun w : string * (string * string) => fst (snd w)) l1) ->
  NoDup (map (fun w : string * (string * string) => fst (snd w)) l2).
Proof. intros Hp Hnd. now rewrite <- Hp. Qed.

(** X2. Generation is idempotent on the output directory, whatever the order
    in which the documents of either run complete: when no two of the
    selected documents have the same artifact path, a second run with the
    same argument over the same inputs, started from the directory the first
    run left, makes the same writes, possibly in another order, and leaves
    the directory exactly as it found it. *)
Theorem second_run_changes_nothing (order : list string -> list string)
    (order_perm : forall l, Permutation (order l) l)
    (specificFile : option string) (disk0 : gmap string string) :
  (forall files lg,
     select_specFiles E specificFile = (Ok (Some files), lg) ->
     NoDup (map (artifact_path E) files)) ->
  Permutation
    (writes (generateSpecs (reordered E order order_perm) specificFile
               (disk (generateSpecs E specificFile disk0))))
    (writes (generateSpecs E specificFile disk0))
  /\ disk (generateSpecs (reordered E order order_perm) specificFile
             (disk (generateSpecs E specificFile disk0)))
     = disk (generateSpecs E specificFile disk0).
Proof.
  intros Hnd.
  destruct (ensure_output_dir E) as [[] | e] eqn:Hdir.
  2: { unfold generateSpecs.
       change (ensure_output_dir (reordered E order order_perm))
         with (ensure_output_dir E).
       rewrite Hdir. now split. }
  destruct (select_specFiles E specificFile) as [[[files | ] | e] lg] eqn:Hsel.
  - assert (Hdir' : ensure_output_dir (reordered E order order_perm) = Ok tt)
      by exact Hdir.
    assert (Hsel' : select_specFiles (reordered E order order_perm) specificFile
                    = (Ok (Some files), lg)) by exact Hsel.
    rewrite (generateSpecs_selected _ _ _ _ _ Hdir' Hsel').
    rewrite (generateSpecs_selected _ _ _ _ _ Hdir Hsel).
    cbn [writes disk].
    change (artifact (reordered E order order_perm)) with (artifact E).
    change (completion_order (reordered E order order_perm) files)
      with (order files).
    assert (Hperm : Permutation
              (omap (fun f => pair f <$> artifact E f) (order files))
              (omap (fun f => pair f <$> artifact E f)
                 (completion_order E files))).
    { apply omap_perm. rewrite order_perm. symmetry. apply completion_order_perm. }
    split; [ exact Hperm | ].
    rewrite (fold_apply_write_perm _ _ _ Hperm).
    + apply fold_apply_write_twice.
    + apply (writes_keys_perm
               (omap (fun f => pair f <$> artifact E f) files)).
      * apply omap_perm. symmetry. apply order_perm.
      * apply artifact_paths_NoDup. exact (Hnd files lg eq_refl).
  - unfold generateSpecs.
    change (ensure_output_dir (reordered E order order_perm))
      with (ensure_output_dir E).
    change (select_specFiles (reordered E order order_perm) specificFile)
      with (select_specFiles E specificFile).
    rewrite Hdir, Hsel. now split.
  - unfold generateSpecs.
    change (ensure_output_dir (reordered E order order_perm))
      with (ensure_output_dir E).
    change (select_specFiles (reordered E order order_perm) specificFile)
      with (select_specFiles E specificFile).
    rewrite Hdir, Hsel. now split.
Qed.

End RepeatedRuns.

(** ** Relative paths *)

(** X24. An incremental run looks at the base name only: for two relative
    paths with the same base name, neither of them a shared component, the
    runs are the same, whatever directories the paths go through.  A
    specification that changed in a subdirectory of the specs directory is
    therefore looked up, by its base name, in the specs directory itself. *)
Theorem incremental_run_uses_the_base_name (E : Env) (p q : string)
    (disk0 : gmap string string) :
  p <> "" -> q <> "" ->
  path_isAbsolute E p = false -> path_isAbsolute E q = false ->
  path_basename E p = path_basename E q ->
  includes p "_components" = false -> includes q "_components" = false ->
  generateSpecs E (Some p) disk0 = generateSpecs E (Some q) disk0.
Proof.
  intros Hp Hq Hrelp Hrelq Hbase Hcp Hcq.
  apply String.eqb_neq in Hp, Hq.
  assert (Hsel : select_specFiles E (Some p) = select_specFiles E (Some q)).
  { unfold select_specFiles, is_shared_component, full_path.
    now rewrite Hp, Hq, Hrelp, Hrelq, Hbase, Hcp, Hcq. }
  unfold generateSpecs. now rewrite Hsel.
Qed.

(** * The upload scripts *)

(** ** Strings *)

Lemma prefix_empty (s : string) : String.prefix "" s = true.
Proof. now destruct s. Qed.

Lemma prefix_app (p s t : string) :
  String.prefix p s = true -> String.prefix p (s +:+ t) = true.
Proof.
  revert s. induction p as [ | c p IH ]; intros s;
    [ now destruct (s +:+ t) | ].
  destruct s as [ | c' s ]; simpl; [ discriminate | ].
  destruct (ascii_dec c c'); [ apply IH | discriminate ].
Qed.

Lemma prefix_trans (q p s : string) :
  String.prefix q p = true -> String.prefix p s = true ->
  String.prefix q s = true.
Proof.
  revert p s. induction q as [ | c q IH ]; intros p s; [ now destruct s | ].
  destruct p as [ | c1 p ]; simpl; [ discriminate | ].
  destruct (ascii_dec c c1) as [-> | ]; [ | discriminate ].
  destruct s as [ | c2 s ]; simpl; [ discriminate | ].
  destruct (ascii_dec c1 c2); [ apply IH | discriminate ].
Qed.

Lemma prefix_length (p s : string) :
  String.prefix p s = true -> String.length p <= String.length s.
Proof.
  revert s. induction p as [ | c p IH ]; intros s; simpl; [ lia | ].
  destruct s as [ | c' s ]; simpl; [ discriminate | ].
  destruct (ascii_dec c c'); [ | discriminate ].
  intros H. apply IH in H. simpl. lia.
Qed.

Lemma includes_app (s p t : string) :
  includes s p = true -> includes (s +:+ t) p = true.
Proof.
  induction s as [ | c s IH ].
  - cbn [includes]. rewrite orb_false_r. intros H.
    destruct p; [ | discriminate ]. destruct t; reflexivity.
  - cbn [includes]. intros H.
    change (String c s +:+ t) with (String c (s +:+ t)). cbn [includes].
    apply orb_prop in H as [H | H].
    + change (String c (s +:+ t)) with (String c s +:+ t).
      rewrite (prefix_app _ _ _ H). reflexivity.
    + rewrite (IH H). apply orb_true_r.
Qed.

Lemma includes_weaken (s p q : string) :
  String.prefix q p = true -> includes s p = true -> includes s q = true.
Proof.
  intros Hq. induction s as [ | c s IH ]; cbn [includes].
  - rewrite !orb_false_r. intros H. exact (prefix_trans _ _ _ Hq H).
  - intros H. apply orb_prop in H as [H | H].
    + rewrite (prefix_trans _ _ _ Hq H). reflexivity.
    + rewrite (IH H). apply orb_true_r.
Qed.

Module UploadFacts.
Import Upload.

Lemma at_line_terminator_app (s t : string) :
  3 <= String.length s ->
  at_line_terminator (s +:+ t) = at_line_terminator s.
Proof.
  destruct s as [ | c1 [ | c2 [ | c3 s ] ] ]; simpl; try lia. intros _.
  unfold at_line_terminator, LF, CR, LS, PS.
  change (String c1 (String c2 (String c3 s)) +:+ t)
    with (String c1 (String c2 (String c3 (s +:+ t)))).
  cbn [String.prefix]. now rewrite !prefix_empty.
Qed.

Lemma dot_star_then_length (lit s : string) :
  dot_star_then lit s = true -> String.length lit <= String.length s.
Proof.
  induction s as [ | c s IH ]; cbn [dot_star_then].
  - rewrite andb_false_r, orb_false_r. apply prefix_length.
  - intros H. apply orb_prop in H as [H | H].
    + apply prefix_length in H. exact H.
    + apply andb_prop in H as [_ H]. apply IH in H. simpl. lia.
Qed.

Lemma dot_star_then_app (lit s t : string) :
  2 <= String.length lit ->
  dot_star_then lit s = true -> dot_star_then lit (s +:+ t) = true.
Proof.
  intros Hlit. induction s as [ | c s IH ].
  - cbn [dot_star_then]. rewrite andb_false_r, orb_false_r. intros H.
    apply prefix_length in H. simpl in H. lia.
  - intros H. cbn [dot_star_then] in H.
    change (String c s +:+ t) with (String c (s +:+ t)). cbn [dot_star_then].
    apply orb_prop in H as [H | H].
    + change (String c (s +:+ t)) with (String c s +:+ t).
      rewrite (prefix_app _ _ _ H). reflexivity.
    + apply andb_prop in H as [Hterm H].
      pose proof (dot_star_then_length _ _ H) as Hlen.
      rewrite (IH H), andb_true_r.
      change (String c (s +:+ t)) with (String c s +:+ t).
      rewrite at_line_terminator_app by (simpl; lia).
      rewrite Hterm. apply orb_true_r.
Qed.

Lemma strip_prefix_app (lit s t rest : string) :
  strip_prefix lit s = Some rest ->
  strip_prefix lit (s +:+ t) = Some (rest +:+ t).
Proof.
  revert s. induction lit as [ | c lit IH ]; intros s; simpl.
  - now intros [= ->].
  - destruct s as [ | c' s ]; [ discriminate | ]. simpl.
    destruct (Ascii.eqb c c'); [ apply IH | discriminate ].
Qed.

Lemma package_json_app (s t : string) :
  package_json s = true -> package_json (s +:+ t) = true.
Proof.
  induction s as [ | c s IH ]; [ discriminate | ].
  intros H. cbn [package_json] in H.
  change (String c s +:+ t) with (String c (s +:+ t)). cbn [package_json].
  apply orb_prop in H as [H | H].
  - destruct (strip_prefix "package" (String c s)) as [rest | ] eqn:Hs;
      [ | discriminate ].
    change (String c (s +:+ t)) with (String c s +:+ t).
    rewrite (strip_prefix_app _ _ t _ Hs).
    rewrite dot_star_then_app; [ reflexivity | simpl; lia | exact H ].
  - rewrite (IH H). apply orb_true_r.
Qed.

Lemma shouldSkip_app (filePath rest : string) :
  shouldSkip filePath = true -> filePath <> ".env" ->
  shouldSkip (filePath +:+ rest) = true.
Proof.
  intros H Hne. unfold shouldSkip, SKIP_PATTERNS in *.
  cbn [existsb] in *. rewrite orb_false_r in *.
  repeat (apply orb_prop in H as [H | H]);
    rewrite ?(includes_app _ _ rest H), ?(package_json_app _ rest H),
      ?orb_true_r; try reflexivity.
  apply String.eqb_eq in H. contradiction.
Qed.

(** X10. Skipping is inherited: a path that extends a skipped path is
    skipped, unless the skipped path is [.env], the one pattern that is
    anchored.  And the last pattern, [.gitignore], never decides: whatever
    it matches, [.git] matches. *)
Theorem skipping_is_inherited (filePath : string) :
  (forall rest, shouldSkip filePath = true -> filePath <> ".env" ->
     shouldSkip (filePath +:+ rest) = true)
  /\ shouldSkip filePath
     = existsb (fun pattern => pattern filePath) (removelast SKIP_PATTERNS).
Proof.
  split.
  - intros rest. apply shouldSkip_app.
  - unfold shouldSkip, SKIP_PATTERNS. cbn [existsb removelast].
    rewrite !orb_false_r.
    destruct (includes filePath ".gitignore") eqn:Hg;
      [ | now rewrite !orb_false_r ].
    rewrite (includes_weaken filePath ".gitignore" ".git" eq_refl Hg).
    simpl. now rewrite !orb_true_r.
Qed.


(** ** The walk of the content directory *)

(** Structural induction that reaches the entries of directories. *)
Lemma entry_ind' (P : entry -> Prop)
    (HFile : forall n, P (File n))
    (HDir : forall n es, Forall P es -> P (Directory n es))
    (HUnreadable : forall n msg, P (Unreadable n msg)) :
  forall e, P e.
Proof.
  fix IH 1. intros [ n | n es | n msg ].
  - apply HFile.
  - apply HDir. induction es as [ | e es IHes ]; constructor;
      [ apply IH | exact IHes ].
  - apply HUnreadable.
Qed.

Lemma collect_ok (f : entry -> result (list string)) (es : list entry)
    (files : list string) :
  collect f es = Ok files ->
  forall x, x ∈ files -> exists e found, e ∈ es /\ f e = Ok found /\ x ∈ found.
Proof.
  revert files. induction es as [ | e es IH ]; intros files; simpl.
  - intros [= <-] x Hx. inversion Hx.
  - destruct (f e) as [found | msg] eqn:He; [ | discriminate ].
    destruct (collect f es) as [rest | msg]; [ | discriminate ].
    intros [= <-] x Hx. apply elem_of_app in Hx as [Hx | Hx].
    + exists e, found. split; [ now left | now split ].
    + destruct (IH _ eq_refl x Hx) as (e' & found' & Hin & Hf & Hx').
      exists e', found'. split; [ now right | now split ].
Qed.

Section WalkFacts.

Context (path_join : string -> string -> string)
        (path_relative : string -> string -> string).

Lemma collect_elem_of (f : entry -> result (list string)) (es : list entry)
    (files : list string) (e : entry) (found : list string) (x : string) :
  collect f es = Ok files -> e ∈ es -> f e = Ok found -> x ∈ found ->
  x ∈ files.
Proof.
  revert files. induction es as [ | e0 es IH ]; intros files Hc He Hf Hx;
    [ inversion He | ].
  simpl in Hc. destruct (f e0) as [found0 | msg] eqn:He0; [ | discriminate ].
  destruct (collect f es) as [rest | msg]; [ | discriminate ].
  injection Hc as <-. apply elem_of_app.
  apply elem_of_cons in He as [-> | He].
  - left. congruence.
  - right. now apply (IH rest).
Qed.

Lemma collect_each (f : entry -> result (list string)) (es : list entry)
    (files : list string) (e : entry) :
  collect f es = Ok files -> e ∈ es -> exists found, f e = Ok found.
Proof.
  revert files. induction es as [ | e0 es IH ]; intros files Hc He;
    [ inversion He | ].
  simpl in Hc. destruct (f e0) as [found0 | msg] eqn:He0; [ | discriminate ].
  destruct (collect f es) as [rest | msg]; [ | discriminate ].
  apply elem_of_cons in He as [-> | He]; [ eauto | ].
  now apply (IH rest).
Qed.

Lemma listed_not_skipped (baseDir dir : string) (e : entry) (f : string) :
  listed path_join path_relative baseDir dir e f -> shouldSkip f = false.
Proof. induction 1; assumption. Qed.

Lemma visit_listed (baseDir : string) (e : entry) (dir : string)
    (found : list string) (f : string) :
  visit path_join path_relative dir baseDir e = Ok found ->
  f ∈ found <-> listed path_join path_relative baseDir dir e f.
Proof.
  revert dir found.
  induction e as [ n | n sub IHsub | n msg ] using entry_ind';
    intros dir found He; cbn [visit entry_name] in He.
  - destruct (shouldSkip (path_relative baseDir (path_join dir n))) eqn:Hskip;
      injection He as <-.
    + split; [ intros Hf; inversion Hf | ].
      intros Hl. inversion Hl; subst. congruence.
    + rewrite list_elem_of_singleton. split.
      * intros ->. now constructor.
      * intros Hl. now inversion Hl.
  - destruct (shouldSkip (path_relative baseDir (path_join dir n))) eqn:Hskip.
    + injection He as <-. split; [ intros Hf; inversion Hf | ].
      intros Hl. inversion Hl; subst. congruence.
    + split.
      * intros Hf.
        destruct (collect_ok _ _ _ He f Hf) as (e' & found' & Hin & Hv & Hx).
        apply (listed_below _ _ _ _ _ _ e'); [ exact Hskip
                                            | now apply list_elem_of_In | ].
        exact (proj1 (proj1 (Forall_forall _ _) IHsub e' Hin _ _ Hv) Hx).
      * intros Hl. inversion Hl as [ | d n' es e' f' _ Hin Hsub ]; subst.
        apply list_elem_of_In in Hin.
        destruct (collect_each _ _ _ e' He Hin) as (found' & Hv).
        apply (collect_elem_of _ _ _ e' found' f He Hin Hv).
        exact (proj2 (proj1 (Forall_forall _ _) IHsub e' Hin _ _ Hv) Hsub).
  - destruct (shouldSkip (path_relative baseDir (path_join dir n)));
      [ injection He as <- | discriminate ].
    split; [ intros Hf; inversion Hf | intros Hl; inversion Hl ].
Qed.

(** X11. Whatever the tree and whatever the host's path functions, when the
    walk returns, the paths it returns are exactly those listed below the
    entries of the start: each is the relative path of an entry that is not
    a directory, reached through directories only, and neither it nor the
    relative path of any directory on the way matches a skip pattern. *)
Theorem listed_files_are_not_skipped (baseDir : string)
    (entries : list entry) (dir : string) (files : list string) :
  getAllFiles path_join path_relative dir baseDir entries = Ok files ->
  forall f,
    (f ∈ files <->
       exists e, e ∈ entries /\ listed path_join path_relative baseDir dir e f)
    /\ (f ∈ files -> shouldSkip f = false).
Proof.
  unfold getAllFiles. intros Hwalk f.
  assert (Hiff : f ∈ files <->
            exists e, e ∈ entries
                      /\ listed path_join path_relative baseDir dir e f).
  { split.
    - intros Hf.
      destruct (collect_ok _ _ _ Hwalk f Hf) as (e & found & Hin & Hv & Hx).
      exists e. split; [ exact Hin | ].
      exact (proj1 (visit_listed baseDir e dir found f Hv) Hx).
    - intros (e & Hin & Hl).
      destruct (collect_each _ _ _ e Hwalk Hin) as (found & Hv).
      apply (collect_elem_of _ _ _ e found f Hwalk Hin Hv).
      exact (proj2 (visit_listed baseDir e dir found f Hv) Hl). }
  split; [ exact Hiff | ].
  intros Hf. apply Hiff in Hf as (e & _ & Hl).
  exact (listed_not_skipped _ _ _ _ Hl).
Qed.

End WalkFacts.

Lemma prefix_self_app (p b : string) : String.prefix p (p +:+ b) = true.
Proof.
  induction p as [ | c p IH ]; [ apply prefix_empty | ].
  change (String c p +:+ b) with (String c (p +:+ b)). simpl.
  destruct (ascii_dec c c); [ exact IH | congruence ].
Qed.

Lemma includes_middle (a p b : string) : includes (a +:+ (p +:+ b)) p = true.
Proof.
  induction a as [ | c a IH ].
  - change ("" +:+ (p +:+ b)) with (p +:+ b).
    destruct (p +:+ b) eqn:Hpb; cbn [includes]; rewrite <- Hpb;
      now rewrite prefix_self_app.
  - change (String c a +:+ (p +:+ b)) with (String c (a +:+ (p +:+ b))).
    cbn [includes]. rewrite IH. apply orb_true_r.
Qed.

Lemma collect_flat_map (f : entry -> result (list string))
    (g : entry -> list string) (es : list entry) :
  Forall (fun e => f e = Ok (g e)) es -> collect f es = Ok (flat_map g es).
Proof.
  induction 1 as [ | e es He _ IH ]; [ reflexivity | ].
  simpl. now rewrite He, IH.
Qed.

Lemma filter_flat_map {A B} (P : B -> bool) (g : A -> list B) (l : list A) :
  List.filter P (flat_map g l) = flat_map (fun x => List.filter P (g x)) l.
Proof.
  induction l as [ | x l IH ]; [ reflexivity | ].
  simpl. now rewrite List.filter_app, IH.
Qed.

Lemma List_filter_none {A} (P : A -> bool) (l : list A) :
  (forall x, x ∈ l -> P x = false) -> List.filter P l = [].
Proof.
  induction l as [ | x l IH ]; intros Hl; [ reflexivity | ].
  simpl. rewrite (Hl x) by now left. apply IH. intros y Hy. apply Hl. now right.
Qed.

Lemma regular_entries (path_join path_relative : string -> string -> string)
    (dir baseDir : string) (es : list entry) :
  foldr (fun e' P => regular path_join path_relative dir baseDir e' /\ P)
    True es
  <-> Forall (regular path_join path_relative dir baseDir) es.
Proof.
  induction es as [ | e es IH ]; simpl.
  - split; [ constructor | trivial ].
  - rewrite Forall_cons. now rewrite IH.
Qed.

Lemma child_path_not_env (parent name : string) :
  parent <> "" -> child_path parent name <> ".env".
Proof.
  intros Hne. unfold child_path.
  destruct (String.eqb_spec parent ""); [ contradiction | ].
  intros Heq. pose proof (includes_middle parent "/" name) as Hin.
  rewrite Heq in Hin. discriminate.
Qed.

Lemma skipped_below (e : entry) (parent f : string) :
  shouldSkip parent = true -> parent <> ".env" ->
  f ∈ all_files parent e -> shouldSkip f = true.
Proof.
  revert parent. induction e as [ n | n es IH | n msg ] using entry_ind';
    intros parent Hskip Henv Hf; simpl in Hf.
  - apply list_elem_of_singleton in Hf as ->. unfold child_path.
    destruct (String.eqb_spec parent "") as [-> | Hne]; [ discriminate | ].
    now apply shouldSkip_app.
  - apply list_elem_of_In, in_flat_map in Hf as (e & He & Hf).
    apply list_elem_of_In in He, Hf.
    assert (Hne : parent <> "") by (intros ->; discriminate).
    apply (proj1 (Forall_forall _ _) IH e He (child_path parent n));
      [ | now apply child_path_not_env | exact Hf ].
    unfold child_path. destruct (String.eqb_spec parent ""); [ contradiction | ].
    now apply shouldSkip_app.
  - inversion Hf.
Qed.

Section WalkRegular.

Context (path_join : string -> string -> string)
        (path_relative : string -> string -> string)
        (baseDir : string).

Lemma visit_regular (e : entry) (dir : string) :
  regular path_join path_relative dir baseDir e ->
  visit path_join path_relative dir baseDir e
  = Ok (List.filter (fun f => negb (shouldSkip f))
          (all_files (path_relative baseDir dir) e)).
Proof.
  revert dir. induction e as [ n | n es IH | n msg ] using entry_ind';
    intros dir [Hrel Hreg]; cbn [visit entry_name all_files] in *.
  - rewrite Hrel. cbn [List.filter].
    now destruct (shouldSkip (child_path (path_relative baseDir dir) n)).
  - rewrite Hrel. destruct Hreg as [Henv Hsub]. apply regular_entries in Hsub.
    destruct (shouldSkip (child_path (path_relative baseDir dir) n)) eqn:Hskip.
    + f_equal. symmetry. apply List_filter_none. intros f Hf.
      apply list_elem_of_In, in_flat_map in Hf as (e & He & Hf).
      apply list_elem_of_In in He, Hf.
      now rewrite (skipped_below e _ f Hskip Henv Hf).
    + rewrite filter_flat_map. apply collect_flat_map.
      apply Forall_forall. intros e He.
      rewrite (proj1 (Forall_forall _ _) IH e He (path_join dir n)).
      * now rewrite Hrel.
      * exact (proj1 (Forall_forall _ _) Hsub e He).
  - contradiction.
Qed.

(** X12. In a content directory whose paths nest, whose directories can all
    be listed and none of which has the relative path [.env], pruning the
    skipped directories loses nothing: the walk returns the files of the
    whole tree whose relative path matches no skip pattern, in the order of
    the listings. *)
Theorem walk_lists_unskipped_files (entries : list entry) :
  path_relative baseDir baseDir = "" ->
  Forall (regular path_join path_relative baseDir baseDir) entries ->
  getAllFiles path_join path_relative baseDir baseDir entries
  = Ok (List.filter (fun f => negb (shouldSkip f))
          (flat_map (all_files "") entries)).
Proof.
  intros Hbase Hreg. unfold getAllFiles. rewrite filter_flat_map.
  apply collect_flat_map. apply Forall_forall. intros e He.
  rewrite visit_regular by exact (proj1 (Forall_forall _ _) Hreg e He).
  now rewrite Hbase.
Qed.

End WalkRegular.

(** ** The upload loop *)

Lemma append_inj (a x y : string) : a +:+ x = a +:+ y -> x = y.
Proof.
  induction a as [ | c a IH ]; [ trivial | ].
  change (String c a +:+ x) with (String c (a +:+ x)).
  change (String c a +:+ y) with (String c (a +:+ y)).
  intros [= H]. now apply IH.
Qed.

Lemma append_assoc (a b c : string) : (a +:+ b) +:+ c = a +:+ (b +:+ c).
Proof.
  induction a as [ | x a IH ]; [ reflexivity | ].
  change (String x a +:+ b) with (String x (a +:+ b)).
  change (String x (a +:+ b) +:+ c) with (String x ((a +:+ b) +:+ c)).
  change (String x a +:+ (b +:+ c)) with (String x (a +:+ (b +:+ c))).
  now rewrite IH.
Qed.

(** X13. Within one upload no two files share a key, so no file overwrites
    another.  Across branches keys do collide: the key of file [f] on a
    branch named [b/d] (or [b:d] for Redis) is the key of the file [d/f]
    (or [d:f]) on branch [b]. *)
Theorem keys_within_and_across_branches (b : backend) (branch : string) :
  (forall f1 f2, store_key b branch f1 = store_key b branch f2 -> f1 = f2)
  /\ (forall d f,
        store_key Blob (branch +:+ "/" +:+ d) f
        = store_key Blob branch (d +:+ "/" +:+ f))
  /\ (forall d f,
        store_key Redis (branch +:+ ":" +:+ d) f
        = store_key Redis branch (d +:+ ":" +:+ f)).
Proof.
  split; [ | split ].
  - intros f1 f2 Hk. destruct b; unfold store_key in Hk;
      repeat apply append_inj in Hk; exact Hk.
  - intros d f. unfold store_key. now rewrite !append_assoc.
  - intros d f. unfold store_key. now rewrite !append_assoc.
Qed.

Section ScriptFacts.

Context (H : Host) (b : backend).


Lemma upload_all_reads (files : list string) (st : Progress) :
  (forall f, f ∈ files ->
     exists c, fs_readFileSync H (path_join H (CONTENT_DIR H) f) = Ok c) ->
  exists st', upload_all H b files st = (st', None)
    /\ uploaded st' + failed st' = uploaded st + failed st + length files
    /\ length (errors st') = length (errors st) + failed st' - failed st
    /\ failed st <= failed st'
    /\ (failed st' = failed st <->
          forall f, f ∈ files ->
            exists c, uploadFile H (path_join H (CONTENT_DIR H) f)
                        (store_key b (branch H) f) = Ok (Success c))
    /\ (forall k c, (k, c) ∈ stored st' <->
          (k, c) ∈ stored st
          \/ exists f, f ∈ files /\ k = store_key b (branch H) f
               /\ uploadFile H (path_join H (CONTENT_DIR H) f) k
                  = Ok (Success c)).
Proof.
  revert st. induction files as [ | f files IH ]; intros st Hread.
  - exists st. simpl. split; [ reflexivity | ]. split; [ lia | ].
    split; [ lia | ]. split; [ lia | ]. split.
    + split; [ intros _ f Hf; inversion Hf | reflexivity ].
    + intros k c. split; [ now left | ].
      intros [Hin | (f & Hf & _)]; [ exact Hin | inversion Hf ].
  - destruct (Hread f) as (c & Hc); [ now left | ].
    cbn [upload_all]. unfold upload_step, uploadFile. rewrite Hc.
    destruct (store_put H (store_key b (branch H) f) c) as [[] | e] eqn:Hput.
    + match goal with |- context [ upload_all H b files ?s ] =>
        destruct (IH s) as (st' & Hall & Hcount & Herr & Hmono & Hzero & Hstored)
      end.
      { intros g Hg. apply Hread. now right. }
      cbn [uploaded failed errors stored] in *.
      exists st'. split; [ exact Hall | ]. split; [ simpl; lia | ].
      split; [ exact Herr | ]. split; [ exact Hmono | ]. split.
      * rewrite Hzero. split.
        -- intros Hrest g Hg. apply elem_of_cons in Hg as [-> | Hg];
             [ | now apply Hrest ].
           exists c. unfold uploadFile. now rewrite Hc, Hput.
        -- intros Hrest g Hg. apply Hrest. now right.
      * intros k c'. rewrite Hstored. rewrite elem_of_app, list_elem_of_singleton.
        split.
        -- intros [[Hin | [= -> ->]] | (g & Hg & Hk & Hup)].
           ++ now left.
           ++ right. exists f. split; [ now left | split; [ reflexivity | ] ].
              unfold uploadFile. now rewrite Hc, Hput.
           ++ right. exists g. split; [ now right | now split ].
        -- intros [Hin | (g & Hg & Hk & Hup)]; [ now left; left | ].
           apply elem_of_cons in Hg as [-> | Hg].
           ++ left; right. subst k. unfold uploadFile in Hup.
              rewrite Hc, Hput in Hup. now injection Hup as ->.
           ++ right. exists g. now split.
    + match goal with |- context [ upload_all H b files ?s ] =>
        destruct (IH s) as (st' & Hall & Hcount & Herr & Hmono & Hzero & Hstored)
      end.
      { intros g Hg. apply Hread. now right. }
      cbn [uploaded failed errors stored] in *.
      exists st'. split; [ exact Hall | ]. split; [ simpl; lia | ].
      split; [ rewrite length_app in Herr; simpl in Herr; lia | ].
      split; [ lia | ]. split.
      * split; [ lia | ]. intros Hrest. destruct (Hrest f) as (c' & Hup);
          [ now left | ].
        unfold uploadFile in Hup. rewrite Hc, Hput in Hup. discriminate.
      * intros k c'. rewrite Hstored. split.
        -- intros [Hin | (g & Hg & Hk & Hup)]; [ now left | ].
           right. exists g. split; [ now right | now split ].
        -- intros [Hin | (g & Hg & Hk & Hup)]; [ now left | ].
           apply elem_of_cons in Hg as [-> | Hg].
           ++ subst k. unfold uploadFile in Hup.
              rewrite Hc, Hput in Hup. discriminate.
           ++ right. exists g. now split.
Qed.


Lemma upload_all_app (l1 l2 : list string) (st : Progress) :
  upload_all H b (l1 ++ l2) st
  = match upload_all H b l1 st with
    | (st', None) => upload_all H b l2 st'
    | (st', Some e) => (st', Some e)
    end.
Proof.
  revert st. induction l1 as [ | f l1 IH ]; intros st; [ reflexivity | ].
  simpl. destruct (upload_step H b st f); [ apply IH | reflexivity ].
Qed.

Lemma upload_all_completes (files : list string) (st : Progress) :
  snd (upload_all H b files st) = None ->
  forall f, f ∈ files ->
    exists c, fs_readFileSync H (path_join H (CONTENT_DIR H) f) = Ok c.
Proof.
  revert st. induction files as [ | f files IH ]; intros st Hnone g Hg;
    [ inversion Hg | ].
  cbn [upload_all] in Hnone. unfold upload_step, uploadFile in Hnone.
  destruct (fs_readFileSync H (path_join H (CONTENT_DIR H) f)) as [c | e] eqn:Hc;
    [ | discriminate ].
  apply elem_of_cons in Hg as [-> | Hg]; [ eauto | ].
  destruct (store_put H _ c); exact (IH _ Hnone g Hg).
Qed.

(** X14. The script ends with status 0 exactly when the credentials are set,
    the content directory can be walked, and every file it lists was read
    and stored; otherwise it ends with status 1.  The site is asked to
    revalidate only after a run that ends with status 0, and only when both
    its address and its secret are set. *)
Theorem upload_exit_status :
  (exit_status (main H b) = 0%Z \/ exit_status (main H b) = 1%Z)
  /\ (exit_status (main H b) = 0%Z <->
        credentials H b = true
        /\ exists entries files,
             content H = Ok entries
             /\ getAllFiles (path_join H) (path_relative H)
                  (CONTENT_DIR H) (CONTENT_DIR H) entries = Ok files
             /\ forall f, f ∈ files ->
                  exists c, uploadFile H (path_join H (CONTENT_DIR H) f)
                              (store_key b (branch H) f) = Ok (Success c))
  /\ (requests (main H b) <> [] ->
        exit_status (main H b) = 0%Z
        /\ is_set (getenv H "DOCS_SITE_URL") = true
        /\ is_set (getenv H "REVALIDATE_SECRET") = true
        /\ exists url secret,
             requests (main H b) = [(url, secret, branch H)]).
Proof.
  unfold main. destruct (credentials H b) eqn:Hcred; cbn [negb].
  2: { cbn. split; [ now right | ]. split; [ | congruence ].
       split; [ discriminate | intros [? _]; discriminate ]. }
  destruct (content H) as [entries | e] eqn:Hcontent.
  2: { cbn. split; [ now right | ]. split; [ | congruence ].
       split; [ discriminate | intros (_ & ? & ? & ? & _); discriminate ]. }
  destruct (getAllFiles _ _ _ _ entries) as [files | e] eqn:Hfiles.
  2: { cbn. split; [ now right | ]. split; [ | congruence ].
       split; [ discriminate | ].
       intros (_ & ? & ? & [= <-] & Hg & _). congruence. }
  destruct (upload_all H b files nothing) as [st [e | ]] eqn:Hall.
  { cbn. split; [ now right | ]. split; [ | congruence ].
    split; [ discriminate | ].
    intros (_ & ? & ? & [= <-] & Hg & Hup). rewrite Hfiles in Hg.
    injection Hg as <-.
    destruct (upload_all_reads files nothing) as (st' & Hall' & _).
    { intros f Hf. destruct (Hup f Hf) as (c & Hc). unfold uploadFile in Hc.
      destruct (fs_readFileSync H _) as [c0 | ]; [ eauto | discriminate ]. }
    congruence. }
  destruct (upload_all_reads files nothing) as
    (st' & Hall' & _ & Herr & _ & Hzero & _).
  { apply (upload_all_completes files nothing). now rewrite Hall. }
  rewrite Hall in Hall'. injection Hall' as <-. cbn in Herr, Hzero.
  destruct (0 <? length (errors st))%nat eqn:Hlen.
  - apply Nat.ltb_lt in Hlen. cbn. split; [ now right | ].
    split; [ | congruence ]. split; [ discriminate | ].
    intros (_ & ? & ? & [= <-] & Hg & Hup). rewrite Hfiles in Hg.
    injection Hg as <-. apply Hzero in Hup. lia.
  - apply Nat.ltb_ge in Hlen. cbn. split; [ now left | ]. split.
    + split; [ intros _ | reflexivity ]. split; [ reflexivity | ].
      exists entries, files. split; [ reflexivity | split; [ exact Hfiles | ] ].
      apply Hzero. lia.
    + unfold triggerRevalidation, is_set.
      destruct (getenv H "DOCS_SITE_URL") as [u | ]; [ | congruence ].
      destruct (getenv H "REVALIDATE_SECRET") as [s | ]; [ | congruence ].
      destruct (u =? "") eqn:Hu; cbn; [ congruence | ].
      destruct (s =? "") eqn:Hs; cbn; [ congruence | ]. eauto 6.
Qed.

(** X15. A store write that fails does not stop the upload: when every
    listed file can be read, every one of them is attempted, the two
    counters add up to their number, and the store holds the content of
    every file whose write succeeded, whether or not the run ends with
    status 1. *)
Theorem failed_writes_do_not_stop_the_upload (entries : list entry)
    (files : list string) :
  credentials H b = true ->
  content H = Ok entries ->
  getAllFiles (path_join H) (path_relative H)
    (CONTENT_DIR H) (CONTENT_DIR H) entries = Ok files ->
  (forall f, f ∈ files ->
     exists c, fs_readFileSync H (path_join H (CONTENT_DIR H) f) = Ok c) ->
  uploaded (progress (main H b)) + failed (progress (main H b)) = length files
  /\ length (errors (progress (main H b))) = failed (progress (main H b))
  /\ (forall k c, (k, c) ∈ stored (progress (main H b)) <->
        exists f, f ∈ files /\ k = store_key b (branch H) f
          /\ uploadFile H (path_join H (CONTENT_DIR H) f) k = Ok (Success c)).
Proof.
  intros Hcred Hcontent Hfiles Hread.
  destruct (upload_all_reads files nothing Hread) as
    (st' & Hall & Hcount & Herr & _ & _ & Hstored).
  assert (Hprog : progress (main H b) = st').
  { unfold main. rewrite Hcred, Hcontent, Hfiles, Hall. cbn [negb].
    now destruct (0 <? length (errors st'))%nat. }
  rewrite Hprog. cbn in Hcount, Herr. split; [ exact Hcount | ].
  split; [ lia | ]. intros k c. rewrite Hstored. cbn. split.
  - intros [Hin | Hex]; [ inversion Hin | exact Hex ].
  - intros Hex. now right.
Qed.

(** X16. A file that cannot be read stops the upload: the files listed
    before it are attempted, the files listed after it are not, whatever the
    store would have answered for them, no revalidation is asked for, and
    the run ends with status 1. *)
Theorem unreadable_file_stops_the_upload (entries : list entry)
    (before after : list string) (file e : string) :
  credentials H b = true ->
  content H = Ok entries ->
  getAllFiles (path_join H) (path_relative H)
    (CONTENT_DIR H) (CONTENT_DIR H) entries = Ok (before ++ file :: after) ->
  (forall f, f ∈ before ->
     exists c, fs_readFileSync H (path_join H (CONTENT_DIR H) f) = Ok c) ->
  fs_readFileSync H (path_join H (CONTENT_DIR H) file) = Throw e ->
  exit_status (main H b) = 1%Z
  /\ requests (main H b) = []
  /\ uploaded (progress (main H b)) + failed (progress (main H b))
     = length before
  /\ (forall k c, (k, c) ∈ stored (progress (main H b)) ->
        exists f, f ∈ before /\ k = store_key b (branch H) f).
Proof.
  intros Hcred Hcontent Hfiles Hread Hfail.
  destruct (upload_all_reads before nothing Hread) as
    (st' & Hall & Hcount & _ & _ & _ & Hstored).
  assert (Hrun : upload_all H b (before ++ file :: after) nothing = (st', Some e)).
  { rewrite upload_all_app, Hall. cbn [upload_all].
    unfold upload_step, uploadFile. now rewrite Hfail. }
  unfold main. rewrite Hcred, Hcontent, Hfiles, Hrun. cbn.
  split; [ reflexivity | split; [ reflexivity | ] ]. cbn in Hcount.
  split; [ lia | ]. intros k c Hin. apply Hstored in Hin as [Hin | Hex].
  - inversion Hin.
  - destruct Hex as (f & Hf & Hk & _). eauto.
Qed.

End ScriptFacts.

End UploadFacts.

(** * The watcher *)

Module WatchFacts.
Import Watch.

Lemma fired_burst (paths : list string) (p : string) (rest : list signal)
    (pending : option string) :
  fired (map Event paths ++ Event p :: Expiry :: rest) pending
  = p :: fired rest None.
Proof.
  revert pending. induction paths as [ | q paths IH ]; intros pending.
  - reflexivity.
  - simpl. apply IH.
Qed.

(** X17. The debounce keeps one path: of a burst of events that the timer
    outlives, only the last path gets a callback, whatever was pending
    before.  When that last path is not a specification, the generator does
    not run and the output directory stays as it was, although
    specifications may have changed earlier in the burst. *)
Theorem burst_runs_the_last_path_only (W : Watcher) (paths : list string)
    (p : string) (disk0 : gmap string string) :
  session W (map Event paths ++ [Event p; Expiry]) disk0
  = [on_timeout W p disk0]
  /\ (isSpecFile p = false ->
        generated (on_timeout W p disk0) = None
        /\ output_dir (on_timeout W p disk0) = disk0).
Proof.
  split.
  - unfold session. now rewrite fired_burst.
  - intros Hspec. unfold on_timeout, upload_and_revalidate. rewrite Hspec.
    now destruct (uploadToRedis W p).
Qed.

Section CallbackFacts.

Context (W : Watcher).

Lemma isSpecFile_nonempty (p : string) : isSpecFile p = true -> p <> "".
Proof. intros H ->. discriminate. Qed.

Lemma upload_and_revalidate_posts (p : string) (r : option Run)
    (lg : list watch_event) (d : gmap string string) :
  posts (upload_and_revalidate W p r lg d)
  = [(NEXT_APP_URL W +:+ "/api/revalidate", REVALIDATE_SECRET W, p,
      CURRENT_BRANCH W)]
  /\ redis_writes (upload_and_revalidate W p r lg d) = fst (uploadToRedis W p).
Proof.
  unfold upload_and_revalidate. now destruct (uploadToRedis W p).
Qed.

Lemma select_throws (E : Env) (p e : string) :
  p <> "" ->
  fst (select_specFiles E (Some p)) = Throw e <->
  is_shared_component E p = true /\ fs_readdirSync E (SPECS_DIR E) = Throw e.
Proof.
  intros Hne. apply String.eqb_neq in Hne.
  destruct (full_mode E (Some p)) eqn:Hmode.
  - rewrite (select_full_mode E _ Hmode), full_build_throws.
    unfold full_mode in Hmode. rewrite Hne in Hmode. simpl in Hmode.
    rewrite Hmode. tauto.
  - destruct (select_incremental E _ Hmode) as (r & lg & ->).
    unfold full_mode in Hmode. rewrite Hne in Hmode. simpl in Hmode.
    rewrite Hmode. simpl. split; [ discriminate | intros [? _]; discriminate ].
Qed.

(** X18. The callback asks the site to revalidate the changed path, once,
    unless the path is a specification and the generator's promise
    rejects, which happens only when the output directory cannot be created
    or, for a shared component, when the specs directory cannot be listed.
    A specification whose own generation fails, or that was deleted, does
    not make the promise reject: the site is asked to revalidate all the
    same. *)
Theorem revalidation_is_skipped_only_on_rejection (p : string)
    (disk0 : gmap string string) :
  (posts (on_timeout W p disk0) = []
   \/ posts (on_timeout W p disk0)
      = [(NEXT_APP_URL W +:+ "/api/revalidate", REVALIDATE_SECRET W, p,
          CURRENT_BRANCH W)])
  /\ (posts (on_timeout W p disk0) = [] <->
        isSpecFile p = true
        /\ ((exists e, ensure_output_dir (generator W) = Throw e)
            \/ (ensure_output_dir (generator W) = Ok tt
                /\ is_shared_component (generator W) p = true
                /\ exists e, fs_readdirSync (generator W)
                               (SPECS_DIR (generator W)) = Throw e))).
Proof.
  unfold on_timeout. destruct (isSpecFile p) eqn:Hspec.
  - pose proof (isSpecFile_nonempty p Hspec) as Hne.
    destruct (settled (generateSpecs (generator W) (Some p) disk0))
      as [ | e ] eqn:Hset.
    + destruct (upload_and_revalidate_posts p
                  (Some (generateSpecs (generator W) (Some p) disk0))
                  [Changed p; Spec_file_changed]
                  (disk (generateSpecs (generator W) (Some p) disk0)))
        as [-> _].
      split; [ now right | ]. split; [ discriminate | ].
      intros [_ [[e He] | (Hdir & Hshared & e & He)]].
      * assert (Hr : settled (generateSpecs (generator W) (Some p) disk0)
                     = Rejected e)
          by (apply generateSpecs_rejects; now left).
        congruence.
      * assert (Hr : settled (generateSpecs (generator W) (Some p) disk0)
                     = Rejected e).
        { apply generateSpecs_rejects. right. split; [ exact Hdir | ].
          now apply select_throws. }
        congruence.
    + cbn [posts]. split; [ now left | ]. split; [ intros _ | reflexivity ].
      split; [ reflexivity | ].
      apply generateSpecs_rejects in Hset as [Hdir | [Hdir Hsel]].
      * left. eauto.
      * right. apply select_throws in Hsel as [Hshared Hread]; [ | exact Hne ].
        eauto.
  - destruct (upload_and_revalidate_posts p None [Changed p] disk0) as [-> _].
    split; [ now right | ]. split; [ discriminate | intros [? _]; discriminate ].
Qed.

(** X19. The callback writes to Redis at most once, under the key made of
    the branch and the changed path, and only when the upload is enabled,
    the generator did not reject, the file exists, it can be read and Redis
    acknowledges the write.  The branch of the callback that reports a
    missing client is never taken. *)
Theorem watcher_upload (p : string) (disk0 : gmap string string)
    (k c : string) :
  ((k, c) ∈ redis_writes (on_timeout W p disk0) <->
     posts (on_timeout W p disk0) <> []
     /\ UPLOAD_TO_REDIS W = true
     /\ existsSync W (in_cwd W p) = true
     /\ readFileSync W (in_cwd W p) = Ok c
     /\ k = "content:" +:+ CURRENT_BRANCH W +:+ ":" +:+ p
     /\ redis_set W k c = Ok tt)
  /\ length (redis_writes (on_timeout W p disk0)) <= 1
  /\ Redis_not_initialized ∉ log (on_timeout W p disk0).
Proof.
  assert (Hup : ((k, c) ∈ fst (uploadToRedis W p) <->
                   UPLOAD_TO_REDIS W = true
                   /\ existsSync W (in_cwd W p) = true
                   /\ readFileSync W (in_cwd W p) = Ok c
                   /\ k = "content:" +:+ CURRENT_BRANCH W +:+ ":" +:+ p
                   /\ redis_set W k c = Ok tt)
                /\ length (fst (uploadToRedis W p)) <= 1
                /\ Redis_not_initialized ∉ snd (uploadToRedis W p)).
  { unfold uploadToRedis, redis. destruct (UPLOAD_TO_REDIS W); cbn [negb].
    2: { cbn. split; [ | split; [ lia | apply not_elem_of_nil ] ].
         split; [ intros Hin; inversion Hin | intros [? _]; discriminate ]. }
    destruct (existsSync W (in_cwd W p)); cbn [negb].
    2: { cbn. split; [ | split; [ lia | ] ].
         - split; [ intros Hin; inversion Hin | intros (_ & ? & _); discriminate ].
         - intros Hin. apply list_elem_of_singleton in Hin. discriminate. }
    destruct (readFileSync W (in_cwd W p)) as [c0 | e].
    2: { cbn. split; [ | split; [ lia | ] ].
         - split; [ intros Hin; inversion Hin
                  | intros (_ & _ & ? & _); discriminate ].
         - intros Hin. apply list_elem_of_singleton in Hin. discriminate. }
    destruct (redis_set W _ c0) as [[] | e] eqn:Hset; cbn.
    - split; [ | split; [ lia | ] ].
      + rewrite list_elem_of_singleton. split.
        * intros [= -> ->]. now repeat split.
        * intros (_ & _ & [= <-] & -> & _). reflexivity.
      + intros Hin. apply elem_of_cons in Hin as [Hin | Hin]; [ discriminate | ].
        apply list_elem_of_singleton in Hin. discriminate.
    - split; [ | split; [ lia | ] ].
      + split; [ intros Hin; inversion Hin | ].
        intros (_ & _ & [= <-] & -> & Hs). congruence.
      + intros Hin. apply elem_of_cons in Hin as [Hin | Hin]; [ discriminate | ].
        apply list_elem_of_singleton in Hin. discriminate. }
  destruct Hup as (Hiff & Hlen & Hlog).
  assert (Hlog' : forall r lg d, Redis_not_initialized ∉ lg ->
            Redis_not_initialized ∉ log (upload_and_revalidate W p r lg d)).
  { intros r lg d Hlg. unfold upload_and_revalidate.
    destruct (uploadToRedis W p) as [ws lg'] eqn:Hu. cbn [log snd] in *.
    rewrite !elem_of_app. intros [Hin | [Hin | [Hin | Hin]]].
    - contradiction.
    - contradiction.
    - apply list_elem_of_singleton in Hin. discriminate.
    - apply list_elem_of_singleton in Hin.
      destruct (fetch W _ _ _ _); discriminate. }
  unfold on_timeout. destruct (isSpecFile p).
  - destruct (settled (generateSpecs (generator W) (Some p) disk0)) as [ | e ].
    + destruct (upload_and_revalidate_posts p
                  (Some (generateSpecs (generator W) (Some p) disk0))
                  [Changed p; Spec_file_changed]
                  (disk (generateSpecs (generator W) (Some p) disk0)))
        as [-> ->].
      split; [ | split; [ exact Hlen | ] ].
      * rewrite Hiff. split; [ intros Hall; split; [ discriminate | exact Hall ]
                             | intros [_ Hall]; exact Hall ].
      * apply Hlog'. intros Hin.
        apply elem_of_cons in Hin as [Hin | Hin]; [ discriminate | ].
        apply list_elem_of_singleton in Hin. discriminate.
    + cbn. split; [ | split; [ lia | ] ].
      * split; [ intros Hin; inversion Hin | intros [Hne _]; congruence ].
      * intros Hin. apply elem_of_cons in Hin as [Hin | Hin]; [ discriminate | ].
        apply elem_of_cons in Hin as [Hin | Hin]; [ discriminate | ].
        apply list_elem_of_singleton in Hin. discriminate.
  - destruct (upload_and_revalidate_posts p None [Changed p] disk0) as [-> ->].
    split; [ | split; [ exact Hlen | ] ].
    * rewrite Hiff. split; [ intros Hall; split; [ discriminate | exact Hall ]
                           | intros [_ Hall]; exact Hall ].
    * apply Hlog'. intros Hin. apply list_elem_of_singleton in Hin. discriminate.
Qed.

(** X25. Deleting a specification does not delete its artifact: when the
    changed path is a specification, not a shared component, that is no
    longer in the specs directory, the generator writes nothing, the
    generated directory stays as it was, and the site is asked to
    revalidate. *)
Theorem deleted_specification_keeps_its_artifact (p : string)
    (disk0 : gmap string string) :
  isSpecFile p = true ->
  ensure_output_dir (generator W) = Ok tt ->
  is_shared_component (generator W) p = false ->
  fs_existsSync (generator W) (full_path (generator W) p) = false ->
  generated (on_timeout W p disk0)
  = Some {| settled := Resolved; promises := []; results := []; writes := [];
            disk := disk0;
            console := [File_not_found (full_path (generator W) p)] |}
  /\ output_dir (on_timeout W p disk0) = disk0
  /\ posts (on_timeout W p disk0)
     = [(NEXT_APP_URL W +:+ "/api/revalidate", REVALIDATE_SECRET W, p,
         CURRENT_BRANCH W)].
Proof.
  intros Hspec Hdir Hshared Hgone.
  pose proof (isSpecFile_nonempty p Hspec) as Hne. apply String.eqb_neq in Hne.
  assert (Hrun : generateSpecs (generator W) (Some p) disk0
                 = {| settled := Resolved; promises := []; results := [];
                      writes := []; disk := disk0;
                      console := [File_not_found (full_path (generator W) p)] |}).
  { unfold generateSpecs, select_specFiles.
    now rewrite Hdir, Hne, Hshared, Hgone. }
  unfold on_timeout. rewrite Hspec, Hrun. cbn [settled disk].
  unfold upload_and_revalidate. now destruct (uploadToRedis W p).
Qed.

End CallbackFacts.

End WatchFacts.

(** * The navigation of the test content *)

Lemma replace_keys (k : string) (v : json) (o : list (string * json)) :
  map fst (map (fun kv : string * json =>
                  if fst kv =? k then (fst kv, v) else kv) o)
  = map fst o.
Proof.
  induction o as [ | [a x] o IH ]; [ reflexivity | ].
  simpl. rewrite IH. now destruct (a =? k).
Qed.

Lemma insert_index_keys (i : N) (k : string) (v : json)
    (o : list (string * json)) :
  Permutation (map fst (insert_index i k v o)) (k :: map fst o).
Proof.
  induction o as [ | [a x] o IH ]; [ reflexivity | ].
  simpl. destruct (array_index a) as [j | ]; [ | reflexivity ].
  destruct (j <? i)%N; [ | reflexivity ].
  simpl. rewrite IH. apply perm_swap.
Qed.

Lemma obj_set_keys (k : string) (v : json) (o : list (string * json)) :
  if has_key k o then map fst (obj_set k v o) = map fst o
  else Permutation (map fst (obj_set k v o)) (k :: map fst o).
Proof.
  unfold obj_set. destruct (has_key k o).
  - apply replace_keys.
  - destruct (array_index k) as [i | ]; [ apply insert_index_keys | ].
    rewrite map_app. simpl. symmetry. apply Permutation_cons_append.
Qed.

Lemma has_key_keys (k : string) (o : list (string * json)) :
  has_key k o = true <-> k ∈ map fst o.
Proof.
  induction o as [ | [a x] o IH ]; simpl.
  - split; [ discriminate | intros H; inversion H ].
  - rewrite orb_true_iff, IH, elem_of_cons, String.eqb_eq.
    split; intros [H | H]; auto.
Qed.

Lemma js_get_NoDup (k : string) (v : json) (o : list (string * json)) :
  NoDup (map fst o) -> (k, v) ∈ o -> js_get k o = Some v.
Proof.
  induction o as [ | [a x] o IH ]; intros Hnd Hin; [ inversion Hin | ].
  simpl in Hnd. apply NoDup_cons in Hnd as [Ha Hnd].
  apply elem_of_cons in Hin as [[= <- <-] | Hin]; simpl.
  - assert (Hnone : js_get k o = None).
    { apply js_get_None. destruct (has_key k o) eqn:Hk; [ | reflexivity ].
      apply has_key_keys in Hk. contradiction. }
    now rewrite Hnone, String.eqb_refl.
  - now rewrite (IH Hnd Hin).
Qed.

Module TestContentFacts.
Import TestContent.

Lemma obj_set_elem_of (k : string) (v : json) (o : list (string * json))
    (kv : string * json) :
  kv ∈ obj_set k v o -> kv = (k, v) \/ (fst kv <> k /\ kv ∈ o).
Proof.
  unfold obj_set. destruct (has_key k o) eqn:Hkey.
  - intros H. apply list_elem_of_fmap in H as ([a x] & -> & Hin). simpl.
    destruct (String.eqb_spec a k) as [-> | Hne]; [ now left | right ].
    split; [ exact Hne | exact Hin ].
  - assert (Hfresh : forall kv', kv' ∈ o -> fst kv' <> k).
    { intros [a x] Hin Heq. simpl in Heq. subst a.
      assert (Hk : has_key k o = true)
        by (apply has_key_keys, list_elem_of_fmap; exists (k, x); now split).
      congruence. }
    destruct (array_index k) as [i | ].
    + clear Hkey. induction o as [ | [a x] o IH ]; simpl.
      * intros H. apply list_elem_of_singleton in H. now left.
      * assert (Hrest : forall kv', kv' ∈ o -> fst kv' <> k)
          by (intros kv' Hin; apply Hfresh; now right).
        assert (Hcons : kv ∈ (k, v) :: (a, x) :: o ->
                        kv = (k, v) \/ fst kv <> k /\ kv ∈ (a, x) :: o).
        { intros H. apply elem_of_cons in H as [-> | H]; [ now left | right ].
          split; [ now apply Hfresh | exact H ]. }
        destruct (array_index a) as [j | ]; [ | exact Hcons ].
        destruct (j <? i)%N; [ | exact Hcons ].
        intros H. apply elem_of_cons in H as [-> | H].
        -- right. split; [ apply Hfresh; now left | now left ].
        -- destruct (IH Hrest H) as [-> | [Hne Hin]]; [ now left | right ].
           split; [ exact Hne | now right ].
    + intros H. apply elem_of_app in H as [H | H].
      * right. split; [ now apply Hfresh | exact H ].
      * apply list_elem_of_singleton in H. now left.
Qed.


Lemma pages_of_app (k : string) (l1 l2 : list page) :
  pages_of k (l1 ++ l2) = pages_of k l1 ++ pages_of k l2.
Proof. apply List.filter_app. Qed.

Lemma pages_of_none (k : string) (l : list page) :
  (forall p, p ∈ l -> section p <> k) -> pages_of k l = [].
Proof.
  intros H. apply UploadFacts.List_filter_none. intros p Hp. apply String.eqb_neq. now apply H.
Qed.

Lemma first_seen_snoc (l : list string) (k : string) :
  first_seen (l ++ [k])
  = if bool_decide (k ∈ first_seen l) then first_seen l
    else first_seen l ++ [k].
Proof. unfold first_seen. now rewrite fold_left_app. Qed.

Lemma group_page_grouped (o : list (string * json)) (done : list page)
    (p : page) :
  grouped o done ->
  section p ∉ Object_prototype ->
  exists o', group_page o p = Ok o'
    /\ grouped o' (done ++ [p])
    /\ (array_index (section p) = None ->
        map fst o' = if bool_decide (section p ∈ map fst o) then map fst o
                     else map fst o ++ [section p]).
Proof.
  intros (Hnd & Hkeys & Hvals) Hproto. unfold group_page.
  destruct (decide (section p ∈ map fst o)) as [Hin | Hnew].
  - pose proof Hin as Hin'. apply list_elem_of_fmap in Hin' as ([a v] & Ha & Hv).
    simpl in Ha. subst a. pose proof (Hvals _ _ Hv) as Hval.
    rewrite (js_get_NoDup _ _ _ Hnd Hv). subst v. cbn [truthy].
    rewrite (js_get_NoDup _ _ _ Hnd Hv).
    eexists. split; [ reflexivity | ].
    pose proof (obj_set_keys (section p)
                  (JArr (map page_value (pages_of (section p) done)
                         ++ [page_value p])) o) as Hk.
    rewrite (proj2 (has_key_keys _ _) Hin) in Hk.
    split; [ split; [ | split ] | ].
    + now rewrite Hk.
    + intros k. rewrite Hk, Hkeys. split.
      * intros (q & Hq & Hs). exists q. split; [ | exact Hs ].
        apply elem_of_app. now left.
      * intros (q & Hq & Hs). apply elem_of_app in Hq as [Hq | Hq]; [ eauto | ].
        apply list_elem_of_singleton in Hq as ->. apply Hkeys.
        now rewrite <- Hs.
    + intros k v Hkv. apply obj_set_elem_of in Hkv as [[= -> ->] | [Hne Hkv]].
      * rewrite pages_of_app, map_app. do 2 f_equal.
        unfold pages_of. simpl. now rewrite String.eqb_refl.
      * simpl in Hne. rewrite (Hvals _ _ Hkv), pages_of_app. do 2 f_equal.
        unfold pages_of at 2. simpl.
        destruct (String.eqb_spec (section p) k); [ congruence | ].
        now rewrite app_nil_r.
    + intros _. rewrite Hk. now rewrite bool_decide_true.
  - assert (Hnone : js_get (section p) o = None).
    { apply js_get_None. destruct (has_key (section p) o) eqn:Hk;
        [ | reflexivity ].
      apply has_key_keys in Hk. contradiction. }
    rewrite Hnone, (bool_decide_false _ Hproto), js_get_obj_set, String.eqb_refl.
    eexists. split; [ reflexivity | ]. cbn [app].
    pose proof (obj_set_keys (section p) (JArr []) o) as Hk0.
    assert (Hkey0 : has_key (section p) o = false).
    { destruct (has_key (section p) o) eqn:Hk; [ | reflexivity ].
      apply has_key_keys in Hk. contradiction. }
    rewrite Hkey0 in Hk0.
    pose proof (obj_set_keys (section p) (JArr [page_value p])
                  (obj_set (section p) (JArr []) o)) as Hk1.
    assert (Hkey1 : has_key (section p) (obj_set (section p) (JArr []) o) = true).
    { apply has_key_keys. rewrite Hk0. now left. }
    rewrite Hkey1 in Hk1.
    assert (Hfresh : forall q, q ∈ done -> section q <> section p).
    { intros q Hq Hs. apply Hnew. apply Hkeys. eauto. }
    split; [ split; [ | split ] | ].
    + rewrite Hk1, Hk0. apply NoDup_cons. now split.
    + intros k. rewrite Hk1, Hk0, elem_of_cons, Hkeys. split.
      * intros [-> | (q & Hq & Hs)].
        -- exists p. split; [ | reflexivity ]. apply elem_of_app. right. now left.
        -- exists q. split; [ | exact Hs ]. apply elem_of_app. now left.
      * intros (q & Hq & Hs). apply elem_of_app in Hq as [Hq | Hq]; [ eauto | ].
        apply list_elem_of_singleton in Hq as ->. now left.
    + intros k v Hkv. apply obj_set_elem_of in Hkv as [[= -> ->] | [Hne Hkv]].
      * rewrite pages_of_app, (pages_of_none _ _ Hfresh). simpl.
        unfold pages_of. simpl. now rewrite String.eqb_refl.
      * simpl in Hne. apply obj_set_elem_of in Hkv as [[= -> ->] | [_ Hkv]];
          [ contradiction | ].
        rewrite (Hvals _ _ Hkv), pages_of_app. do 2 f_equal.
        unfold pages_of at 2. simpl.
        destruct (String.eqb_spec (section p) k); [ congruence | ].
        now rewrite app_nil_r.
    + intros Hord. rewrite Hk1, (bool_decide_false _ Hnew).
      rewrite (obj_set_fresh _ _ _ Hnew Hord). now rewrite map_app.
Qed.

Lemma group_pages_grouped (rest done : list page) (o : list (string * json)) :
  grouped o done ->
  (forall p, p ∈ rest -> section p ∉ Object_prototype) ->
  exists o', group_pages rest o = Ok o'
    /\ grouped o' (done ++ rest)
    /\ ((forall p, p ∈ rest -> array_index (section p) = None) ->
        map fst o = first_seen (map section done) ->
        map fst o' = first_seen (map section (done ++ rest))).
Proof.
  revert done o. induction rest as [ | p rest IH ]; intros done o Hg Hproto.
  - exists o. rewrite app_nil_r. now split.
  - destruct (group_page_grouped o done p Hg) as (o1 & Hstep & Hg1 & Hord1);
      [ apply Hproto; now left | ].
    destruct (IH (done ++ [p]) o1 Hg1) as (o' & Hrest & Hg' & Hord');
      [ intros q Hq; apply Hproto; now right | ].
    exists o'. cbn [group_pages]. rewrite Hstep. rewrite <- app_assoc in *.
    split; [ exact Hrest | split; [ exact Hg' | ] ].
    intros Hord Hfirst. apply Hord'; [ intros q Hq; apply Hord; now right | ].
    rewrite Hord1 by (apply Hord; now left).
    rewrite map_app. simpl. rewrite first_seen_snoc, <- Hfirst. reflexivity.
Qed.

Section NavigationFacts.

Context (toUpperCase : string -> string).

(** X22. Unless a section bears a name that objects inherit, the navigation
    has one entry for each section met, under the section's title; the entry
    lists the pages of that section, each once, in their order, by title
    and path.  When no section name is an array index, the entries stand in
    the order in which the sections first occur. *)
Theorem pages_are_grouped_by_section (pages : list page) :
  (forall p, p ∈ pages -> section p ∉ Object_prototype) ->
  exists names,
    generateDocsYml toUpperCase pages
    = Ok (JObj [("title", JStr "Test Documentation");
                ("navigation",
                 JArr (map (fun k => section_entry toUpperCase k
                                       (pages_of k pages)) names))])
    /\ NoDup names
    /\ (forall k, k ∈ names <-> exists p, p ∈ pages /\ section p = k)
    /\ ((forall p, p ∈ pages -> array_index (section p) = None) ->
        names = first_seen (map section pages)).
Proof.
  intros Hproto.
  destruct (group_pages_grouped pages [] []) as (o & Hrun & Hg & Hord).
  { split; [ constructor | split ].
    - intros k. split; [ intros H; inversion H | intros (p & Hp & _); inversion Hp ].
    - intros k v H. inversion H. }
  { exact Hproto. }
  simpl in Hg, Hord. destruct Hg as (Hnd & Hkeys & Hvals).
  exists (map fst o). unfold generateDocsYml. rewrite Hrun.
  split; [ | split; [ exact Hnd | split; [ exact Hkeys | ] ] ].
  - assert (Hmap : map (navigation_entry toUpperCase) o
                   = map (fun k => section_entry toUpperCase k (pages_of k pages))
                       (map fst o)).
    { rewrite map_map. apply map_ext_in. intros [k v] Hin.
      apply list_elem_of_In in Hin. rewrite (Hvals _ _ Hin).
      unfold navigation_entry, section_entry. cbn [fst snd].
      now rewrite map_map. }
    now rewrite Hmap.
  - intros Hordinary. now apply Hord.
Qed.

(** X23. A page whose section bears a name that objects inherit from
    [Object.prototype], such as [constructor] or [toString], makes
    [generateDocsYml] throw: the test [!pagesBySection[page.section]] finds
    the inherited value, no array is created, and [push] is not a function
    of that value. *)
Theorem inherited_section_name_throws (before after : list page) (p : page) :
  (forall q, q ∈ before -> section q ∉ Object_prototype) ->
  section p ∈ Object_prototype ->
  generateDocsYml toUpperCase (before ++ p :: after) = Throw not_a_function.
Proof.
  intros Hbefore Hp.
  destruct (group_pages_grouped before [] []) as (o & Hrun & Hg & _).
  { split; [ constructor | split ].
    - intros k. split; [ intros H; inversion H | intros (q & Hq & _); inversion Hq ].
    - intros k v H. inversion H. }
  { exact Hbefore. }
  simpl in Hg. destruct Hg as (Hnd & Hkeys & Hvals).
  assert (Happ : forall l1 l2 o0,
            group_pages (l1 ++ l2) o0
            = match group_pages l1 o0 with
              | Ok o1 => group_pages l2 o1
              | Throw e => Throw e
              end).
  { induction l1 as [ | q l1 IH ]; intros l2 o0; [ reflexivity | ].
    simpl. destruct (group_page o0 q); [ apply IH | reflexivity ]. }
  unfold generateDocsYml. rewrite Happ, Hrun. cbn [group_pages].
  assert (Hnone : js_get (section p) o = None).
  { apply js_get_None. destruct (has_key (section p) o) eqn:Hk; [ | reflexivity ].
    apply has_key_keys, Hkeys in Hk as (q & Hq & Hs).
    exfalso. apply (Hbefore q Hq). now rewrite Hs. }
  unfold group_page. rewrite Hnone, (bool_decide_true _ Hp), Hnone. reflexivity.
Qed.

End NavigationFacts.

End TestContentFacts.

(** * The further properties at work *)

Module GeneratorCases.
Import Fixture Docs.

Lemma shared_component_runs_full_build_witness :
  generateSpecs batch (Some "alchemy/specs/_shared.yaml") ∅
  = {| settled := settled (generateSpecs batch None ∅);
       promises := promises (generateSpecs batch None ∅);
       results := results (generateSpecs batch None ∅);
       writes := writes (generateSpecs batch None ∅);
       disk := disk (generateSpecs batch None ∅);
       console := Shared_component_changed
                  :: console (generateSpecs batch None ∅) |}.
Proof.
  apply (shared_component_runs_full_build batch "alchemy/specs/_shared.yaml" ∅);
    [ discriminate | reflexivity | reflexivity ].
Defined.

Lemma full_build_attempts_eligible_witness :
  Permutation (map fst (promises (generateSpecs batch None ∅)))
    ["specs/one.yaml"; "specs/two.yaml"; "specs/three.yaml"].
Proof.
  apply (proj1 (full_build_attempts_eligible batch ∅
                  ["one.yaml"; "two.yaml"; "_shared.yaml"; "three.yaml";
                   "notes.md"] eq_refl eq_refl)).
Defined.

Lemma composition_free_is_unchanged_witness :
  mergeAllOfSchemas batch 1000 petstore = (Ok petstore, []).
Proof.
  apply (proj1 (composition_free_is_unchanged batch 1000 petstore)).
  - unfold petstore, plain, ordinary_keys. cbn [foldr snd map fst].
    repeat split; try reflexivity;
      try (apply (bool_decide_unpack _); vm_compute; exact I);
      repeat constructor.
  - vm_compute. lia.
Defined.

Lemma marker_heads_the_output_witness :
  output_object (JObj [("openrpc", JStr "1.2.4"); ("methods", JArr [])])
  = JObj [(warning_key, JStr warning_text);
          ("openrpc", JStr "1.2.4"); ("methods", JArr [])].
Proof.
  apply marker_heads_the_output.
  - split; [ apply (bool_decide_unpack _); vm_compute; exact I
           | repeat constructor ].
  - apply (bool_decide_unpack _). vm_compute. exact I.
Defined.

Lemma generated_spec_drops_components_witness :
  (exists doc merged lg c,
     RefParser_dereference MoreDocs.null_components_host "specs/nc.yaml" = Ok doc
     /\ mergeAllOfSchemas MoreDocs.null_components_host
          (stack_depth MoreDocs.null_components_host) doc = (Ok merged, lg)
     /\ js_prop merged "components" = Ok c
     /\ js_prop MoreDocs.null_components "components"
        = Ok (if truthy_prop c then None else c)
     /\ (truthy_prop c = false ->
         sort_methods MoreDocs.null_components_host merged
         = Ok MoreDocs.null_components)
     /\ (truthy_prop c = true ->
         exists kvs, merged = JObj kvs
           /\ sort_methods MoreDocs.null_components_host
                (JObj (obj_delete "components" kvs))
              = Ok MoreDocs.null_components)
     /\ (forall k, k <> "components" -> k <> "methods" ->
           js_prop MoreDocs.null_components k = js_prop merged k))
  /\ js_prop MoreDocs.null_components "components" = Ok (Some JNull)
  /\ fst (dereferenceSpec batch "specs/one.yaml")
     = Ok {| spec :=
               JObj
                 [("openrpc", JStr "1.2.4");
                  ("methods",
                   JArr
                     [JObj [("name", JStr "alpha"); ("summary", JStr "first")];
                      JObj [("name", JStr "alpha"); ("summary", JStr "second")];
                      JObj [("name", JStr "zeta");
                            ("result", JObj [("type", JStr "string")])]])];
             fileName := "one" |}.
Proof.
  split; [ | split; reflexivity ].
  apply (generated_spec_drops_components MoreDocs.null_components_host
           "specs/nc.yaml"
           {| spec := MoreDocs.null_components; fileName := "nc" |}).
  reflexivity.
Defined.

Lemma null_method_fails_the_sort_witness :
  (exists e,
     sort_methods batch
       (JObj [("methods", JArr [JObj [("name", JStr "a")]; JNull])])
     = Throw e)
  /\ sort_methods batch (JObj [("methods", JArr [JNull])])
     = Ok (JObj [("methods", JArr [JNull])]).
Proof.
  split.
  - apply (proj1 (null_method_fails_the_sort batch
                    [("methods", JArr [JObj [("name", JStr "a")]; JNull])]
                    [JObj [("name", JStr "a")]; JNull] eq_refl)).
    + apply list_elem_of_In. simpl. tauto.
    + simpl. lia.
  - apply (proj2 (null_method_fails_the_sort batch
                    [("methods", JArr [JNull])] [JNull] eq_refl)).
    reflexivity.
Defined.

Lemma completion_order_is_irrelevant_witness :
  disk (generateSpecs batch None ∅)
  = fold_left (apply_write)
      (omap (fun f => pair f <$> artifact batch f)
         ["specs/one.yaml"; "specs/two.yaml"; "specs/three.yaml"]) ∅.
Proof.
  apply (completion_order_is_irrelevant batch None ∅
           ["specs/one.yaml"; "specs/two.yaml"; "specs/three.yaml"] []).
  - reflexivity.
  - reflexivity.
  - apply (bool_decide_unpack _). vm_compute. exact I.
Defined.

Lemma summary_counts_unwritten_documents_witness :
  last (console (generateSpecs batch_unwritable None ∅))
  = Some (Generation_complete 2 3)
  /\ length (writes (generateSpecs batch_unwritable None ∅)) = 1.
Proof.
  destruct (summary_counts_unwritten_documents batch_unwritable None ∅
              ["specs/one.yaml"; "specs/two.yaml"; "specs/three.yaml"] []
              eq_refl eq_refl) as (Hlast & Hcount & _).
  split; [ exact Hlast | reflexivity ].
Defined.

Lemma incremental_run_uses_the_base_name_witness :
  generateSpecs batch (Some "alchemy/specs/nested/one.yaml") ∅
  = generateSpecs batch (Some "one.yaml") ∅.
Proof.
  apply incremental_run_uses_the_base_name;
    [ discriminate | discriminate | reflexivity | reflexivity | reflexivity
    | reflexivity | reflexivity ].
Defined.

Lemma second_run_changes_nothing_witness :
  disk (generateSpecs
          (reordered batch (@rev string)
             (fun l => Permutation_sym (Permutation_rev l)))
          None (disk (generateSpecs batch None ∅)))
  = disk (generateSpecs batch None ∅).
Proof.
  apply (second_run_changes_nothing batch (@rev string)
           (fun l => Permutation_sym (Permutation_rev l)) None ∅).
  intros files lg Hsel. vm_compute in Hsel. injection Hsel as <- _.
  apply (bool_decide_unpack _). vm_compute. exact I.
Defined.

End GeneratorCases.

Module UploadCases.
Import Upload UploadDocs UploadFacts.

Lemma listed_files_are_not_skipped_witness :
  ("alchemy/specs/eth.yaml"
     ∈ ["docs.yml"; ".env.example"; "alchemy/specs/eth.yaml";
        "alchemy/generated/eth.json"; "guides/intro.mdx"] <->
   exists e, e ∈ tree
     /\ listed Fixture.join relative "/repo" "/repo" e
          "alchemy/specs/eth.yaml")
  /\ ("alchemy/specs/eth.yaml"
        ∈ ["docs.yml"; ".env.example"; "alchemy/specs/eth.yaml";
           "alchemy/generated/eth.json"; "guides/intro.mdx"] ->
      shouldSkip "alchemy/specs/eth.yaml" = false).
Proof.
  apply (listed_files_are_not_skipped Fixture.join relative "/repo"
           tree "/repo").
  reflexivity.
Defined.

Lemma walk_lists_unskipped_files_witness :
  getAllFiles Fixture.join relative "/repo" "/repo" tree
  = Ok ["docs.yml"; ".env.example"; "alchemy/specs/eth.yaml";
        "alchemy/generated/eth.json"; "guides/intro.mdx"].
Proof.
  apply (walk_lists_unskipped_files Fixture.join relative "/repo" tree).
  - reflexivity.
  - unfold tree. repeat constructor; try discriminate.
Defined.

Lemma failed_writes_do_not_stop_the_upload_witness :
  uploaded (progress (main (site [] ["content/preview/docs.yml"]) Blob))
  + failed (progress (main (site [] ["content/preview/docs.yml"]) Blob)) = 5
  /\ exit_status (main (site [] ["content/preview/docs.yml"]) Blob) = 1%Z.
Proof.
  split; [ | reflexivity ].
  apply (failed_writes_do_not_stop_the_upload
           (site [] ["content/preview/docs.yml"]) Blob tree
           ["docs.yml"; ".env.example"; "alchemy/specs/eth.yaml";
            "alchemy/generated/eth.json"; "guides/intro.mdx"]).
  - reflexivity.
  - reflexivity.
  - reflexivity.
  - intros f Hf. eexists. reflexivity.
Defined.

Lemma unreadable_file_stops_the_upload_witness :
  exit_status (main (site ["/repo/alchemy/specs/eth.yaml"] []) Redis) = 1%Z
  /\ requests (main (site ["/repo/alchemy/specs/eth.yaml"] []) Redis) = []
  /\ uploaded (progress (main (site ["/repo/alchemy/specs/eth.yaml"] []) Redis))
     + failed (progress (main (site ["/repo/alchemy/specs/eth.yaml"] []) Redis))
     = 2.
Proof.
  destruct (unreadable_file_stops_the_upload
              (site ["/repo/alchemy/specs/eth.yaml"] []) Redis tree
              ["docs.yml"; ".env.example"]
              ["alchemy/generated/eth.json"; "guides/intro.mdx"]
              "alchemy/specs/eth.yaml" "EACCES: permission denied")
    as (Hexit & Hreq & Hcount & _).
  - reflexivity.
  - reflexivity.
  - reflexivity.
  - intros f Hf.
    apply elem_of_cons in Hf as [-> | Hf]; [ eexists; reflexivity | ].
    apply elem_of_cons in Hf as [-> | Hf]; [ eexists; reflexivity | ].
    inversion Hf.
  - reflexivity.
  - split; [ exact Hexit | split; [ exact Hreq | exact Hcount ] ].
Defined.

End UploadCases.

Module ContentCases.
Import TestContent TestContentFacts.

Lemma pages_are_grouped_by_section_witness :
  exists names,
    generateDocsYml id
      [ {| section := "guides"; title := "guides Guide 1";
           path := "guides/page-1.mdx" |};
        {| section := "sdk"; title := "sdk Guide 1";
           path := "sdk/page-1.mdx" |};
        {| section := "guides"; title := "guides Guide 2";
           path := "guides/page-2.mdx" |} ]
    = Ok (JObj [("title", JStr "Test Documentation");
                ("navigation",
                 JArr (map (fun k =>
                              section_entry id k
                                (pages_of k
                                   [ {| section := "guides";
                                        title := "guides Guide 1";
                                        path := "guides/page-1.mdx" |};
                                     {| section := "sdk";
                                        title := "sdk Guide 1";
                                        path := "sdk/page-1.mdx" |};
                                     {| section := "guides";
                                        title := "guides Guide 2";
                                        path := "guides/page-2.mdx" |} ]))
                         names))])
    /\ NoDup names.
Proof.
  destruct (pages_are_grouped_by_section id
              [ {| section := "guides"; title := "guides Guide 1";
                   path := "guides/page-1.mdx" |};
                {| section := "sdk"; title := "sdk Guide 1";
                   path := "sdk/page-1.mdx" |};
                {| section := "guides"; title := "guides Guide 2";
                   path := "guides/page-2.mdx" |} ])
    as (names & Hrun & Hnd & _).
  - intros p Hp.
    apply elem_of_cons in Hp as [-> | Hp];
      [ apply (bool_decide_unpack _); vm_compute; exact I | ].
    apply elem_of_cons in Hp as [-> | Hp];
      [ apply (bool_decide_unpack _); vm_compute; exact I | ].
    apply elem_of_cons in Hp as [-> | Hp];
      [ apply (bool_decide_unpack _); vm_compute; exact I | ].
    inversion Hp.
  - exists names. split; [ exact Hrun | exact Hnd ].
Defined.

Lemma inherited_section_name_throws_witness :
  generateDocsYml id
    [ {| section := "guides"; title := "guides Guide 1";
         path := "guides/page-1.mdx" |};
      {| section := "constructor"; title := "constructor Guide 1";
         path := "constructor/page-1.mdx" |} ]
  = Throw not_a_function.
Proof.
  apply (inherited_section_name_throws id
           [ {| section := "guides"; title := "guides Guide 1";
                path := "guides/page-1.mdx" |} ] []
           {| section := "constructor"; title := "constructor Guide 1";
              path := "constructor/page-1.mdx" |}).
  - intros q Hq. apply list_elem_of_singleton in Hq as ->.
    apply (bool_decide_unpack _). vm_compute. exact I.
  - apply (bool_decide_unpack _). vm_compute. exact I.
Defined.

End ContentCases.

Module WatchCases.
Import Watch WatchFacts WatchDocs.

Lemma deleted_specification_keeps_its_artifact_witness :
  output_dir (on_timeout watcher "alchemy/specs/gone.yaml" ∅) = ∅
  /\ posts (on_timeout watcher "alchemy/specs/gone.yaml" ∅)
     = [("http://localhost:3000/api/revalidate", "dev-secret",
         "alchemy/specs/gone.yaml", "preview")].
Proof.
  destruct (deleted_specification_keeps_its_artifact watcher
              "alchemy/specs/gone.yaml" ∅)
    as (_ & Hdir & Hposts);
    [ reflexivity | reflexivity | reflexivity | reflexivity | ].
  split; [ exact Hdir | exact Hposts ].
Defined.

End WatchCases.
